(** * Chunked virtual-memory mapping: the allocation arithmetic and the
      driver protocol of [create_and_map] / [unmap_and_release]

    The development embeds two source files.

    - [cumem_test.cpp], function [allocate_device_memory]: the [size_t]
      arithmetic that rounds the requested size up to the device granularity
      and splits it into chunks (lines 97 and 109-124).
    - [cumem_functions.cpp]: [ensure_context], [set_cpu_affinity_for_gpu],
      [create_and_map] and [unmap_and_release].
    - [cumem_test.cpp] again: [get_memory_granularity],
      [allocate_device_memory] and [free_device_memory] as a whole, with the
      calls they make themselves.  [format_size] (floating point), the
      destructor of [DeviceMemory] and [main] are not embedded.

    Integers are [Z] with the 64-bit unsigned wrap-around written out.  The
    driver and the operating system are external: every call is answered by a
    function of the calls made so far, and the calls are recorded in a trace.
    Console output ([std::cout], [std::cerr]) is not part of the model. *)

From stdpp Require Import numbers gmap list.

Local Open Scope Z_scope.

(** ** Machine integers *)

Module U64.

(** [size_t], [unsigned long long] and [uintptr_t] are 64 bits wide. *)
Definition modulus : Z := 2 ^ 64.

Definition wrap (x : Z) : Z := x mod modulus.

Definition add (a b : Z) : Z := wrap (a + b).
Definition sub (a b : Z) : Z := wrap (a - b).
Definition mul (a b : Z) : Z := wrap (a * b).

(** Unsigned division; dividing by zero has no defined result. *)
Definition div (a b : Z) : option Z :=
  if b =? 0 then None else Some (a / b).

Definition in_range (x : Z) : Prop := 0 <= x < modulus.

End U64.

(** The loop counters of [cumem_functions.cpp] are declared [auto i = 0],
    that is [int]; incrementing [INT_MAX] is undefined. *)
Definition INT_MAX : Z := 2 ^ 31 - 1.

(** The mathematical ceiling of [a / b], used in the statements. *)
Definition ceil_div (a b : Z) : Z := - ((- a) / b).

(** ** [allocate_device_memory]: alignment and chunk sizes *)

Module Layout.

(** [const size_t CHUNK_SIZE_MB = 128;] *)
Definition CHUNK_SIZE_MB : Z := 128.

(** The fields of [DeviceMemory] that the arithmetic fills in, with the
    local [aligned_chunk_size]. *)
Record plan : Type := Plan {
  alignedSize : Z;
  aligned_chunk_size : Z;
  num_chunks : Z;
  chunk_sizes : list Z;
}.

(** Line 97: [((size + granularity - 1) / granularity) * granularity]. *)
Definition align_up (size granularity : Z) : option Z :=
  q ← U64.div (U64.sub (U64.add size granularity) 1) granularity;
  Some (U64.mul q granularity).

(** Line 113: [(alignedSize + aligned_chunk_size - 1) / aligned_chunk_size]. *)
Definition count_chunks (aligned chunk : Z) : option Z :=
  U64.div (U64.sub (U64.add aligned chunk) 1) chunk.

(** Lines 122-123: the size stored in [chunk_sizes[i]]. *)
Definition chunk_size_at (aligned chunk n i : Z) : Z :=
  if i =? U64.sub n 1
  then U64.sub aligned (U64.mul (U64.sub n 1) chunk)
  else chunk.

(** Lines 120-124: the loop [for (size_t i = 0; i < num_chunks; i++)]. *)
Definition init_chunk_sizes (aligned chunk n : Z) : list Z :=
  chunk_size_at aligned chunk n <$> seqZ 0 n.

(** Lines 97-124 without the reservation and the allocation of the arrays. *)
Definition chunk_plan (size granularity : Z) : option plan :=
  aligned ← align_up size granularity;
  chunk ← align_up (U64.mul (U64.mul CHUNK_SIZE_MB 1024) 1024) granularity;
  n ← count_chunks aligned chunk;
  Some (Plan aligned chunk n (init_chunk_sizes aligned chunk n)).

End Layout.

(** Sum of a list of sizes, as a mathematical integer. *)
Definition sum_sizes (l : list Z) : Z := foldr Z.add 0 l.

(** ** The driver interface *)

(** A [CUresult] (or the [int] returned by [sched_setaffinity]). *)
Definition CUresult : Type := Z.

(** The calls that leave the program.  Pointers and handles are 64-bit
    numbers.  [cuMemCreate] carries the address of the slot that receives the
    handle, the size and the device of its allocation properties (the other
    properties are constants); [cuMemSetAccess] carries the device of its
    access descriptor. *)
Inductive Call : Type :=
  | cuCtxGetCurrent
  | cuDevicePrimaryCtxRetain (device : Z)
  | cuCtxSetCurrent (pctx : Z)
  | sched_setaffinity (tid : Z) (mask : Z)
  | cuMemCreate (slot : Z) (size : Z) (device : Z)
  | cuMemMap (addr : Z) (size : Z) (handle : Z)
  | cuMemSetAccess (addr : Z) (size : Z) (device : Z)
  | cuMemUnmap (addr : Z) (size : Z)
  | cuMemRelease (handle : Z).

(** What a call answers: its result code and, for the calls with an output
    parameter ([cuCtxGetCurrent], [cuDevicePrimaryCtxRetain], [cuMemCreate]),
    the value written through it. *)
Record Response : Type := Answer { status : CUresult; out : Z }.

Abbreviation Event := (Call * Response)%type.

(** The world of one thread: its id, the handle slots that hold a value
    (address to contents), and the calls made so far, oldest first. *)
Record World : Type := MkWorld {
  tid : Z;
  heap : gmap Z Z;
  trace : list Event;
}.

(** Control flow out of a loop body: go on with the loop-carried local, or
    [return] from the enclosing function. *)
Inductive Flow (A : Type) : Type :=
  | Next (a : A)
  | Returned.
Arguments Next {A} a.
Arguments Returned {A}.

(** Computations on the world; [None] is undefined behaviour (an index out
    of the array, a read of a slot without a value, overflow of an [int]). *)
Definition M (A : Type) : Type := World → option (A * World).

Definition ret {A} (a : A) : M A := λ w, Some (a, w).

Definition bind {A B} (m : M A) (k : A → M B) : M B :=
  λ w, match m w with
       | Some (a, w') => k a w'
       | None => None
       end.

Definition undefined {A} : M A := λ _, None.

Declare Scope cumem_scope.
Delimit Scope cumem_scope with cumem.
Notation "x <~ m ;; k" := (bind m (λ x, k))
  (at level 100, m at next level, right associativity) : cumem_scope.
Notation "m ;;; k" := (bind m (λ _, k))
  (at level 100, right associativity) : cumem_scope.
Local Open Scope cumem_scope.

(** [a[i]] for an [int] index. *)
Definition index (a : list Z) (i : Z) : M Z :=
  if i <? 0 then undefined
  else match a !! Z.to_nat i with
       | Some x => ret x
       | None => undefined
       end.

(** [*p] *)
Definition load (p : Z) : M Z :=
  λ w, match heap w !! p with
       | Some v => Some (v, w)
       | None => None
       end.

Definition store (p v : Z) : M unit :=
  λ w, Some (tt, MkWorld (tid w) (<[p := v]> (heap w)) (trace w)).

(** [syscall(SYS_gettid)] *)
Definition gettid : M Z := λ w, Some (tid w, w).

(** [++i] on an [int]. *)
Definition int_incr (i : Z) : M Z :=
  if i <? INT_MAX then ret (i + 1) else undefined.

(** [for (auto i = start; i < start + n; ++i) body], with a loop-carried
    local and [return] inside the body. *)
Fixpoint for_int {A} (n : nat) (i : Z) (body : Z → A → M (Flow A)) (acc : A)
  : M (Flow A) :=
  match n with
  | O => ret (Next acc)
  | S n' =>
      f <~ body i acc ;;
      match f with
      | Returned => ret Returned
      | Next acc' => i' <~ int_incr i ;; for_int n' i' body acc'
      end
  end.

(** [CPU_SET(i, &mask)] on a mask held as a number: bit [i] is CPU [i]. *)
Definition CPU_SET (i : Z) (mask : Z) : Z := Z.lor mask (Z.shiftl 1 i).

(** [for (int i = lo; i < lo + n; i++) CPU_SET(i, &mask);] *)
Fixpoint cpu_set_range (n : nat) (i : Z) (mask : Z) : Z :=
  match n with
  | O => mask
  | S n' => cpu_set_range n' (i + 1) (CPU_SET i mask)
  end.

(** ** [cumem_functions.cpp] *)

Section Cumem.

(** [CUDA_SUCCESS] comes from [cumem_allocator_compat.h]. *)
Variable CUDA_SUCCESS : CUresult.

(** The driver and the kernel: the answer to a call, given the calls made
    before it. *)
Variable driver : list Event → Call → Response.

(** A call: ask, and record the call with its answer. *)
Definition call (c : Call) : M Response :=
  λ w, let r := driver (trace w) c in
       Some (r, MkWorld (tid w) (heap w) (trace w ++ [(c, r)])).

Definition failed (r : Response) : bool :=
  negb (status r =? CUDA_SUCCESS).

(** [cuMemCreate(slot, size, &prop, 0)]: on success the driver has written
    the new handle to [*slot]. *)
Definition mem_create (slot size device : Z) : M Response :=
  r <~ call (cuMemCreate slot size device) ;;
  if failed r then ret r else (store slot (out r) ;;; ret r).

Definition ensure_context (device : Z) : M unit :=
  r <~ call cuCtxGetCurrent ;;
  if failed r then ret tt
  else if out r =? 0 then
    r <~ call (cuDevicePrimaryCtxRetain device) ;;
    if failed r then ret tt
    else
      r' <~ call (cuCtxSetCurrent (out r)) ;;
      if failed r' then ret tt else ret tt
  else ret tt.

Definition set_cpu_affinity_for_gpu (device : Z) : M unit :=
  t <~ gettid ;;
  let mask :=
    if device <=? 3 then cpu_set_range 48 0 0 else cpu_set_range 48 48 0 in
  result <~ call (sched_setaffinity t mask) ;;
  if status result =? 0 then ret tt else ret tt.

Definition create_body (device : Z) (p_memHandle chunk_sizes : list Z)
  (i : Z) (_ : unit) : M (Flow unit) :=
  slot <~ index p_memHandle i ;;
  sz <~ index chunk_sizes i ;;
  result <~ mem_create slot sz device ;;
  if failed result then ret Returned
  else (load slot ;;; ret (Next tt)).

Definition map_body (d_mem : Z) (p_memHandle chunk_sizes : list Z)
  (i : Z) (allocated_size : Z) : M (Flow Z) :=
  let map_addr := U64.add d_mem allocated_size in
  sz <~ index chunk_sizes i ;;
  slot <~ index p_memHandle i ;;
  h <~ load slot ;;
  result <~ call (cuMemMap map_addr sz h) ;;
  if failed result then ret Returned
  else ret (Next (U64.add allocated_size sz)).

Definition create_and_map (device size d_mem : Z)
  (p_memHandle chunk_sizes : list Z) (num_chunks : Z) : M unit :=
  ensure_context device ;;;
  set_cpu_affinity_for_gpu device ;;;
  created <~ for_int (Z.to_nat num_chunks) 0
               (create_body device p_memHandle chunk_sizes) tt ;;
  match created with
  | Returned => ret tt
  | Next _ =>
      mapped <~ for_int (Z.to_nat num_chunks) 0
                  (map_body d_mem p_memHandle chunk_sizes) 0 ;;
      match mapped with
      | Returned => ret tt
      | Next _ =>
          result <~ call (cuMemSetAccess d_mem (U64.wrap size) device) ;;
          if failed result then ret tt else ret tt
      end
  end.

Definition unmap_body (d_mem : Z) (chunk_sizes : list Z)
  (i : Z) (allocated_size : Z) : M (Flow Z) :=
  let map_addr := U64.add d_mem allocated_size in
  sz <~ index chunk_sizes i ;;
  result <~ call (cuMemUnmap map_addr sz) ;;
  if failed result then ret Returned
  else ret (Next (U64.add allocated_size sz)).

Definition release_body (p_memHandle : list Z)
  (i : Z) (_ : unit) : M (Flow unit) :=
  slot <~ index p_memHandle i ;;
  h <~ load slot ;;
  result <~ call (cuMemRelease h) ;;
  if failed result then ret Returned else ret (Next tt).

Definition unmap_and_release (device size d_mem : Z)
  (p_memHandle chunk_sizes : list Z) (num_chunks : Z) : M unit :=
  ensure_context device ;;;
  unmapped <~ for_int (Z.to_nat num_chunks) 0
                (unmap_body d_mem chunk_sizes) 0 ;;
  match unmapped with
  | Returned => ret tt
  | Next _ =>
      released <~ for_int (Z.to_nat num_chunks) 0
                    (release_body p_memHandle) tt ;;
      match released with
      | Returned => ret tt
      | Next _ => ret tt
      end
  end.

End Cumem.

(** ** Vocabulary of the statements *)

(** [128 * 1024 * 1024], the chunk size before rounding. *)
Definition CHUNK_BYTES : Z := 134217728.

(** None of the three round-up additions of [allocate_device_memory]
    (lines 97, 112 and 113) exceeds 64 bits. *)
Definition rounding_fits (size granularity : Z) : Prop :=
  size + granularity - 1 < U64.modulus ∧
  CHUNK_BYTES + granularity - 1 < U64.modulus ∧
  ceil_div size granularity * granularity
    + ceil_div CHUNK_BYTES granularity * granularity - 1 < U64.modulus.

(** What a call is for. *)
Inductive Kind : Type :=
  | KContext | KAffinity | KCreate | KMap | KAccess | KUnmap | KRelease.

Global Instance Kind_eq_dec : EqDecision Kind.
Proof. solve_decision. Defined.

Definition kind (c : Call) : Kind :=
  match c with
  | cuCtxGetCurrent | cuDevicePrimaryCtxRetain _ | cuCtxSetCurrent _ => KContext
  | sched_setaffinity _ _ => KAffinity
  | cuMemCreate _ _ _ => KCreate
  | cuMemMap _ _ _ => KMap
  | cuMemSetAccess _ _ _ => KAccess
  | cuMemUnmap _ _ => KUnmap
  | cuMemRelease _ => KRelease
  end.

(** The events of one kind, in the order of the trace. *)
Definition of_kind (K : Kind) (evs : list Event) : list Event :=
  filter (λ e, kind e.1 = K) evs.

(** The events of [ensure_context] and [set_cpu_affinity_for_gpu]. *)
Definition is_prelude (e : Event) : Prop :=
  kind e.1 = KContext ∨ kind e.1 = KAffinity.

(** The address range [(addr, size)] a mapping or unmapping call names. *)
Definition call_range (c : Call) : option (Z * Z) :=
  match c with
  | cuMemMap a s _ | cuMemUnmap a s => Some (a, s)
  | _ => None
  end.

(** Well-formed arguments: both arrays have [num_chunks] entries and the
    [int] loop counters can reach [num_chunks]. *)
Definition well_formed (p_memHandle chunk_sizes : list Z) (num_chunks : Z)
  : Prop :=
  Z.of_nat (length p_memHandle) = num_chunks
  ∧ Z.of_nat (length chunk_sizes) = num_chunks
  ∧ num_chunks ≤ INT_MAX.

(** The address of chunk [i]: the base plus the sizes of the chunks before
    it, as a 64-bit number. *)
Definition chunk_addr (d_mem : Z) (chunk_sizes : list Z) (i : nat) : Z :=
  U64.wrap (d_mem + sum_sizes (take i chunk_sizes)).

(** The call each loop is expected to make for chunk [i]; [hp] holds the
    handle slots. *)
Definition create_call (device : Z) (p_memHandle chunk_sizes : list Z)
  (i : nat) : Call :=
  cuMemCreate (p_memHandle !!! i) (chunk_sizes !!! i) device.

Definition map_call (d_mem : Z) (hp : gmap Z Z)
  (p_memHandle chunk_sizes : list Z) (i : nat) : Call :=
  cuMemMap (chunk_addr d_mem chunk_sizes i) (chunk_sizes !!! i)
           (hp !!! (p_memHandle !!! i)).

Definition unmap_call (d_mem : Z) (chunk_sizes : list Z) (i : nat) : Call :=
  cuMemUnmap (chunk_addr d_mem chunk_sizes i) (chunk_sizes !!! i).

Definition release_call (hp : gmap Z Z) (p_memHandle : list Z) (i : nat)
  : Call :=
  cuMemRelease (hp !!! (p_memHandle !!! i)).

(** The slots after the creations [evs] for the first chunks: slot [i] holds
    the handle answered by creation [i]. *)
Fixpoint stored (h : gmap Z Z) (slots : list Z) (evs : list Event)
  : gmap Z Z :=
  match slots, evs with
  | s :: slots', e :: evs' => stored (<[s := out e.2]> h) slots' evs'
  | _, _ => h
  end.

Section Phases.

Variable CUDA_SUCCESS : CUresult.

Definition succeeded (e : Event) : Prop := status e.2 = CUDA_SUCCESS.

(** [evs] are [k] successful calls, the calls [f 0 .. f (k-1)] in order. *)
Definition ran (f : nat → Call) (k : nat) (evs : list Event) : Prop :=
  length evs = k ∧ ∀ i e, evs !! i = Some e → e.1 = f i ∧ succeeded e.

(** The events of a loop over [n] chunks that stops at the first failure:
    [phase f n oks evs done] has [evs] the events, [oks] the successful
    ones among them and [done] whether the loop ran to its end. *)
Inductive phase (f : nat → Call) (n : nat)
  : list Event → list Event → bool → Prop :=
  | phase_done oks :
      ran f n oks → phase f n oks oks true
  | phase_stop k oks r :
      (k < n)%nat → ran f k oks → status r ≠ CUDA_SUCCESS →
      phase f n oks (oks ++ [(f k, r)]) false.

(** The events of [create_and_map] after its prelude, with the slots they
    leave behind. *)
Inductive create_and_map_events (device size d_mem : Z)
  (p_memHandle chunk_sizes : list Z) (n : nat) (h0 : gmap Z Z)
  : gmap Z Z → list Event → Prop :=
  | cam_create_failed oks cs :
      phase (create_call device p_memHandle chunk_sizes) n oks cs false →
      create_and_map_events device size d_mem p_memHandle chunk_sizes n h0
        (stored h0 p_memHandle oks) cs
  | cam_map_failed cs oks ms :
      ran (create_call device p_memHandle chunk_sizes) n cs →
      phase (map_call d_mem (stored h0 p_memHandle cs) p_memHandle chunk_sizes)
            n oks ms false →
      create_and_map_events device size d_mem p_memHandle chunk_sizes n h0
        (stored h0 p_memHandle cs) (cs ++ ms)
  | cam_access cs ms r :
      ran (create_call device p_memHandle chunk_sizes) n cs →
      ran (map_call d_mem (stored h0 p_memHandle cs) p_memHandle chunk_sizes)
          n ms →
      create_and_map_events device size d_mem p_memHandle chunk_sizes n h0
        (stored h0 p_memHandle cs)
        (cs ++ ms ++ [(cuMemSetAccess d_mem (U64.wrap size) device, r)]).

(** The events of [unmap_and_release] after [ensure_context]. *)
Inductive unmap_and_release_events (d_mem : Z)
  (p_memHandle chunk_sizes : list Z) (n : nat) (h0 : gmap Z Z)
  : list Event → list Event → Prop :=
  | uar_unmap_failed oks us :
      phase (unmap_call d_mem chunk_sizes) n oks us false →
      unmap_and_release_events d_mem p_memHandle chunk_sizes n h0 us []
  | uar_released us oks rs done :
      ran (unmap_call d_mem chunk_sizes) n us →
      phase (release_call h0 p_memHandle) n oks rs done →
      unmap_and_release_events d_mem p_memHandle chunk_sizes n h0 us rs.

End Phases.

(** ** Drivers and worlds for the examples *)

(** A value that no earlier call has answered, never zero. *)
Definition fresh (hist : list Event) : Z := Z.of_nat (length hist) + 1.

(** The driver that fails (result 1) exactly the calls selected by [bad]
    and answers all others with result 0 and a fresh value. *)
Definition driver_failing (bad : Call → bool) : list Event → Call → Response :=
  λ hist c, if bad c then Answer 1 0 else Answer 0 (fresh hist).

Definition driver_ok : list Event → Call → Response :=
  driver_failing (λ _, false).

Definition is_get_current (c : Call) : bool :=
  match c with cuCtxGetCurrent => true | _ => false end.

Definition creates_slot (slot : Z) (c : Call) : bool :=
  match c with cuMemCreate s _ _ => s =? slot | _ => false end.

Definition maps_at (addr : Z) (c : Call) : bool :=
  match c with cuMemMap a _ _ => a =? addr | _ => false end.

Definition unmaps_at (addr : Z) (c : Call) : bool :=
  match c with cuMemUnmap a _ => a =? addr | _ => false end.

Definition is_set_access (c : Call) : bool :=
  match c with cuMemSetAccess _ _ _ => true | _ => false end.

(** A thread that has made no call yet and whose slots hold no value. *)
Definition w_init : World := MkWorld 4242 ∅ [].

(** The same thread after two handles have been stored in slots 100 and
    108. *)
Definition w_mapped : World := MkWorld 4242 (<[108 := 4]> (<[100 := 3]> ∅)) [].

(** Two chunks of 2 MiB with their handle slots. *)
Definition slots2 : list Z := [100; 108].
Definition sizes2 : list Z := [2097152; 2097152].

(** Five chunks of 2 MiB with their handle slots. *)
Definition slots5 : list Z := [100; 108; 116; 124; 132].
Definition sizes5 : list Z := [2097152; 2097152; 2097152; 2097152; 2097152].

(** ** [cumem_test.cpp]: allocation and release of one device's memory *)

(** The struct [DeviceMemory].  The two arrays are held by their contents;
    the fields keep whatever value they had until the code assigns them.
    The buffers of the verification ([new int[...]]) are lists as well. *)
Module DeviceMemory.

Record t : Type := Make {
  device : Z;
  size : Z;
  alignedSize : Z;
  d_mem : Z;
  p_memHandle : list Z;
  chunk_sizes : list Z;
  num_chunks : Z;
  allocated : bool;
}.

End DeviceMemory.

(** The calls that [cumem_test.cpp] makes itself.  [hipMemcpy] is split by
    its direction; the copy to the device carries the words it sends. *)
Inductive HostCall : Type :=
  | cuMemGetAllocationGranularity (device : Z)
  | cuMemAddressReserve (size : Z) (alignment : Z)
  | cuMemAddressFree (ptr : Z) (size : Z)
  | malloc (bytes : Z)
  | hipMemcpyHostToDevice (dst : Z) (src : list Z) (count : Z)
  | hipMemcpyDeviceToHost (src : Z) (count : Z).

(** The answer to such a call: the result code, the value written through
    an output parameter or returned ([malloc]), and the words a copy from
    the device has put in the host buffer. *)
Record HostResponse : Type :=
  HostAnswer { hstatus : CUresult; hout : Z; hdata : list Z }.

Abbreviation HostEvent := (HostCall * HostResponse)%type.

(** The state of the test program: the world of [cumem_functions.cpp] and
    the calls of [cumem_test.cpp] itself, oldest first. *)
Record Host : Type := MkHost {
  world : World;
  outside : list HostEvent;
}.

Definition HM (A : Type) : Type := Host → option (A * Host).

Definition host_ret {A} (a : A) : HM A := λ h, Some (a, h).

Definition host_bind {A B} (m : HM A) (k : A → HM B) : HM B :=
  λ h, match m h with
       | Some (a, h') => k a h'
       | None => None
       end.

Definition host_undefined {A} : HM A := λ _, None.

(** A computation without a defined result is undefined behaviour. *)
Definition defined {A} (o : option A) : HM A :=
  λ h, match o with
       | Some a => Some (a, h)
       | None => None
       end.

Declare Scope host_scope.
Delimit Scope host_scope with host.
Notation "x <~ m ;; k" := (host_bind m (λ x, k))
  (at level 100, m at next level, right associativity) : host_scope.
Notation "m ;;; k" := (host_bind m (λ _, k))
  (at level 100, right associativity) : host_scope.

(** [test_size = 1 * 1024 * 1024] bytes, that is [test_size / sizeof(int)]
    words of 4 bytes. *)
Definition test_size : Z := 1048576.
Definition test_words : Z := 262144.

(** Lines 134-136: [for (size_t i = 0; i < n; i++) h_data[i] = i & 0xFF],
    the words from index [i] on. *)
Fixpoint test_pattern (n : nat) (i : Z) : list Z :=
  match n with
  | O => []
  | S n' => Z.land i 255 :: test_pattern n' (i + 1)
  end.

Definition h_data : list Z := test_pattern (Z.to_nat test_words) 0.

(** Lines 156-164, the comparison loop of the verification over the first
    [n] words of the two buffers: [Some false] at the first index where
    they differ ([break]), [Some true] when there is none; reading past a
    buffer is undefined. *)
Fixpoint compare_data (n : nat) (expected h_result : list Z) : option bool :=
  match n with
  | O => Some true
  | S n' =>
      match expected, h_result with
      | a :: expected', b :: h_result' =>
          if a =? b then compare_data n' expected' h_result' else Some false
      | _, _ => None
      end
  end.

Section HostCode.

Local Open Scope host_scope.

(** [CUDA_SUCCESS] comes from [cumem_allocator_compat.h], [hipSuccess] from
    the HIP runtime, as does the size of a [CUmemGenericAllocationHandle]. *)
Variable CUDA_SUCCESS : CUresult.
Variable hipSuccess : CUresult.
Variable handle_size : Z.

(** The driver of [cumem_functions.cpp]; what it answers may depend on the
    calls that the test program has made itself before. *)
Variable driver : list HostEvent → list Event → Call → Response.

(** The answer to a call of the test program, given the calls made before
    it, inside [cumem_functions.cpp] and outside. *)
Variable host : list Event → list HostEvent → HostCall → HostResponse.

Definition host_call (c : HostCall) : HM HostResponse :=
  λ h, let r := host (trace (world h)) (outside h) c in
       Some (r, MkHost (world h) (outside h ++ [(c, r)])).

(** A call into [cumem_functions.cpp]. *)
Definition enter (m : (list Event → Call → Response) → M unit) : HM unit :=
  λ h, match m (driver (outside h)) (world h) with
       | Some (_, w') => Some (tt, MkHost w' (outside h))
       | None => None
       end.

Definition cu_failed (r : HostResponse) : bool :=
  negb (hstatus r =? CUDA_SUCCESS).

Definition hip_failed (r : HostResponse) : bool :=
  negb (hstatus r =? hipSuccess).

(** Lines 26-47.  The allocation properties passed to the driver are
    constants except for the device. *)
Definition get_memory_granularity (device : Z) : HM Z :=
  r <~ host_call (cuMemGetAllocationGranularity device) ;;
  if cu_failed r then host_ret 0 else host_ret (hout r).

(** Lines 120-124: the loop that allocates one slot per chunk and stores
    the chunk size.  Both stores go through the arrays allocated before the
    loop; an array that [malloc] did not provide cannot be written. *)
Fixpoint init_arrays (n : nat) (i : Z) (p_array c_array : Z)
    (aligned chunk num : Z) (slots sizes : list Z) : HM (list Z * list Z) :=
  match n with
  | O => host_ret (slots, sizes)
  | S n' =>
      slot <~ host_call (malloc handle_size) ;;
      if (p_array =? 0) || (c_array =? 0) then host_undefined
      else init_arrays n' (i + 1) p_array c_array aligned chunk num
             (slots ++ [hout slot])
             (sizes ++ [Layout.chunk_size_at aligned chunk num i])
  end.

(** Lines 94-176.  [mem] is passed by reference: the function returns its
    result together with [mem] as it leaves it.  A pointer and an
    [unsigned long long] take 8 bytes.  After a failed
    [cuMemAddressReserve] the model leaves [d_mem] as it was; the code does
    not read it then. *)
Definition allocate_device_memory (mem : DeviceMemory.t)
    (size granularity : Z) (verify : bool) : HM (bool * DeviceMemory.t) :=
  aligned <~ defined (Layout.align_up size granularity) ;;
  let mem1 :=
    DeviceMemory.Make (DeviceMemory.device mem) size aligned
      (DeviceMemory.d_mem mem) (DeviceMemory.p_memHandle mem)
      (DeviceMemory.chunk_sizes mem) (DeviceMemory.num_chunks mem)
      (DeviceMemory.allocated mem) in
  result <~ host_call (cuMemAddressReserve aligned granularity) ;;
  if cu_failed result then host_ret (false, mem1)
  else
    let d_mem := hout result in
    aligned_chunk_size <~
      defined (Layout.align_up
                 (U64.mul (U64.mul Layout.CHUNK_SIZE_MB 1024) 1024)
                 granularity) ;;
    num <~ defined (Layout.count_chunks aligned aligned_chunk_size) ;;
    p_array <~ host_call (malloc (U64.mul num 8)) ;;
    c_array <~ host_call (malloc (U64.mul num 8)) ;;
    arrays <~ init_arrays (Z.to_nat num) 0 (hout p_array) (hout c_array)
                aligned aligned_chunk_size num [] [] ;;
    let mem2 :=
      DeviceMemory.Make (DeviceMemory.device mem) size aligned d_mem
        arrays.1 arrays.2 num (DeviceMemory.allocated mem) in
    let mem3 :=
      DeviceMemory.Make (DeviceMemory.device mem) size aligned d_mem
        arrays.1 arrays.2 num true in
    enter (λ driver,
             create_and_map CUDA_SUCCESS driver (DeviceMemory.device mem)
               aligned d_mem arrays.1 arrays.2 num) ;;;
    if verify then
      to_device <~ host_call (hipMemcpyHostToDevice d_mem h_data test_size) ;;
      if hip_failed to_device then host_ret (false, mem2)
      else
        from_device <~ host_call (hipMemcpyDeviceToHost d_mem test_size) ;;
        if hip_failed from_device then host_ret (false, mem2)
        else
          data_correct <~
            defined (compare_data (Z.to_nat test_words) h_data
                       (hdata from_device)) ;;
          if data_correct then host_ret (true, mem3)
          else host_ret (false, mem2)
    else host_ret (true, mem3).

(** Lines 179-198. *)
Definition free_device_memory (mem : DeviceMemory.t)
  : HM (bool * DeviceMemory.t) :=
  if negb (DeviceMemory.allocated mem) then host_ret (true, mem)
  else
    enter (λ driver,
             unmap_and_release CUDA_SUCCESS driver (DeviceMemory.device mem)
               (DeviceMemory.alignedSize mem) (DeviceMemory.d_mem mem)
               (DeviceMemory.p_memHandle mem) (DeviceMemory.chunk_sizes mem)
               (DeviceMemory.num_chunks mem)) ;;;
    result <~ host_call (cuMemAddressFree (DeviceMemory.d_mem mem)
                           (DeviceMemory.alignedSize mem)) ;;
    if cu_failed result then host_ret (false, mem)
    else
      host_ret (true,
        DeviceMemory.Make (DeviceMemory.device mem) (DeviceMemory.size mem)
          (DeviceMemory.alignedSize mem) (DeviceMemory.d_mem mem)
          (DeviceMemory.p_memHandle mem) (DeviceMemory.chunk_sizes mem)
          (DeviceMemory.num_chunks mem) false).

End HostCode.

(** ** A host for the examples *)

(** Every call succeeds (result 0) and is answered with a fresh non-null
    value; [data c] is what a copy from the device reads back. *)
Definition host_answering (data : HostCall → list Z)
  : list Event → list HostEvent → HostCall → HostResponse :=
  λ _ hist c, HostAnswer 0 (1000 + 8 * Z.of_nat (length hist)) (data c).

(** The same, except that the calls selected by [bad] fail (result 1). *)
Definition host_failing (bad : HostCall → bool)
  : list Event → list HostEvent → HostCall → HostResponse :=
  λ _ hist c,
    if bad c then HostAnswer 1 0 []
    else HostAnswer 0 (1000 + 8 * Z.of_nat (length hist)) [].

Definition host_ok : list Event → list HostEvent → HostCall → HostResponse :=
  host_failing (λ _, false).

(** The host whose device memory gives back what was copied to it. *)
Definition host_echo : list Event → list HostEvent → HostCall → HostResponse :=
  host_answering (λ _, h_data).

Definition is_reserve (c : HostCall) : bool :=
  match c with cuMemAddressReserve _ _ => true | _ => false end.

Definition is_copy_to_device (c : HostCall) : bool :=
  match c with hipMemcpyHostToDevice _ _ _ => true | _ => false end.

Definition is_address_free (c : HostCall) : bool :=
  match c with cuMemAddressFree _ _ => true | _ => false end.

(** A [DeviceMemory] for device 0 on which nothing has been allocated, and
    the state in which no call has been made. *)
Definition mem_init : DeviceMemory.t :=
  DeviceMemory.Make 0 0 0 0 [] [] 0 false.

Definition host_init : Host := MkHost w_init [].

(** A [DeviceMemory] of two chunks of 2 MiB that is marked allocated, in a
    state where its two slots hold handles. *)
Definition mem_mapped : DeviceMemory.t :=
  DeviceMemory.Make 0 4194304 4194304 65536 slots2 sizes2 2 true.

Definition host_mapped : Host := MkHost w_mapped [].

Definition is_granularity_query (c : HostCall) : bool :=
  match c with cuMemGetAllocationGranularity _ => true | _ => false end.

(** * Properties *)

(** ** Arithmetic *)

Lemma ceil_div_eq a b : 0 < b → ceil_div a b = (a + b - 1) / b.
Proof.
  intros Hb. unfold ceil_div.
  apply Z.div_unique with (r := b - 1 - (- a) mod b).
  - left. pose proof (Z.mod_pos_bound (- a) b Hb). lia.
  - pose proof (Z.div_mod (- a) b ltac:(lia)). lia.
Qed.

Lemma ceil_div_bounds a b :
  0 < b → (ceil_div a b - 1) * b < a ≤ ceil_div a b * b.
Proof.
  intros Hb. unfold ceil_div.
  pose proof (Z.div_mod (- a) b ltac:(lia)).
  pose proof (Z.mod_pos_bound (- a) b Hb). nia.
Qed.

Lemma ceil_div_pos a b : 0 < b → 0 < a → 0 < ceil_div a b.
Proof. intros Hb Ha. pose proof (ceil_div_bounds a b Hb). nia. Qed.

Lemma ceil_div_nonneg a b : 0 < b → 0 ≤ a → 0 ≤ ceil_div a b.
Proof. intros Hb Ha. pose proof (ceil_div_bounds a b Hb). nia. Qed.

Lemma wrap_small x : U64.in_range x → U64.wrap x = x.
Proof. intros H. apply Z.mod_small. exact H. Qed.

Lemma sum_sizes_app l1 l2 : sum_sizes (l1 ++ l2) = sum_sizes l1 + sum_sizes l2.
Proof. induction l1 as [|x l1 IH]; simpl; lia. Qed.

Lemma sum_sizes_const (f : Z → Z) c m n :
  0 ≤ n → (∀ i, m ≤ i < m + n → f i = c) →
  sum_sizes (f <$> seqZ m n) = n * c.
Proof.
  intros Hn. revert m. pattern n. apply natlike_ind; [| |exact Hn].
  - intros m _. rewrite seqZ_nil by lia. reflexivity.
  - clear n Hn. intros n Hn IH m Hf.
    rewrite seqZ_cons by lia. cbn [fmap list_fmap sum_sizes foldr].
    replace (Z.pred (Z.succ n)) with n by lia.
    fold (sum_sizes (f <$> seqZ (Z.succ m) n)).
    rewrite IH by (intros; apply Hf; lia).
    rewrite Hf by lia. lia.
Qed.

Lemma round_up_numerator x g :
  U64.sub (U64.add x g) 1 = U64.wrap (x + g - 1).
Proof. unfold U64.sub, U64.add, U64.wrap. apply Zminus_mod_idemp_l. Qed.

(** [align_up] without wrap-around is the mathematical rounding. *)
Lemma align_up_exact x g :
  0 ≤ x → 0 < g → x + g - 1 < U64.modulus →
  Layout.align_up x g = Some (ceil_div x g * g).
Proof.
  intros Hx Hg Hw. unfold Layout.align_up. rewrite round_up_numerator.
  unfold U64.div, U64.mul.
  rewrite (wrap_small (x + g - 1)) by (unfold U64.in_range; lia).
  destruct (Z.eqb_spec g 0) as [->|_]; [lia|]. cbn.
  rewrite <- ceil_div_eq by lia.
  rewrite wrap_small; [reflexivity|].
  pose proof (ceil_div_bounds x g Hg). pose proof (ceil_div_nonneg x g Hg Hx).
  unfold U64.in_range. nia.
Qed.

Lemma count_chunks_exact a c :
  0 ≤ a → 0 < c → a + c - 1 < U64.modulus →
  Layout.count_chunks a c = Some (ceil_div a c).
Proof.
  intros Ha Hc Hw. unfold Layout.count_chunks. rewrite round_up_numerator.
  unfold U64.div.
  rewrite (wrap_small (a + c - 1)) by (unfold U64.in_range; lia).
  destruct (Z.eqb_spec c 0) as [->|_]; [lia|].
  rewrite <- ceil_div_eq by lia. reflexivity.
Qed.

(** The sizes written by the initialisation loop, when the chunk count is
    the ceiling of [aligned / chunk]. *)
Lemma chunk_size_at_inner a c n i :
  U64.in_range n → 0 ≤ i < n - 1 → Layout.chunk_size_at a c n i = c.
Proof.
  intros Hn Hi. unfold Layout.chunk_size_at, U64.sub.
  rewrite (wrap_small (n - 1)) by (unfold U64.in_range in *; lia).
  destruct (Z.eqb_spec i (n - 1)); [lia|reflexivity].
Qed.

Lemma chunk_size_at_last a c n :
  U64.in_range a → 0 < c → 0 < n → n = ceil_div a c →
  Layout.chunk_size_at a c n (n - 1) = a - (n - 1) * c.
Proof.
  intros Ha Hc Hn ->. unfold Layout.chunk_size_at, U64.sub, U64.mul.
  pose proof (ceil_div_bounds a c Hc) as Hb. unfold U64.in_range in Ha.
  rewrite (wrap_small (ceil_div a c - 1)) by (unfold U64.in_range; nia).
  rewrite Z.eqb_refl.
  rewrite (wrap_small ((ceil_div a c - 1) * c)) by (unfold U64.in_range; nia).
  apply wrap_small. unfold U64.in_range. nia.
Qed.

Lemma init_chunk_sizes_sum a c n :
  U64.in_range a → 0 < c → n = ceil_div a c →
  sum_sizes (Layout.init_chunk_sizes a c n) = a.
Proof.
  intros Ha Hc Hn. unfold Layout.init_chunk_sizes.
  pose proof (ceil_div_bounds a c Hc) as Hb. unfold U64.in_range in Ha.
  destruct (Z.eq_dec a 0) as [->|Hne].
  - assert (n = 0) as -> by (subst n; nia). reflexivity.
  - assert (0 < n) by (subst n; apply ceil_div_pos; lia).
    replace n with ((n - 1) + 1) at 2 by lia.
    rewrite seqZ_app by lia. rewrite fmap_app, sum_sizes_app.
    assert (U64.in_range n) by (unfold U64.in_range; nia).
    rewrite (sum_sizes_const _ c);
      [|lia|intros; apply chunk_size_at_inner; [assumption|lia]].
    rewrite seqZ_cons, seqZ_nil by lia. cbn.
    replace (0 + (n - 1)) with (n - 1) by lia.
    rewrite chunk_size_at_last by (unfold U64.in_range; auto with lia). lia.
Qed.

(** ** Claims on the allocation arithmetic *)

(** C1, as amended: for every size > 0 and granularity > 0 for which none of
    the three 64-bit round-up additions wraps around, the allocation path
    computes alignedSize = ceil(size/granularity) * granularity (so
    alignedSize >= size and alignedSize is a multiple of the granularity),
    rounds the 128 MiB chunk size up to the granularity, takes
    numChunks = ceil(alignedSize/chunkSize) chunks, and the chunk sizes sum
    to alignedSize. *)
Theorem chunk_plan_partitions size granularity :
  0 < size → 0 < granularity → rounding_fits size granularity →
  ∃ p, Layout.chunk_plan size granularity = Some p
     ∧ Layout.alignedSize p = ceil_div size granularity * granularity
     ∧ size ≤ Layout.alignedSize p
     ∧ Layout.alignedSize p mod granularity = 0
     ∧ Layout.aligned_chunk_size p = ceil_div CHUNK_BYTES granularity * granularity
     ∧ Layout.num_chunks p
       = ceil_div (Layout.alignedSize p) (Layout.aligned_chunk_size p)
     ∧ Z.of_nat (length (Layout.chunk_sizes p)) = Layout.num_chunks p
     ∧ sum_sizes (Layout.chunk_sizes p) = Layout.alignedSize p.
Proof.
  intros Hs Hg (Hw1 & Hw2 & Hw3).
  set (a := ceil_div size granularity * granularity).
  set (c := ceil_div CHUNK_BYTES granularity * granularity).
  pose proof (ceil_div_bounds size granularity Hg) as Hba.
  pose proof (ceil_div_bounds CHUNK_BYTES granularity Hg) as Hbc.
  pose proof (ceil_div_pos size granularity Hg Hs) as Hqa.
  assert (0 < CHUNK_BYTES) as Hcb by reflexivity.
  pose proof (ceil_div_pos CHUNK_BYTES granularity Hg Hcb) as Hqc.
  assert (0 < c) as Hc by (subst c; nia).
  assert (size ≤ a) as Hsa by (subst a; lia).
  assert (U64.in_range a) as Ha by (unfold U64.in_range; subst a c; nia).
  pose proof (ceil_div_bounds a c Hc) as Hbn.
  pose proof (ceil_div_pos a c Hc ltac:(lia)) as Hn.
  exists (Layout.Plan a c (ceil_div a c)
            (Layout.init_chunk_sizes a c (ceil_div a c))).
  cbn [Layout.alignedSize Layout.aligned_chunk_size Layout.num_chunks
       Layout.chunk_sizes].
  repeat split; try reflexivity; try assumption.
  - unfold Layout.chunk_plan.
    rewrite (align_up_exact size granularity) by lia. cbn.
    change (U64.mul (U64.mul Layout.CHUNK_SIZE_MB 1024) 1024) with CHUNK_BYTES.
    rewrite (align_up_exact CHUNK_BYTES granularity) by lia. cbn.
    fold a c. rewrite (count_chunks_exact a c) by (unfold U64.in_range in Ha; lia).
    reflexivity.
  - subst a. apply Z_mod_mult.
  - unfold Layout.init_chunk_sizes. rewrite length_fmap, length_seqZ. lia.
  - apply init_chunk_sizes_sum; auto.
Qed.

Lemma chunk_plan_partitions_witness :
  ∃ p, Layout.chunk_plan 314572800 2097152 = Some p
     ∧ Layout.alignedSize p = ceil_div 314572800 2097152 * 2097152
     ∧ 314572800 ≤ Layout.alignedSize p
     ∧ Layout.alignedSize p mod 2097152 = 0
     ∧ Layout.aligned_chunk_size p = ceil_div CHUNK_BYTES 2097152 * 2097152
     ∧ Layout.num_chunks p
       = ceil_div (Layout.alignedSize p) (Layout.aligned_chunk_size p)
     ∧ Z.of_nat (length (Layout.chunk_sizes p)) = Layout.num_chunks p
     ∧ sum_sizes (Layout.chunk_sizes p) = Layout.alignedSize p.
Proof.
  apply (chunk_plan_partitions 314572800 2097152); [lia | lia |].
  unfold rounding_fits. vm_compute. repeat split; reflexivity.
Defined.

(** C1 as stated fails: a size of 2^64 - 1 bytes with a granularity of 2 MiB
    is rounded "up" to 0, which is below the size and is not
    ceil(size/granularity) * granularity. *)
Lemma chunk_plan_wraps_around :
  0 < 18446744073709551615 ∧ 0 < 2097152 ∧
  ∃ p, Layout.chunk_plan 18446744073709551615 2097152 = Some p
     ∧ Layout.alignedSize p = 0
     ∧ ¬ (18446744073709551615 ≤ Layout.alignedSize p)
     ∧ Layout.alignedSize p ≠ ceil_div 18446744073709551615 2097152 * 2097152.
Proof.
  split; [lia|]. split; [lia|].
  exists (Layout.Plan 0 134217728 0 []).
  split; [vm_compute; reflexivity|]. cbn [Layout.alignedSize].
  split; [reflexivity|]. split; [lia|]. vm_compute. discriminate.
Qed.

(** C7: for every alignedSize and chunk size with numChunks =
    ceil(alignedSize/chunkSize), every chunk but the last has exactly the
    chunk size, and the last chunk has alignedSize - (numChunks-1)*chunkSize
    bytes, which is > 0 and <= the chunk size.  (That the chunk size is a
    multiple of the granularity plays no role.) *)
Theorem init_chunk_sizes_shape a c n :
  U64.in_range a → 0 < c → n = ceil_div a c →
  Z.of_nat (length (Layout.init_chunk_sizes a c n)) = n
  ∧ (∀ i, 0 ≤ i < n - 1 →
          Layout.init_chunk_sizes a c n !! Z.to_nat i = Some c)
  ∧ (0 < n →
       Layout.init_chunk_sizes a c n !! Z.to_nat (n - 1)
       = Some (a - (n - 1) * c)
       ∧ 0 < a - (n - 1) * c ≤ c).
Proof.
  intros Ha Hc Hn.
  pose proof (ceil_div_bounds a c Hc) as Hb.
  assert (0 ≤ n) as Hn0 by (subst n; apply ceil_div_nonneg; [lia|apply Ha]).
  assert (U64.in_range n) as Hnr by (unfold U64.in_range in *; nia).
  unfold Layout.init_chunk_sizes. split; [|split].
  - rewrite length_fmap, length_seqZ. lia.
  - intros i Hi. rewrite list_lookup_fmap, lookup_seqZ_lt by lia. cbn.
    rewrite Z2Nat.id by lia. rewrite chunk_size_at_inner by (auto; lia).
    reflexivity.
  - intros Hpos. split; [|subst n; nia].
    rewrite list_lookup_fmap, lookup_seqZ_lt by lia. cbn.
    rewrite Z2Nat.id by lia. rewrite chunk_size_at_last by auto.
    reflexivity.
Qed.

Lemma init_chunk_sizes_shape_witness :
  Z.of_nat (length (Layout.init_chunk_sizes 314572800 134217728 3)) = 3
  ∧ (∀ i, 0 ≤ i < 3 - 1 →
          Layout.init_chunk_sizes 314572800 134217728 3 !! Z.to_nat i
          = Some 134217728)
  ∧ (0 < 3 →
       Layout.init_chunk_sizes 314572800 134217728 3 !! Z.to_nat (3 - 1)
       = Some (314572800 - (3 - 1) * 134217728)
       ∧ 0 < 314572800 - (3 - 1) * 134217728 ≤ 134217728).
Proof.
  apply (init_chunk_sizes_shape 314572800 134217728 3).
  - vm_compute. split; [discriminate | reflexivity].
  - lia.
  - vm_compute. reflexivity.
Defined.

(** The two scenarios of the specification: 1 byte at a granularity of
    2 MiB is one chunk of 2 MiB; 300 MiB is two chunks of 128 MiB and one of
    44 MiB. *)
Example plan_of_one_byte :
  Layout.chunk_plan 1 (2 * 1024 * 1024)
  = Some (Layout.Plan 2097152 134217728 1 [2097152]).
Proof. vm_compute. reflexivity. Qed.

Example plan_of_300_MiB :
  Layout.chunk_plan (300 * 1024 * 1024) (2 * 1024 * 1024)
  = Some (Layout.Plan 314572800 134217728 3
            [134217728; 134217728; 44 * 1024 * 1024]).
Proof. vm_compute. reflexivity. Qed.

(** ** Loops, slots and phases *)

Lemma for_int_rule {A} (Inv : Z → A → World → Prop) (Halt : World → Prop)
    (body : Z → A → M (Flow A)) (n : nat) :
  ∀ i acc w,
    0 ≤ i → i + Z.of_nat n ≤ INT_MAX →
    (∀ j a v, i ≤ j < i + Z.of_nat n → Inv j a v →
       match body j a v with
       | Some (Next a', v') => Inv (j + 1) a' v'
       | Some (Returned, v') => Halt v'
       | None => False
       end) →
    Inv i acc w →
    match for_int n i body acc w with
    | Some (Next acc', w') => Inv (i + Z.of_nat n) acc' w'
    | Some (Returned, w') => Halt w'
    | None => False
    end.
Proof.
  induction n as [|n IH]; intros i acc w Hi Hmax Hbody Hinv.
  - cbn. replace (i + Z.of_nat 0) with i by lia. exact Hinv.
  - cbn [for_int]. unfold bind at 1.
    pose proof (Hbody i acc w ltac:(lia) Hinv) as Hstep.
    destruct (body i acc w) as [[[acc'|] w']|]; [|exact Hstep|exact Hstep].
    unfold bind, int_incr.
    destruct (Z.ltb_spec i INT_MAX) as [_|?]; [|lia]. cbn.
    replace (i + Z.of_nat (S n)) with ((i + 1) + Z.of_nat n) by lia.
    apply IH; [lia|lia| |exact Hstep].
    intros j a v Hj. apply Hbody. lia.
Qed.

Lemma index_lookup (a : list Z) (i : Z) (x : Z) w :
  0 ≤ i → a !! Z.to_nat i = Some x → index a i w = Some (x, w).
Proof.
  intros Hi Hx. unfold index.
  destruct (Z.ltb_spec i 0); [lia|]. rewrite Hx. reflexivity.
Qed.

Lemma lookup_total_of_lt (a : list Z) (i : nat) :
  (i < length a)%nat → a !! i = Some (a !!! i).
Proof.
  intros Hi. destruct (lookup_lt_is_Some_2 a i Hi) as [x Hx].
  rewrite Hx. f_equal. symmetry. by apply list_lookup_total_correct.
Qed.

Lemma stored_snoc h slots evs e s :
  slots !! length evs = Some s →
  stored h slots (evs ++ [e]) = <[s := out e.2]> (stored h slots evs).
Proof.
  revert h evs. induction slots as [|s0 slots IH]; intros h evs Hs.
  - by rewrite lookup_nil in Hs.
  - destruct evs as [|e0 evs]; cbn in *.
    + injection Hs as ->. by destruct slots.
    + by apply IH.
Qed.

Lemma stored_is_Some_mono h slots evs s :
  is_Some (h !! s) → is_Some (stored h slots evs !! s).
Proof.
  revert h evs. induction slots as [|s0 slots IH]; intros h evs Hs; [done|].
  destruct evs as [|e0 evs]; [done|]. cbn. apply IH.
  destruct (decide (s0 = s)) as [->|Hne].
  - rewrite lookup_insert_eq. eauto.
  - by rewrite lookup_insert_ne.
Qed.

Lemma stored_is_Some h slots evs i s :
  slots !! i = Some s → (i < length evs)%nat →
  is_Some (stored h slots evs !! s).
Proof.
  revert h evs i. induction slots as [|s0 slots IH]; intros h evs i Hs Hi.
  - by rewrite lookup_nil in Hs.
  - destruct evs as [|e0 evs]; [cbn in Hi; lia|].
    destruct i as [|i]; cbn in *.
    + injection Hs as ->. apply stored_is_Some_mono.
      rewrite lookup_insert_eq. eauto.
    + eapply IH; [exact Hs|lia].
Qed.

Lemma stored_untouched h slots evs s :
  s ∉ take (length evs) slots → stored h slots evs !! s = h !! s.
Proof.
  revert h evs. induction slots as [|s0 slots IH]; intros h evs Hs; [done|].
  destruct evs as [|e0 evs]; [done|]. cbn in *.
  rewrite not_elem_of_cons in Hs. destruct Hs as [Hne Hs].
  rewrite IH by exact Hs. by rewrite lookup_insert_ne.
Qed.

Lemma stored_lookup h slots evs i s e :
  NoDup slots → slots !! i = Some s → evs !! i = Some e →
  stored h slots evs !! s = Some (out e.2).
Proof.
  revert h evs i. induction slots as [|s0 slots IH]; intros h evs i Hnd Hs He.
  - by rewrite lookup_nil in Hs.
  - destruct evs as [|e0 evs]; [by rewrite lookup_nil in He|].
    pose proof (NoDup_cons_1_1 _ _ Hnd) as Hnotin.
    apply NoDup_cons_1_2 in Hnd.
    destruct i as [|i]; cbn in *.
    + injection Hs as ->. injection He as ->.
      rewrite stored_untouched; [apply lookup_insert_eq|].
      intros Hin. apply Hnotin. eapply subseteq_take, Hin.
    + eapply IH; eauto.
Qed.

Section Protocol.

Variable CUDA_SUCCESS : CUresult.
Variable driver : list Event → Call → Response.

Abbreviation succeeded := (succeeded CUDA_SUCCESS).
Abbreviation ran := (ran CUDA_SUCCESS).
Abbreviation phase := (phase CUDA_SUCCESS).
Abbreviation failed := (failed CUDA_SUCCESS).

Lemma failed_true r : failed r = true → status r ≠ CUDA_SUCCESS.
Proof.
  unfold failed. destruct (Z.eqb_spec (status r) CUDA_SUCCESS); [done|auto].
Qed.

Lemma failed_false r : failed r = false → status r = CUDA_SUCCESS.
Proof.
  unfold failed. destruct (Z.eqb_spec (status r) CUDA_SUCCESS); [auto|done].
Qed.

Lemma ran_nil f : ran f 0 [].
Proof. split; [done|]. intros i e H. by rewrite lookup_nil in H. Qed.

Lemma ran_snoc f k evs r :
  ran f k evs → status r = CUDA_SUCCESS → ran f (S k) (evs ++ [(f k, r)]).
Proof.
  intros [Hlen Hev] Hr. split.
  - rewrite length_app. cbn. lia.
  - intros i e Hi. apply lookup_snoc_Some in Hi as [[_ Hi]|[Hi <-]].
    + by apply Hev.
    + subst i k. by split.
Qed.

Lemma ran_length f k evs : ran f k evs → length evs = k.
Proof. by intros [? _]. Qed.

Lemma create_loop_run device P C (n : nat) w0 :
  length P = n → length C = n → Z.of_nat n ≤ INT_MAX →
  match for_int n 0 (create_body CUDA_SUCCESS driver device P C) tt w0 with
  | Some (Next _, w') =>
      tid w' = tid w0
      ∧ ∃ cs, trace w' = trace w0 ++ cs
            ∧ ran (create_call device P C) n cs
            ∧ heap w' = stored (heap w0) P cs
  | Some (Returned, w') =>
      tid w' = tid w0
      ∧ ∃ oks cs, trace w' = trace w0 ++ cs
                ∧ phase (create_call device P C) n oks cs false
                ∧ heap w' = stored (heap w0) P oks
  | None => False
  end.
Proof.
  intros HP HC Hmax.
  pose proof (for_int_rule
    (λ j (_ : unit) w,
       tid w = tid w0
       ∧ ∃ cs, trace w = trace w0 ++ cs
             ∧ ran (create_call device P C) (Z.to_nat j) cs
             ∧ heap w = stored (heap w0) P cs)
    (λ w,
       tid w = tid w0
       ∧ ∃ oks cs, trace w = trace w0 ++ cs
                 ∧ phase (create_call device P C) n oks cs false
                 ∧ heap w = stored (heap w0) P oks)
    (create_body CUDA_SUCCESS driver device P C) n 0 tt w0) as Hloop.
  cbv beta in Hloop. rewrite Z.add_0_l, Nat2Z.id in Hloop.
  apply Hloop; clear Hloop; [lia|lia| |].
  - intros j [] v Hj (Htid & cs & Htr & Hran & Hheap).
    unfold create_body, bind.
    rewrite (index_lookup P j (P !!! Z.to_nat j))
      by (try lia; apply lookup_total_of_lt; lia).
    rewrite (index_lookup C j (C !!! Z.to_nat j))
      by (try lia; apply lookup_total_of_lt; lia).
    unfold mem_create, bind, call.
    set (c := cuMemCreate (P !!! Z.to_nat j) (C !!! Z.to_nat j) device).
    set (r := driver (trace v) c).
    destruct (failed r) eqn:Hf; cbn; rewrite Hf.
    + split; [exact Htid|]. exists cs, (cs ++ [(c, r)]).
      split; [cbn; rewrite Htr; by rewrite <- app_assoc|].
      split; [|exact Hheap].
      apply (phase_stop CUDA_SUCCESS (create_call device P C) n
               (Z.to_nat j) cs r); [lia|exact Hran|by apply failed_true].
    + unfold load. cbn. rewrite lookup_insert_eq.
      split; [exact Htid|]. exists (cs ++ [(c, r)]).
      split; [cbn; rewrite Htr; by rewrite <- app_assoc|].
      replace (Z.to_nat (j + 1)) with (S (Z.to_nat j)) by lia.
      split.
      * apply (ran_snoc (create_call device P C)); [exact Hran|].
        by apply failed_false.
      * cbn. rewrite Hheap. symmetry.
        apply (stored_snoc _ P cs (c, r)).
        rewrite (ran_length _ _ _ Hran). apply lookup_total_of_lt. lia.
  - split; [done|]. exists []. rewrite app_nil_r.
    split; [done|]. split; [apply ran_nil|by destruct P].
Qed.

Lemma add_wrap_r a b : U64.add a (U64.wrap b) = U64.wrap (a + b).
Proof. unfold U64.add, U64.wrap. apply Zplus_mod_idemp_r. Qed.

Lemma add_wrap_l a b : U64.add (U64.wrap a) b = U64.wrap (a + b).
Proof. unfold U64.add, U64.wrap. apply Zplus_mod_idemp_l. Qed.

Lemma sum_sizes_take_S (C : list Z) k :
  (k < length C)%nat →
  sum_sizes (take (S k) C) = sum_sizes (take k C) + C !!! k.
Proof.
  intros Hk. rewrite (take_S_r C k (C !!! k)) by by apply lookup_total_of_lt.
  rewrite sum_sizes_app. cbn. lia.
Qed.

Lemma map_loop_run d_mem P C (n : nat) w1 :
  length P = n → length C = n → Z.of_nat n ≤ INT_MAX →
  (∀ i, (i < n)%nat → is_Some (heap w1 !! (P !!! i))) →
  match for_int n 0 (map_body CUDA_SUCCESS driver d_mem P C) 0 w1 with
  | Some (Next allocated_size, w') =>
      allocated_size = U64.wrap (sum_sizes (take n C))
      ∧ tid w' = tid w1 ∧ heap w' = heap w1
      ∧ ∃ ms, trace w' = trace w1 ++ ms
            ∧ ran (map_call d_mem (heap w1) P C) n ms
  | Some (Returned, w') =>
      tid w' = tid w1 ∧ heap w' = heap w1
      ∧ ∃ oks ms, trace w' = trace w1 ++ ms
                ∧ phase (map_call d_mem (heap w1) P C) n oks ms false
  | None => False
  end.
Proof.
  intros HP HC Hmax Hslots.
  pose proof (for_int_rule
    (λ j allocated_size w,
       allocated_size = U64.wrap (sum_sizes (take (Z.to_nat j) C))
       ∧ tid w = tid w1 ∧ heap w = heap w1
       ∧ ∃ ms, trace w = trace w1 ++ ms
             ∧ ran (map_call d_mem (heap w1) P C) (Z.to_nat j) ms)
    (λ w,
       tid w = tid w1 ∧ heap w = heap w1
       ∧ ∃ oks ms, trace w = trace w1 ++ ms
                 ∧ phase (map_call d_mem (heap w1) P C) n oks ms false)
    (map_body CUDA_SUCCESS driver d_mem P C) n 0 0 w1) as Hloop.
  cbv beta in Hloop. rewrite Z.add_0_l, Nat2Z.id in Hloop.
  apply Hloop; clear Hloop; [lia|lia| |].
  - intros j acc v Hj (Hacc & Htid & Hheap & ms & Htr & Hran).
    unfold map_body, bind.
    rewrite (index_lookup C j (C !!! Z.to_nat j))
      by (try lia; apply lookup_total_of_lt; lia).
    rewrite (index_lookup P j (P !!! Z.to_nat j))
      by (try lia; apply lookup_total_of_lt; lia).
    destruct (Hslots (Z.to_nat j) ltac:(lia)) as [h Hh].
    unfold load. rewrite Hheap, Hh.
    assert (h = heap w1 !!! (P !!! Z.to_nat j)) as Hhandle
      by (symmetry; by apply lookup_total_correct).
    unfold call.
    assert (cuMemMap (U64.add d_mem acc) (C !!! Z.to_nat j) h
            = map_call d_mem (heap w1) P C (Z.to_nat j)) as ->.
    { unfold map_call, chunk_addr. rewrite Hacc, add_wrap_r, Hhandle.
      reflexivity. }
    set (c := map_call d_mem (heap w1) P C (Z.to_nat j)).
    set (r := driver (trace v) c).
    destruct (failed r) eqn:Hf; cbn.
    + split; [exact Htid|]. split; [exact Hheap|].
      exists ms, (ms ++ [(c, r)]).
      split; [rewrite Htr; by rewrite <- app_assoc|].
      apply (phase_stop CUDA_SUCCESS (map_call d_mem (heap w1) P C) n
               (Z.to_nat j) ms r); [lia|exact Hran|by apply failed_true].
    + replace (Z.to_nat (j + 1)) with (S (Z.to_nat j)) by lia.
      split.
      { rewrite Hacc, add_wrap_l, sum_sizes_take_S by lia. reflexivity. }
      split; [exact Htid|]. split; [exact Hheap|].
      exists (ms ++ [(c, r)]).
      split; [rewrite Htr; by rewrite <- app_assoc|].
      apply (ran_snoc (map_call d_mem (heap w1) P C)); [exact Hran|].
      by apply failed_false.
  - split; [reflexivity|]. split; [done|]. split; [done|].
    exists []. rewrite app_nil_r. split; [done|apply ran_nil].
Qed.

Lemma unmap_loop_run d_mem C (n : nat) w1 :
  length C = n → Z.of_nat n ≤ INT_MAX →
  match for_int n 0 (unmap_body CUDA_SUCCESS driver d_mem C) 0 w1 with
  | Some (Next allocated_size, w') =>
      allocated_size = U64.wrap (sum_sizes (take n C))
      ∧ tid w' = tid w1 ∧ heap w' = heap w1
      ∧ ∃ us, trace w' = trace w1 ++ us ∧ ran (unmap_call d_mem C) n us
  | Some (Returned, w') =>
      tid w' = tid w1 ∧ heap w' = heap w1
      ∧ ∃ oks us, trace w' = trace w1 ++ us
                ∧ phase (unmap_call d_mem C) n oks us false
  | None => False
  end.
Proof.
  intros HC Hmax.
  pose proof (for_int_rule
    (λ j allocated_size w,
       allocated_size = U64.wrap (sum_sizes (take (Z.to_nat j) C))
       ∧ tid w = tid w1 ∧ heap w = heap w1
       ∧ ∃ us, trace w = trace w1 ++ us
             ∧ ran (unmap_call d_mem C) (Z.to_nat j) us)
    (λ w,
       tid w = tid w1 ∧ heap w = heap w1
       ∧ ∃ oks us, trace w = trace w1 ++ us
                 ∧ phase (unmap_call d_mem C) n oks us false)
    (unmap_body CUDA_SUCCESS driver d_mem C) n 0 0 w1) as Hloop.
  cbv beta in Hloop. rewrite Z.add_0_l, Nat2Z.id in Hloop.
  apply Hloop; clear Hloop; [lia|lia| |].
  - intros j acc v Hj (Hacc & Htid & Hheap & us & Htr & Hran).
    unfold unmap_body, bind.
    rewrite (index_lookup C j (C !!! Z.to_nat j))
      by (try lia; apply lookup_total_of_lt; lia).
    unfold call.
    assert (cuMemUnmap (U64.add d_mem acc) (C !!! Z.to_nat j)
            = unmap_call d_mem C (Z.to_nat j)) as ->.
    { unfold unmap_call, chunk_addr. by rewrite Hacc, add_wrap_r. }
    set (c := unmap_call d_mem C (Z.to_nat j)).
    set (r := driver (trace v) c).
    destruct (failed r) eqn:Hf; cbn.
    + split; [exact Htid|]. split; [exact Hheap|].
      exists us, (us ++ [(c, r)]).
      split; [rewrite Htr; by rewrite <- app_assoc|].
      apply (phase_stop CUDA_SUCCESS (unmap_call d_mem C) n
               (Z.to_nat j) us r); [lia|exact Hran|by apply failed_true].
    + replace (Z.to_nat (j + 1)) with (S (Z.to_nat j)) by lia.
      split.
      { rewrite Hacc, add_wrap_l, sum_sizes_take_S by lia. reflexivity. }
      split; [exact Htid|]. split; [exact Hheap|].
      exists (us ++ [(c, r)]).
      split; [rewrite Htr; by rewrite <- app_assoc|].
      apply (ran_snoc (unmap_call d_mem C)); [exact Hran|].
      by apply failed_false.
  - split; [reflexivity|]. split; [done|]. split; [done|].
    exists []. rewrite app_nil_r. split; [done|apply ran_nil].
Qed.

Lemma release_loop_run P (n : nat) w1 :
  length P = n → Z.of_nat n ≤ INT_MAX →
  (∀ i, (i < n)%nat → is_Some (heap w1 !! (P !!! i))) →
  match for_int n 0 (release_body CUDA_SUCCESS driver P) tt w1 with
  | Some (f, w') =>
      tid w' = tid w1 ∧ heap w' = heap w1
      ∧ ∃ oks rs done, trace w' = trace w1 ++ rs
                     ∧ phase (release_call (heap w1) P) n oks rs done
  | None => False
  end.
Proof.
  intros HP Hmax Hslots.
  pose proof (for_int_rule
    (λ j (_ : unit) w,
       tid w = tid w1 ∧ heap w = heap w1
       ∧ ∃ rs, trace w = trace w1 ++ rs
             ∧ ran (release_call (heap w1) P) (Z.to_nat j) rs)
    (λ w,
       tid w = tid w1 ∧ heap w = heap w1
       ∧ ∃ oks rs, trace w = trace w1 ++ rs
                 ∧ phase (release_call (heap w1) P) n oks rs false)
    (release_body CUDA_SUCCESS driver P) n 0 tt w1) as Hloop.
  cbv beta in Hloop. rewrite Z.add_0_l, Nat2Z.id in Hloop.
  assert (∀ x : option (Flow unit * World),
    match x with
    | Some (Next _, w') =>
        tid w' = tid w1 ∧ heap w' = heap w1
        ∧ ∃ rs, trace w' = trace w1 ++ rs
              ∧ ran (release_call (heap w1) P) n rs
    | Some (Returned, w') =>
        tid w' = tid w1 ∧ heap w' = heap w1
        ∧ ∃ oks rs, trace w' = trace w1 ++ rs
                  ∧ phase (release_call (heap w1) P) n oks rs false
    | None => False
    end →
    match x with
    | Some (f, w') =>
        tid w' = tid w1 ∧ heap w' = heap w1
        ∧ ∃ oks rs done, trace w' = trace w1 ++ rs
                       ∧ phase (release_call (heap w1) P) n oks rs done
    | None => False
    end) as Hjoin.
  { intros [[[[]|] w']|]; [| |done].
    - intros (? & ? & rs & ? & ?). split; [done|]. split; [done|].
      exists rs, rs, true. split; [done|]. by constructor.
    - intros (? & ? & oks & rs & ? & ?). split; [done|]. split; [done|].
      by exists oks, rs, false. }
  apply Hjoin, Hloop; clear Hjoin Hloop; [lia|lia| |].
  - intros j [] v Hj (Htid & Hheap & rs & Htr & Hran).
    unfold release_body, bind.
    rewrite (index_lookup P j (P !!! Z.to_nat j))
      by (try lia; apply lookup_total_of_lt; lia).
    destruct (Hslots (Z.to_nat j) ltac:(lia)) as [h Hh].
    unfold load. rewrite Hheap, Hh.
    assert (cuMemRelease h = release_call (heap w1) P (Z.to_nat j)) as Hc.
    { unfold release_call. f_equal. symmetry. by apply lookup_total_correct. }
    unfold call. rewrite Hc.
    set (c := release_call (heap w1) P (Z.to_nat j)).
    set (r := driver (trace v) c).
    destruct (failed r) eqn:Hf; cbn.
    + split; [exact Htid|]. split; [exact Hheap|].
      exists rs, (rs ++ [(c, r)]).
      split; [rewrite Htr; by rewrite <- app_assoc|].
      apply (phase_stop CUDA_SUCCESS (release_call (heap w1) P) n
               (Z.to_nat j) rs r); [lia|exact Hran|by apply failed_true].
    + replace (Z.to_nat (j + 1)) with (S (Z.to_nat j)) by lia.
      split; [exact Htid|]. split; [exact Hheap|].
      exists (rs ++ [(c, r)]).
      split; [rewrite Htr; by rewrite <- app_assoc|].
      apply (ran_snoc (release_call (heap w1) P)); [exact Hran|].
      by apply failed_false.
  - split; [done|]. split; [done|].
    exists []. rewrite app_nil_r. split; [done|apply ran_nil].
Qed.

(** *** The two entry points as a whole *)

Lemma ensure_context_run device w :
  ∃ ctx, ensure_context CUDA_SUCCESS driver device w
         = Some (tt, MkWorld (tid w) (heap w) (trace w ++ ctx))
       ∧ Forall (λ e, kind e.1 = KContext) ctx.
Proof.
  unfold ensure_context, bind, call. cbn.
  set (r1 := driver (trace w) cuCtxGetCurrent).
  destruct (failed r1); [|destruct (out r1 =? 0)]; cbn.
  1, 3: exists [(cuCtxGetCurrent, r1)]; split; [done|by repeat constructor].
  set (r2 := driver _ (cuDevicePrimaryCtxRetain device)).
  destruct (failed r2); cbn.
  - eexists [_; _]. rewrite <- app_assoc. split; [done|by repeat constructor].
  - set (r3 := driver _ (cuCtxSetCurrent (out r2))).
    exists [(cuCtxGetCurrent, r1); (cuDevicePrimaryCtxRetain device, r2);
            (cuCtxSetCurrent (out r2), r3)].
    split; [|by repeat constructor].
    destruct (failed r3); cbn; by rewrite <- !app_assoc.
Qed.

Lemma set_cpu_affinity_for_gpu_run device w :
  ∃ r, set_cpu_affinity_for_gpu driver device w
       = Some (tt, MkWorld (tid w) (heap w)
                     (trace w ++ [(sched_setaffinity (tid w)
                         (if device <=? 3 then cpu_set_range 48 0 0
                          else cpu_set_range 48 48 0), r)])).
Proof.
  unfold set_cpu_affinity_for_gpu, bind, gettid, call.
  eexists. by destruct (status _ =? 0).
Qed.

Lemma create_and_map_run device size d_mem P C num_chunks w :
  well_formed P C num_chunks →
  ∃ w' pre evs,
    create_and_map CUDA_SUCCESS driver device size d_mem P C num_chunks w
    = Some (tt, w')
    ∧ tid w' = tid w
    ∧ trace w' = trace w ++ pre ++ evs
    ∧ Forall is_prelude pre
    ∧ create_and_map_events CUDA_SUCCESS device size d_mem P C (length P)
        (heap w) (heap w') evs.
Proof.
  intros (HP & HC & Hmax).
  assert (Z.to_nat num_chunks = length P) as Hn by lia.
  assert (length C = length P) as HCP by lia.
  unfold create_and_map. unfold bind at 1.
  destruct (ensure_context_run device w) as (ctx & -> & Hctx).
  unfold bind at 1.
  destruct (set_cpu_affinity_for_gpu_run device
              (MkWorld (tid w) (heap w) (trace w ++ ctx))) as (ra & ->).
  cbn [tid heap trace].
  set (aff := (sched_setaffinity _ _, ra)).
  set (w2 := MkWorld (tid w) (heap w) ((trace w ++ ctx) ++ [aff])).
  assert (Forall is_prelude (ctx ++ [aff])) as Hpre.
  { apply Forall_app. split.
    - eapply Forall_impl; [exact Hctx|]. intros e He. by left.
    - apply Forall_singleton. by right. }
  assert (trace w2 = trace w ++ ctx ++ [aff]) as Htr2
    by (cbn; by rewrite <- app_assoc).
  rewrite Hn. unfold bind at 1.
  pose proof (create_loop_run device P C (length P) w2
                eq_refl HCP ltac:(lia)) as Hcreate.
  destruct (for_int (length P) 0 _ tt w2) as [[[[]|] w3]|];
    [| |done].
  2: { destruct Hcreate as (Htid & oks & cs & Htr & Hph & Hheap).
       exists w3, (ctx ++ [aff]), cs. split; [done|]. split; [done|].
       split; [rewrite Htr, Htr2; by rewrite <- !app_assoc|].
       split; [done|]. rewrite Hheap. by constructor. }
  destruct Hcreate as (Htid & cs & Htr & Hran & Hheap).
  change (tid w2) with (tid w) in Htid.
  change (heap w2) with (heap w) in Hheap.
  unfold bind at 1.
  pose proof (map_loop_run d_mem P C (length P) w3
                eq_refl HCP ltac:(lia)) as Hmap.
  destruct (for_int (length P) 0 _ 0 w3) as [[[acc|] w4]|].
  - destruct Hmap as (_ & Htid4 & Hheap4 & ms & Htr4 & Hran4).
    { intros i Hi. rewrite Hheap. eapply stored_is_Some.
      - by apply lookup_total_of_lt.
      - by rewrite (ran_length _ _ _ Hran). }
    unfold bind, call.
    set (r := driver (trace w4) _).
    exists (MkWorld (tid w4) (heap w4)
              (trace w4 ++ [(cuMemSetAccess d_mem (U64.wrap size) device, r)])),
      (ctx ++ [aff]),
      (cs ++ ms ++ [(cuMemSetAccess d_mem (U64.wrap size) device, r)]).
    split; [by destruct (failed r)|]. cbn.
    split; [congruence|].
    split; [rewrite Htr4, Htr, Htr2; by rewrite <- !app_assoc|].
    split; [done|]. rewrite Hheap4, Hheap. cbn.
    rewrite Hheap in Hran4. by constructor.
  - destruct Hmap as (Htid4 & Hheap4 & oks & ms & Htr4 & Hph).
    { intros i Hi. rewrite Hheap. eapply stored_is_Some.
      - by apply lookup_total_of_lt.
      - by rewrite (ran_length _ _ _ Hran). }
    exists w4, (ctx ++ [aff]), (cs ++ ms).
    split; [done|]. split; [congruence|].
    split; [rewrite Htr4, Htr, Htr2; by rewrite <- !app_assoc|].
    split; [done|]. rewrite Hheap4, Hheap. cbn.
    rewrite Hheap in Hph. by econstructor.
  - exfalso. apply Hmap. intros i Hi. rewrite Hheap. eapply stored_is_Some.
    + by apply lookup_total_of_lt.
    + by rewrite (ran_length _ _ _ Hran).
Qed.

Lemma unmap_and_release_run device size d_mem P C num_chunks w :
  well_formed P C num_chunks →
  (∀ i, (i < length P)%nat → is_Some (heap w !! (P !!! i))) →
  ∃ w' ctx us rs,
    unmap_and_release CUDA_SUCCESS driver device size d_mem P C num_chunks w
    = Some (tt, w')
    ∧ tid w' = tid w ∧ heap w' = heap w
    ∧ trace w' = trace w ++ ctx ++ us ++ rs
    ∧ Forall (λ e, kind e.1 = KContext) ctx
    ∧ unmap_and_release_events CUDA_SUCCESS d_mem P C (length P) (heap w)
        us rs.
Proof.
  intros (HP & HC & Hmax) Hslots.
  assert (Z.to_nat num_chunks = length P) as Hn by lia.
  assert (length C = length P) as HCP by lia.
  unfold unmap_and_release. unfold bind at 1.
  destruct (ensure_context_run device w) as (ctx & -> & Hctx).
  set (w1 := MkWorld (tid w) (heap w) (trace w ++ ctx)).
  rewrite Hn. unfold bind at 1.
  pose proof (unmap_loop_run d_mem C (length P) w1 HCP ltac:(lia)) as Hunmap.
  destruct (for_int (length P) 0 _ 0 w1) as [[[acc|] w2]|]; [| |done].
  2: { destruct Hunmap as (Htid & Hheap & oks & us & Htr & Hph).
       exists w2, ctx, us, []. split; [done|]. split; [done|]. split; [done|].
       split; [rewrite Htr; cbn; by rewrite app_nil_r, <- app_assoc|].
       split; [done|]. by econstructor. }
  destruct Hunmap as (_ & Htid & Hheap & us & Htr & Hran).
  change (tid w1) with (tid w) in Htid.
  change (heap w1) with (heap w) in Hheap.
  unfold bind at 1.
  pose proof (release_loop_run P (length P) w2 eq_refl ltac:(lia)) as Hrel.
  destruct (for_int (length P) 0 _ tt w2) as [[f w3]|].
  - destruct Hrel as (Htid3 & Hheap3 & oks & rs & done & Htr3 & Hph).
    { intros i Hi. rewrite Hheap. by apply Hslots. }
    exists w3, ctx, us, rs. split; [by destruct f|].
    split; [congruence|]. split; [congruence|].
    split; [rewrite Htr3, Htr; cbn; by rewrite <- !app_assoc|].
    split; [done|]. rewrite Hheap in Hph. by econstructor.
  - exfalso. apply Hrel. intros i Hi. rewrite Hheap. by apply Hslots.
Qed.

End Protocol.

(** ** Events by kind *)

Lemma of_kind_app K l1 l2 : of_kind K (l1 ++ l2) = of_kind K l1 ++ of_kind K l2.
Proof. apply filter_app. Qed.

Lemma of_kind_same K evs :
  Forall (λ e, kind e.1 = K) evs → of_kind K evs = evs.
Proof.
  induction 1 as [|e evs He _ IH]; [done|].
  unfold of_kind in *. rewrite filter_cons_True by done. by f_equal.
Qed.

Lemma of_kind_other K K' evs :
  K ≠ K' → Forall (λ e, kind e.1 = K') evs → of_kind K evs = [].
Proof.
  intros Hne. induction 1 as [|e evs He _ IH]; [done|].
  unfold of_kind in *. rewrite filter_cons_False by congruence. exact IH.
Qed.

Lemma of_kind_prelude K pre :
  K ≠ KContext → K ≠ KAffinity → Forall is_prelude pre → of_kind K pre = [].
Proof.
  intros H1 H2. induction 1 as [|e evs He _ IH]; [done|].
  unfold of_kind in *. rewrite filter_cons_False; [exact IH|].
  destruct He as [He|He]; congruence.
Qed.

Section PhaseFacts.

Variable CUDA_SUCCESS : CUresult.

Abbreviation succeeded := (succeeded CUDA_SUCCESS).
Abbreviation ran := (ran CUDA_SUCCESS).
Abbreviation phase := (phase CUDA_SUCCESS).

Lemma ran_calls f k evs :
  ran f k evs → evs.*1 = f <$> seq 0 k ∧ Forall succeeded evs.
Proof.
  intros [Hlen Hev]. split.
  - apply list_eq. intros i. rewrite !list_lookup_fmap.
    destruct (evs !! i) as [e|] eqn:He; cbn.
    + pose proof (lookup_lt_Some _ _ _ He).
      rewrite lookup_seq_lt by lia. cbn. f_equal. by apply Hev.
    + apply lookup_ge_None in He. by rewrite lookup_seq_ge by lia.
  - apply Forall_lookup. intros i e He. by destruct (Hev i e He).
Qed.

Lemma ran_kind f k evs K :
  (∀ i, kind (f i) = K) → ran f k evs → Forall (λ e, kind e.1 = K) evs.
Proof.
  intros Hf [_ Hev]. apply Forall_lookup. intros i e He.
  destruct (Hev i e He) as [-> _]. apply Hf.
Qed.

Lemma phase_kind f n oks evs done K :
  (∀ i, kind (f i) = K) → phase f n oks evs done →
  Forall (λ e, kind e.1 = K) evs.
Proof.
  intros Hf [oks' Hran|k oks' r Hk Hran Hr].
  - by eapply ran_kind.
  - apply Forall_app. split; [by eapply ran_kind|].
    apply Forall_singleton. apply Hf.
Qed.

(** A stopped phase: the calls for chunks [0 .. k] in order, of which only
    the last failed. *)
Lemma phase_stopped f n oks evs :
  phase f n oks evs false →
  ∃ k r, (k < n)%nat ∧ length oks = k ∧ evs = oks ++ [(f k, r)]
       ∧ ¬ succeeded (f k, r)
       ∧ oks.*1 = f <$> seq 0 k ∧ Forall succeeded oks
       ∧ evs.*1 = f <$> seq 0 (S k).
Proof.
  inversion 1 as [|k oks' r Hk Hran Hr]; subst.
  destruct (ran_calls _ _ _ Hran) as [Hcalls Hok].
  exists k, r. repeat split; try done.
  - by destruct Hran.
  - rewrite fmap_app, Hcalls, seq_S, fmap_app. reflexivity.
Qed.

Lemma phase_calls f n oks evs done :
  phase f n oks evs done →
  evs.*1 = f <$> seq 0 (length evs)
  ∧ (length evs ≤ n)%nat
  ∧ (done = true → length evs = n ∧ Forall succeeded evs).
Proof.
  intros [oks' Hran|k oks' r Hk Hran Hr].
  - destruct (ran_calls _ _ _ Hran) as [Hcalls Hok].
    destruct Hran as [Hlen _]. rewrite Hlen. by repeat split.
  - destruct (ran_calls _ _ _ Hran) as [Hcalls Hok].
    destruct Hran as [Hlen _].
    rewrite length_app, Hlen. cbn [length].
    replace (k + 1)%nat with (S k) by lia.
    split; [by rewrite fmap_app, Hcalls, seq_S, fmap_app|].
    split; [lia|done].
Qed.

(** In a loop that stops at the first failure every call but the last one
    has succeeded. *)
Lemma phase_but_last f n oks evs done :
  phase f n oks evs done →
  ∀ i e, evs !! i = Some e → (S i < length evs)%nat → succeeded e.
Proof.
  intros [oks' Hran|k oks' r Hk Hran Hr] i e He Hi.
  - destruct (ran_calls _ _ _ Hran) as [_ Hok]. by eapply Forall_lookup_1.
  - destruct (ran_calls _ _ _ Hran) as [_ Hok].
    rewrite length_app in Hi. cbn in Hi.
    rewrite lookup_app_l in He by lia. by eapply Forall_lookup_1.
Qed.

(** Such a loop makes the calls for all [n] chunks, or its last call has
    failed. *)
Lemma phase_progress f n oks evs done :
  phase f n oks evs done →
  (length evs = n ∧ Forall succeeded evs)
  ∨ (∃ e, last evs = Some e ∧ ¬ succeeded e).
Proof.
  intros [oks' Hran|k oks' r Hk Hran Hr].
  - left. destruct (ran_calls _ _ _ Hran) as [_ Hok].
    by destruct Hran as [Hlen _].
  - right. eexists. by rewrite last_snoc.
Qed.

(** A list of events whose last one has failed has not succeeded as a
    whole. *)
Lemma failed_last_not_all (evs : list Event) e :
  last evs = Some e → ¬ succeeded e → ¬ Forall succeeded evs.
Proof.
  intros Hlast Hfail Hall. apply Hfail.
  rewrite last_lookup in Hlast. by eapply Forall_lookup_1.
Qed.

End PhaseFacts.

(** ** Chunk addresses without wrap-around *)

Lemma sum_sizes_nonneg C : Forall (λ s, 0 ≤ s) C → 0 ≤ sum_sizes C.
Proof. induction 1 as [|s C Hs _ IH]; unfold sum_sizes in *; cbn; lia. Qed.

Lemma sum_sizes_take_drop C k :
  sum_sizes C = sum_sizes (take k C) + sum_sizes (drop k C).
Proof. by rewrite <- sum_sizes_app, take_drop. Qed.

Lemma sum_sizes_take_le C k :
  Forall (λ s, 0 ≤ s) C → 0 ≤ sum_sizes (take k C) ≤ sum_sizes C.
Proof.
  intros HC. rewrite (sum_sizes_take_drop C k).
  pose proof (sum_sizes_nonneg (take k C) (Forall_take _ _ _ HC)).
  pose proof (sum_sizes_nonneg (drop k C) (Forall_drop _ _ _ HC)). lia.
Qed.

Lemma sum_sizes_take_mono C i j :
  Forall (λ s, 0 ≤ s) C → (i ≤ j)%nat →
  sum_sizes (take i C) ≤ sum_sizes (take j C).
Proof.
  intros HC Hij. replace (take i C) with (take i (take j C)).
  - apply sum_sizes_take_le. by apply Forall_take.
  - rewrite take_take. f_equal. lia.
Qed.

Lemma chunk_addr_exact d_mem C i :
  0 ≤ d_mem → Forall (λ s, 0 ≤ s) C → d_mem + sum_sizes C < U64.modulus →
  chunk_addr d_mem C i = d_mem + sum_sizes (take i C).
Proof.
  intros Hd HC Hfit. unfold chunk_addr. apply wrap_small.
  pose proof (sum_sizes_take_le C i HC). unfold U64.in_range. lia.
Qed.

(** Every offset below the total falls into exactly the chunk whose prefix
    sums enclose it. *)
Lemma offset_in_some_chunk C : ∀ y,
  Forall (λ s, 0 ≤ s) C → 0 ≤ y < sum_sizes C →
  ∃ i, (i < length C)%nat
     ∧ sum_sizes (take i C) ≤ y < sum_sizes (take i C) + C !!! i.
Proof.
  induction C as [|s C IH]; intros y HC Hy; [cbn in Hy; lia|].
  apply Forall_cons in HC as [Hs HC].
  change (sum_sizes (s :: C)) with (s + sum_sizes C) in Hy.
  destruct (Z.lt_ge_cases y s) as [Hlt|Hge].
  - exists 0%nat. cbn. split; [lia|]. lia.
  - destruct (IH (y - s) HC ltac:(lia)) as (i & Hi & Hin).
    exists (S i). split; [cbn; lia|].
    change (take (S i) (s :: C)) with (s :: take i C).
    change (sum_sizes (s :: take i C)) with (s + sum_sizes (take i C)).
    change ((s :: C) !!! S i) with (C !!! i). lia.
Qed.

(** ** The affinity mask *)

Lemma CPU_SET_testbit i mask c :
  0 ≤ i → Z.testbit (CPU_SET i mask) c = Z.testbit mask c || (i =? c).
Proof.
  intros Hi. unfold CPU_SET.
  rewrite Z.lor_spec, Z.shiftl_1_l, Z.pow2_bits_eqb by lia. reflexivity.
Qed.

Lemma cpu_set_range_testbit n : ∀ i mask c,
  0 ≤ i →
  Z.testbit (cpu_set_range n i mask) c
  = Z.testbit mask c || ((i <=? c) && (c <? i + Z.of_nat n)).
Proof.
  induction n as [|n IH]; intros i mask c Hi.
  - cbn [cpu_set_range]. destruct (Z.testbit mask c); [done|].
    destruct (Z.leb_spec i c), (Z.ltb_spec c (i + Z.of_nat 0)); cbn; lia.
  - cbn [cpu_set_range]. rewrite IH by lia. rewrite CPU_SET_testbit by lia.
    destruct (Z.testbit mask c); [done|]. cbn.
    destruct (Z.eqb_spec i c), (Z.leb_spec (i + 1) c), (Z.leb_spec i c),
      (Z.ltb_spec c (i + 1 + Z.of_nat n)), (Z.ltb_spec c (i + Z.of_nat (S n)));
      cbn; lia.
Qed.

(** ** The ranges of the mapping calls *)

(** The range that the mapping call of chunk [i] names. *)
Lemma map_call_range (ms : list Event) m d_mem hp P C :
  ms.*1 = map_call d_mem hp P C <$> seq 0 m →
  ∀ i e, ms !! i = Some e →
    (i < m)%nat ∧ call_range e.1 = Some (chunk_addr d_mem C i, C !!! i).
Proof.
  intros Hcalls i e He.
  assert (ms.*1 !! i = Some e.1) as He1 by (by rewrite list_lookup_fmap, He).
  rewrite Hcalls, list_lookup_fmap in He1.
  destruct (seq 0 m !! i) as [j|] eqn:Hj; [|done].
  apply lookup_seq in Hj as [-> Hlt]. cbn in He1. injection He1 as <-.
  split; [exact Hlt|reflexivity].
Qed.

(** Without wrap-around the ranges of the mapping calls lie one after the
    other from the base, and those of all chunks cover the whole range. *)
Lemma map_ranges_tile (ms : list Event) m d_mem hp P C :
  ms.*1 = map_call d_mem hp P C <$> seq 0 m → (m ≤ length C)%nat →
  0 ≤ d_mem → Forall (λ s, 0 ≤ s) C → d_mem + sum_sizes C < U64.modulus →
  (∀ i e, ms !! i = Some e →
     call_range e.1 = Some (d_mem + sum_sizes (take i C), C !!! i))
  ∧ (∀ i e e' a s a' s',
       ms !! i = Some e → ms !! S i = Some e' →
       call_range e.1 = Some (a, s) → call_range e'.1 = Some (a', s') →
       a' = a + s)
  ∧ (∀ i j e e' a s a' s', (i < j)%nat →
       ms !! i = Some e → ms !! j = Some e' →
       call_range e.1 = Some (a, s) → call_range e'.1 = Some (a', s') →
       a + s ≤ a')
  ∧ (m = length C →
     ∀ x, d_mem ≤ x < d_mem + sum_sizes C ↔
          ∃ i e a s, ms !! i = Some e ∧ call_range e.1 = Some (a, s)
                   ∧ a ≤ x < a + s).
Proof.
  intros Hcalls Hm Hd HC Hfit.
  assert (∀ i e, ms !! i = Some e →
            (i < m)%nat
            ∧ call_range e.1 = Some (d_mem + sum_sizes (take i C), C !!! i))
    as Hexact.
  { intros i e He.
    destruct (map_call_range ms m d_mem hp P C Hcalls i e He) as [Hi Hr].
    split; [exact Hi|]. by rewrite Hr, chunk_addr_exact. }
  assert (length ms = m) as Hlen.
  { rewrite <- (length_fmap fst ms), Hcalls, length_fmap, length_seq.
    reflexivity. }
  split; [intros i e He; by destruct (Hexact i e He)|].
  split.
  { intros i e e' a s a' s' He He' Hr Hr'.
    destruct (Hexact i e He) as [Hi Hr1].
    destruct (Hexact (S i) e' He') as [_ Hr1'].
    rewrite Hr1 in Hr. rewrite Hr1' in Hr'.
    injection Hr as <- <-. injection Hr' as <- <-.
    rewrite sum_sizes_take_S by lia. lia. }
  split.
  { intros i j e e' a s a' s' Hij He He' Hr Hr'.
    destruct (Hexact i e He) as [Hi Hr1].
    destruct (Hexact j e' He') as [Hj Hr1'].
    rewrite Hr1 in Hr. rewrite Hr1' in Hr'.
    injection Hr as <- <-. injection Hr' as <- <-.
    pose proof (sum_sizes_take_mono C (S i) j HC ltac:(lia)) as Hmono.
    rewrite sum_sizes_take_S in Hmono by lia. lia. }
  intros Hfull x. split.
  - intros Hx.
    destruct (offset_in_some_chunk C (x - d_mem) HC ltac:(lia))
      as (i & Hi & Hin).
    destruct (lookup_lt_is_Some_2 ms i ltac:(lia)) as [e He].
    destruct (Hexact i e He) as [_ Hr].
    exists i, e, (d_mem + sum_sizes (take i C)), (C !!! i).
    split; [exact He|]. split; [exact Hr|lia].
  - intros (i & e & a & s & He & Hr & Hin).
    destruct (Hexact i e He) as [Hi Hr1].
    rewrite Hr1 in Hr. injection Hr as <- <-.
    pose proof (sum_sizes_take_le C i HC) as Hlo.
    pose proof (sum_sizes_take_le C (S i) HC) as Hhi.
    rewrite sum_sizes_take_S in Hhi by lia. lia.
Qed.

(** ** Claims on the driver protocol *)

Section ProtocolClaims.

Variable CUDA_SUCCESS : CUresult.
Variable driver : list Event → Call → Response.

Abbreviation succeeded := (succeeded CUDA_SUCCESS).
Abbreviation ran := (ran CUDA_SUCCESS).
Abbreviation phase := (phase CUDA_SUCCESS).

Lemma create_call_kind device P C i : kind (create_call device P C i) = KCreate.
Proof. reflexivity. Qed.

Lemma map_call_kind d_mem hp P C i : kind (map_call d_mem hp P C i) = KMap.
Proof. reflexivity. Qed.

(** In a list of successes followed by one failure, a failed event can only
    be the last one. *)
Lemma failure_is_last (oks : list Event) (x e : Event) k :
  Forall succeeded oks → (oks ++ [x]) !! k = Some e → ¬ succeeded e →
  k = length oks ∧ e = x.
Proof.
  intros Hok Hk Hfail. apply lookup_snoc_Some in Hk as [[_ Hk]|[-> ->]].
  - exfalso. apply Hfail. by eapply Forall_lookup_1.
  - done.
Qed.

(** The mapping calls of a run: chunks 0, 1, 2, ... in this order, all but
    possibly the last successful. *)
Lemma map_calls_of_run device size d_mem P C num_chunks w :
  well_formed P C num_chunks →
  ∃ w' evs (m : nat),
    create_and_map CUDA_SUCCESS driver device size d_mem P C num_chunks w
    = Some (tt, w')
    ∧ trace w' = trace w ++ evs
    ∧ (m ≤ length C)%nat
    ∧ (of_kind KMap evs).*1 = map_call d_mem (heap w') P C <$> seq 0 m
    ∧ (∀ i e, (S i < m)%nat → of_kind KMap evs !! i = Some e → succeeded e)
    ∧ (Forall succeeded (of_kind KCreate evs) →
       Forall succeeded (of_kind KMap evs) → m = length C).
Proof.
  intros Hwf.
  destruct (create_and_map_run CUDA_SUCCESS driver device size d_mem
              P C num_chunks w Hwf)
    as (w' & pre & evs & Hrun & _ & Htr & Hpre & Hev).
  destruct Hwf as (HP & HCn & Hmax).
  assert (length C = length P) as Hlen by lia.
  assert (∃ m : nat,
    (m ≤ length C)%nat
    ∧ (of_kind KMap (pre ++ evs)).*1 = map_call d_mem (heap w') P C <$> seq 0 m
    ∧ (∀ i e, (S i < m)%nat → of_kind KMap (pre ++ evs) !! i = Some e →
         succeeded e)
    ∧ (Forall succeeded (of_kind KCreate (pre ++ evs)) →
       Forall succeeded (of_kind KMap (pre ++ evs)) → m = length C))
    as (m & Hm & Hcalls & Hoks & Hall).
  { rewrite !of_kind_app, !(of_kind_prelude _ pre) by done. cbn [app].
    destruct Hev as [oks cs Hph|cs oks ms Hran Hph|cs ms r Hran Hranm].
    - pose proof (phase_kind _ _ _ _ _ _ KCreate
                    (create_call_kind device P C) Hph) as Hkind.
      exists 0%nat. rewrite (of_kind_same _ _ Hkind).
      rewrite (of_kind_other _ KCreate cs) by done.
      split; [lia|]. split; [done|]. split; [intros i e Hi; lia|].
      intros Hcs _.
      destruct (phase_stopped _ _ _ _ _ Hph)
        as (j & r & _ & _ & Hcs' & Hr & _).
      exfalso. eapply (failed_last_not_all CUDA_SUCCESS cs); [|exact Hr|done].
      by rewrite Hcs', last_snoc.
    - pose proof (ran_kind _ _ _ _ KCreate (create_call_kind device P C) Hran)
        as Hkc.
      pose proof (phase_kind _ _ _ _ _ _ KMap
                    (map_call_kind d_mem _ P C) Hph) as Hkm.
      destruct (phase_stopped _ _ _ _ _ Hph)
        as (j & r & Hj & Hlj & Hms & Hr & _ & Hok & Hallc).
      exists (S j). rewrite !of_kind_app, (of_kind_other _ KCreate cs),
        (of_kind_same _ _ Hkm), (of_kind_same _ _ Hkc),
        (of_kind_other _ KMap ms) by done. cbn [app].
      split; [lia|]. split; [exact Hallc|].
      split.
      { intros i e Hi He. rewrite Hms, lookup_app_l in He by lia.
        by eapply Forall_lookup_1. }
      intros _ Hmsok.
      exfalso. eapply (failed_last_not_all CUDA_SUCCESS ms); [|exact Hr|done].
      by rewrite Hms, last_snoc.
    - pose proof (ran_kind _ _ _ _ KCreate (create_call_kind device P C) Hran)
        as Hkc.
      pose proof (ran_kind _ _ _ _ KMap (map_call_kind d_mem _ P C) Hranm)
        as Hkm.
      destruct (ran_calls _ _ _ _ Hranm) as [Hcalls Hok].
      set (grant := (cuMemSetAccess d_mem (U64.wrap size) device, r)).
      assert (Forall (λ e : Event, kind e.1 = KAccess) [grant]) as Hka
        by by apply Forall_singleton.
      exists (length P).
      rewrite !of_kind_app, (of_kind_other _ KCreate cs),
        (of_kind_same _ _ Hkm), (of_kind_other _ KAccess [grant]) by done.
      cbn [app]. rewrite app_nil_r.
      split; [lia|]. split; [exact Hcalls|].
      split; [intros i e _ He; by eapply Forall_lookup_1|].
      intros _ _. lia. }
  exists w', (pre ++ evs), m. by repeat split.
Qed.

(** C2, as amended: the mapping calls of [create_and_map] are made for
    chunks 0, 1, 2, ... in this order, all but possibly the last
    successfully, and for every chunk unless a creation or a mapping fails.
    For every chunk-size sequence whose base plus total size stays below
    2^64, the mapping call of chunk [i] names exactly
    base + sum(sizes[0..i)) and the size of chunk [i], so that the ranges
    of consecutive mapping calls are contiguous, the ranges of two mapping
    calls do not overlap and, once all chunks are mapped, the mapped ranges
    together cover [base, base + sum(sizes)). *)
Theorem chunks_mapped_at_prefix_sums
    device size d_mem P C num_chunks w :
  well_formed P C num_chunks →
  ∃ w' evs (m : nat),
    create_and_map CUDA_SUCCESS driver device size d_mem P C num_chunks w
    = Some (tt, w')
    ∧ trace w' = trace w ++ evs
    ∧ (m ≤ length C)%nat
    ∧ (of_kind KMap evs).*1 = map_call d_mem (heap w') P C <$> seq 0 m
    ∧ (∀ i e, (S i < m)%nat → of_kind KMap evs !! i = Some e → succeeded e)
    ∧ (Forall succeeded (of_kind KCreate evs) →
       Forall succeeded (of_kind KMap evs) → m = length C)
    ∧ (0 ≤ d_mem → Forall (λ s, 0 ≤ s) C →
       d_mem + sum_sizes C < U64.modulus →
       (∀ i e, of_kind KMap evs !! i = Some e →
          call_range e.1 = Some (d_mem + sum_sizes (take i C), C !!! i))
       ∧ (∀ i e e' a s a' s',
            of_kind KMap evs !! i = Some e →
            of_kind KMap evs !! S i = Some e' →
            call_range e.1 = Some (a, s) →
            call_range e'.1 = Some (a', s') →
            a' = a + s)
       ∧ (∀ i j e e' a s a' s', (i < j)%nat →
            of_kind KMap evs !! i = Some e →
            of_kind KMap evs !! j = Some e' →
            call_range e.1 = Some (a, s) →
            call_range e'.1 = Some (a', s') →
            a + s ≤ a')
       ∧ (m = length C → Forall succeeded (of_kind KMap evs) →
          ∀ x, d_mem ≤ x < d_mem + sum_sizes C ↔
               ∃ i e a s, of_kind KMap evs !! i = Some e ∧ succeeded e
                        ∧ call_range e.1 = Some (a, s) ∧ a ≤ x < a + s)).
Proof.
  intros Hwf.
  destruct (map_calls_of_run device size d_mem P C num_chunks w Hwf)
    as (w' & evs & m & Hrun & Htr & Hm & Hcalls & Hoks & Hall).
  exists w', evs, m.
  split; [exact Hrun|]. split; [exact Htr|]. split; [exact Hm|].
  split; [exact Hcalls|]. split; [exact Hoks|]. split; [exact Hall|].
  intros Hd HC Hfit.
  destruct (map_ranges_tile (of_kind KMap evs) m d_mem (heap w') P C
              Hcalls Hm Hd HC Hfit) as (Hexact & Hcont & Hdisj & Hcover).
  split; [exact Hexact|]. split; [exact Hcont|]. split; [exact Hdisj|].
  intros Hfull Hok x. rewrite (Hcover Hfull x). split.
  - intros (i & e & a & s & He & Hr & Hx). exists i, e, a, s.
    split; [exact He|]. split; [by eapply Forall_lookup_1|done].
  - intros (i & e & a & s & He & _ & Hr & Hx). by exists i, e, a, s.
Qed.

(** C3: the calls of [unmap_and_release] after the context calls are the
    unmapping calls for chunks 0, 1, 2, ... in this order, followed by the
    release calls for chunks 0, 1, 2, ... in this order.  Every chunk is
    unmapped unless an unmapping call fails, which is then the last call;
    there is a release call only if all chunks have been unmapped
    successfully before; once they have, the handle of every chunk is
    released unless a release call fails, which is then the last call; and
    the unmapping call for chunk [i] names the address and size that the
    mapping call for chunk [i] names in any run of [create_and_map] on the
    same base and sizes. *)
Theorem unmap_all_before_any_release
    device size d_mem P C num_chunks w :
  well_formed P C num_chunks →
  (∀ i, (i < length P)%nat → is_Some (heap w !! (P !!! i))) →
  ∃ w' ctx us rs,
    unmap_and_release CUDA_SUCCESS driver device size d_mem P C num_chunks w
    = Some (tt, w')
    ∧ trace w' = trace w ++ ctx ++ us ++ rs
    ∧ Forall (λ e, kind e.1 = KContext) ctx
    ∧ us.*1 = unmap_call d_mem C <$> seq 0 (length us)
    ∧ rs.*1 = release_call (heap w) P <$> seq 0 (length rs)
    ∧ (length us ≤ length C)%nat ∧ (length rs ≤ length P)%nat
    ∧ (rs ≠ [] → length us = length C ∧ Forall succeeded us)
    ∧ (∀ i e, us !! i = Some e → (S i < length us)%nat → succeeded e)
    ∧ (∀ i e, rs !! i = Some e → (S i < length rs)%nat → succeeded e)
    ∧ (length us = length C ∨ ∃ e, last us = Some e ∧ ¬ succeeded e)
    ∧ (Forall succeeded us →
       length us = length C
       ∧ (length rs = length P ∨ ∃ e, last rs = Some e ∧ ¬ succeeded e))
    ∧ (∀ device0 size0 w0 w0' evs0 i c c',
         create_and_map CUDA_SUCCESS driver device0 size0 d_mem P C
           num_chunks w0 = Some (tt, w0') →
         trace w0' = trace w0 ++ evs0 →
         (of_kind KMap evs0).*1 !! i = Some c → us.*1 !! i = Some c' →
         call_range c' = call_range c).
Proof.
  intros Hwf Hslots.
  destruct (unmap_and_release_run CUDA_SUCCESS driver device size d_mem
              P C num_chunks w Hwf Hslots)
    as (w' & ctx & us & rs & Hrun & _ & _ & Htr & Hctx & Hev).
  assert (us.*1 = unmap_call d_mem C <$> seq 0 (length us)) as Hucalls.
  { destruct Hev as [oks us Hph|us oks rs done Hran Hph].
    - by destruct (phase_calls _ _ _ _ _ _ Hph) as (? & _).
    - destruct (ran_calls _ _ _ _ Hran) as [Hcalls _].
      destruct Hran as [Hlu _]. by rewrite Hlu. }
  assert (∀ device0 size0 w0 w0' evs0 i c c',
    create_and_map CUDA_SUCCESS driver device0 size0 d_mem P C
      num_chunks w0 = Some (tt, w0') →
    trace w0' = trace w0 ++ evs0 →
    (of_kind KMap evs0).*1 !! i = Some c → us.*1 !! i = Some c' →
    call_range c' = call_range c) as Hsame.
  { intros device0 size0 w0 w0' evs0 i c c' Hrun0 Htr0 Hc Hc'.
    destruct (map_calls_of_run device0 size0 d_mem P C num_chunks w0 Hwf)
      as (w1 & evs1 & m & Hrun1 & Htr1 & _ & Hmcalls & _).
    rewrite Hrun0 in Hrun1. injection Hrun1 as <-.
    rewrite Htr0 in Htr1. apply app_inv_head in Htr1 as <-.
    rewrite Hmcalls, list_lookup_fmap in Hc.
    rewrite Hucalls, list_lookup_fmap in Hc'.
    destruct (seq 0 m !! i) as [a|] eqn:Ha; [|done].
    destruct (seq 0 (length us) !! i) as [b|] eqn:Hb; [|done].
    apply lookup_seq in Ha as [-> _]. apply lookup_seq in Hb as [-> _].
    cbn in Hc, Hc'. injection Hc as <-. injection Hc' as <-. reflexivity. }
  destruct Hwf as (HP & HC & Hmax).
  assert (length C = length P) as Hlen by lia.
  exists w', ctx, us, rs.
  split; [exact Hrun|]. split; [exact Htr|]. split; [exact Hctx|].
  split; [exact Hucalls|].
  destruct Hev as [oks us Hph|us oks rs done Hran Hph].
  - destruct (phase_calls _ _ _ _ _ _ Hph) as (_ & Hle & _).
    destruct (phase_stopped _ _ _ _ _ Hph)
      as (k & r & _ & _ & Hus & Hr & _).
    assert (last us = Some (unmap_call d_mem C k, r)) as Hlast
      by (by rewrite Hus, last_snoc).
    split; [done|]. split; [lia|].
    split; [cbn; lia|]. split; [done|].
    split; [exact (phase_but_last _ _ _ _ _ _ Hph)|].
    split; [intros i e He; by rewrite lookup_nil in He|].
    split; [right; by eexists|].
    split; [|exact Hsame].
    intros Hall. exfalso.
    by eapply (failed_last_not_all CUDA_SUCCESS us).
  - destruct (ran_calls _ _ _ _ Hran) as [_ Hok].
    destruct (phase_calls _ _ _ _ _ _ Hph) as (Hrcalls & Hle & _).
    destruct Hran as [Hlu _].
    split; [exact Hrcalls|]. split; [lia|].
    split; [exact Hle|].
    split; [intros _; split; [lia|exact Hok]|].
    split; [intros i e He _; by eapply Forall_lookup_1|].
    split; [exact (phase_but_last _ _ _ _ _ _ Hph)|].
    split; [left; lia|].
    split; [|exact Hsame].
    intros _. split; [lia|].
    destruct (phase_progress _ _ _ _ _ _ Hph) as [[Hn _]|Hfail];
      [by left|by right].
Qed.

(** C4: if the creation of the handle of chunk [k] fails, [create_and_map]
    returns at that call: creations 0..k-1 succeeded and (for distinct slots)
    their handles are still in the slots, no creation was attempted for
    chunks k+1.., and there is no mapping, access-grant, unmapping or release
    call at all. *)
Theorem create_failure_keeps_earlier_handles
    device size d_mem P C num_chunks w :
  well_formed P C num_chunks →
  ∃ w' evs,
    create_and_map CUDA_SUCCESS driver device size d_mem P C num_chunks w
    = Some (tt, w')
    ∧ trace w' = trace w ++ evs
    ∧ ∀ k e,
        of_kind KCreate evs !! k = Some e → ¬ succeeded e →
        Z.of_nat k < num_chunks
        ∧ last evs = Some e
        ∧ (of_kind KCreate evs).*1 = create_call device P C <$> seq 0 (S k)
        ∧ (∀ i e', (i < k)%nat → of_kind KCreate evs !! i = Some e' →
             succeeded e'
             ∧ (NoDup P → heap w' !! (P !!! i) = Some (out e'.2)))
        ∧ of_kind KMap evs = [] ∧ of_kind KAccess evs = []
        ∧ of_kind KUnmap evs = [] ∧ of_kind KRelease evs = [].
Proof.
  intros Hwf.
  destruct (create_and_map_run CUDA_SUCCESS driver device size d_mem
              P C num_chunks w Hwf)
    as (w' & pre & evs & Hrun & _ & Htr & Hpre & Hev).
  destruct Hwf as (HP & HC & Hmax).
  exists w', (pre ++ evs). split; [exact Hrun|]. split; [exact Htr|].
  intros k e. rewrite of_kind_app, (of_kind_prelude _ pre) by done. cbn.
  destruct Hev as [oks cs Hph|cs oks ms Hran Hph|cs ms r Hran Hranm].
  - pose proof (phase_kind _ _ _ _ _ _ KCreate
                  (create_call_kind device P C) Hph) as Hkind.
    destruct (phase_stopped _ _ _ _ _ Hph)
      as (k0 & r & Hk0 & Hlen & Hcs & Hr & Hcalls & Hok & Hall).
    rewrite (of_kind_same _ _ Hkind).
    rewrite !of_kind_app, !(of_kind_prelude _ pre) by done.
    rewrite !(of_kind_other _ KCreate cs) by done.
    intros Hk Hfail. rewrite Hcs in Hk.
    destruct (failure_is_last _ _ _ _ Hok Hk Hfail) as [-> ->].
    rewrite Hlen. split; [lia|].
    split; [by rewrite Hcs, app_assoc, last_snoc|].
    split; [exact Hall|].
    split; [|done].
    intros i e' Hi He'. rewrite Hcs, lookup_app_l in He' by lia.
    split; [by eapply Forall_lookup_1|].
    intros Hnd. eapply stored_lookup; [exact Hnd| |exact He'].
    apply lookup_total_of_lt. lia.
  - pose proof (ran_kind _ _ _ _ KCreate (create_call_kind device P C) Hran)
      as Hkc.
    pose proof (phase_kind _ _ _ _ _ _ KMap
                  (map_call_kind d_mem _ P C) Hph) as Hkm.
    rewrite of_kind_app, (of_kind_same _ _ Hkc),
      (of_kind_other _ KMap ms), app_nil_r by done.
    intros Hk Hfail. exfalso. apply Hfail.
    destruct (ran_calls _ _ _ _ Hran) as [_ Hok]. by eapply Forall_lookup_1.
  - pose proof (ran_kind _ _ _ _ KCreate (create_call_kind device P C) Hran)
      as Hkc.
    pose proof (ran_kind _ _ _ _ KMap (map_call_kind d_mem _ P C) Hranm)
      as Hkm.
    rewrite !of_kind_app, (of_kind_same _ _ Hkc),
      (of_kind_other _ KMap ms) by done. cbn.
    rewrite app_nil_r.
    intros Hk Hfail. exfalso. apply Hfail.
    destruct (ran_calls _ _ _ _ Hran) as [_ Hok]. by eapply Forall_lookup_1.
Qed.

(** C6: if the mapping of chunk [j] fails, all handles had been created
    before (and, for distinct slots, are still in their slots);
    [create_and_map] returns at the failed call: mappings 0..j-1 succeeded,
    no mapping was attempted for chunks j+1.., and there is no unmapping,
    release or access-grant call at all. *)
Theorem map_failure_keeps_earlier_mappings
    device size d_mem P C num_chunks w :
  well_formed P C num_chunks →
  ∃ w' evs,
    create_and_map CUDA_SUCCESS driver device size d_mem P C num_chunks w
    = Some (tt, w')
    ∧ trace w' = trace w ++ evs
    ∧ ∀ j e,
        of_kind KMap evs !! j = Some e → ¬ succeeded e →
        Z.of_nat j < num_chunks
        ∧ last evs = Some e
        ∧ (of_kind KCreate evs).*1
          = create_call device P C <$> seq 0 (length P)
        ∧ Forall succeeded (of_kind KCreate evs)
        ∧ (∀ i e', of_kind KCreate evs !! i = Some e' → NoDup P →
             heap w' !! (P !!! i) = Some (out e'.2))
        ∧ (of_kind KMap evs).*1
          = map_call d_mem (heap w') P C <$> seq 0 (S j)
        ∧ (∀ i e', (i < j)%nat → of_kind KMap evs !! i = Some e' →
             succeeded e')
        ∧ of_kind KAccess evs = []
        ∧ of_kind KUnmap evs = [] ∧ of_kind KRelease evs = [].
Proof.
  intros Hwf.
  destruct (create_and_map_run CUDA_SUCCESS driver device size d_mem
              P C num_chunks w Hwf)
    as (w' & pre & evs & Hrun & _ & Htr & Hpre & Hev).
  destruct Hwf as (HP & HC & Hmax).
  exists w', (pre ++ evs). split; [exact Hrun|]. split; [exact Htr|].
  intros j e. rewrite !of_kind_app, !(of_kind_prelude _ pre) by done. cbn [app].
  destruct Hev as [oks cs Hph|cs oks ms Hran Hph|cs ms r Hran Hranm].
  - pose proof (phase_kind _ _ _ _ _ _ KCreate
                  (create_call_kind device P C) Hph) as Hkind.
    rewrite (of_kind_other _ KCreate cs) by done.
    intros Hj. by rewrite lookup_nil in Hj.
  - pose proof (ran_kind _ _ _ _ KCreate (create_call_kind device P C) Hran)
      as Hkc.
    pose proof (phase_kind _ _ _ _ _ _ KMap
                  (map_call_kind d_mem _ P C) Hph) as Hkm.
    destruct (ran_calls _ _ _ _ Hran) as [Hccalls Hcok].
    destruct (phase_stopped _ _ _ _ _ Hph)
      as (j0 & r & Hj0 & Hlen & Hms & Hr & Hcalls & Hok & Hall).
    rewrite !of_kind_app, (of_kind_same _ _ Hkc), (of_kind_same _ _ Hkm).
    rewrite !(of_kind_other _ KCreate cs), !(of_kind_other _ KMap ms),
      !app_nil_r by done.
    cbn [app].
    intros Hj Hfail. rewrite Hms in Hj.
    destruct (failure_is_last _ _ _ _ Hok Hj Hfail) as [-> ->].
    rewrite Hlen. split; [lia|].
    split; [by rewrite Hms, !app_assoc, last_snoc|].
    split; [exact Hccalls|]. split; [exact Hcok|].
    split.
    { intros i e' He' Hnd. eapply stored_lookup; [exact Hnd| |exact He'].
      apply lookup_total_of_lt. apply lookup_lt_Some in He'.
      by rewrite <- (ran_length _ _ _ _ Hran). }
    split; [exact Hall|].
    split; [|done].
    intros i e' Hi He'. rewrite Hms, lookup_app_l in He' by lia.
    by eapply Forall_lookup_1.
  - pose proof (ran_kind _ _ _ _ KCreate (create_call_kind device P C) Hran)
      as Hkc.
    pose proof (ran_kind _ _ _ _ KMap (map_call_kind d_mem _ P C) Hranm)
      as Hkm.
    rewrite !of_kind_app, (of_kind_other _ KCreate cs),
      (of_kind_same _ _ Hkm) by done. cbn. rewrite app_nil_r.
    intros Hj Hfail. exfalso. apply Hfail.
    destruct (ran_calls _ _ _ _ Hranm) as [_ Hok]. by eapply Forall_lookup_1.
Qed.

(** C8: the affinity binder makes one [sched_setaffinity] call for the
    calling thread, whatever its result; for a device id in the lower half
    (0-3) the mask is exactly CPUs 0-47, for one in the upper half (4-7) it
    is exactly CPUs 48-95. *)
Theorem affinity_follows_device_half device w :
  0 ≤ device ≤ 7 →
  ∃ mask r,
    set_cpu_affinity_for_gpu driver device w
    = Some (tt, MkWorld (tid w) (heap w)
                  (trace w ++ [(sched_setaffinity (tid w) mask, r)]))
    ∧ ((0 ≤ device ≤ 3 ∧ ∀ c, Z.testbit mask c = true ↔ 0 ≤ c < 48)
       ∨ (4 ≤ device ≤ 7 ∧ ∀ c, Z.testbit mask c = true ↔ 48 ≤ c < 96)).
Proof.
  intros Hdev.
  destruct (set_cpu_affinity_for_gpu_run driver device w) as [r Hrun].
  eexists _, r. split; [exact Hrun|].
  destruct (Z.leb_spec device 3); [left|right]; (split; [lia|]); intros c;
    rewrite cpu_set_range_testbit by lia; rewrite Z.bits_0; cbn [orb].
  - destruct (Z.leb_spec 0 c), (Z.ltb_spec c (0 + Z.of_nat 48)); cbn; split;
      (lia || done).
  - destruct (Z.leb_spec 48 c), (Z.ltb_spec c (48 + Z.of_nat 48)); cbn; split;
      (lia || done).
Qed.

(** The access grant of a run: none when a creation or a mapping failed,
    one after all chunks were mapped otherwise. *)
Lemma access_call_of_run device size d_mem P C num_chunks w :
  well_formed P C num_chunks →
  ∃ w' evs,
    create_and_map CUDA_SUCCESS driver device size d_mem P C num_chunks w
    = Some (tt, w')
    ∧ trace w' = trace w ++ evs
    ∧ of_kind KUnmap evs = [] ∧ of_kind KRelease evs = []
    ∧ (length (of_kind KAccess evs) ≤ 1)%nat
    ∧ (Forall succeeded (of_kind KCreate evs) →
       Forall succeeded (of_kind KMap evs) →
       length (of_kind KAccess evs) = 1%nat)
    ∧ ∀ e, e ∈ of_kind KAccess evs →
        e.1 = cuMemSetAccess d_mem (U64.wrap size) device
        ∧ last evs = Some e
        ∧ (of_kind KMap evs).*1
          = map_call d_mem (heap w') P C <$> seq 0 (length P)
        ∧ Forall succeeded (of_kind KMap evs).
Proof.
  intros Hwf.
  destruct (create_and_map_run CUDA_SUCCESS driver device size d_mem
              P C num_chunks w Hwf)
    as (w' & pre & evs & Hrun & _ & Htr & Hpre & Hev).
  exists w', (pre ++ evs). split; [exact Hrun|]. split; [exact Htr|].
  rewrite !of_kind_app, !(of_kind_prelude _ pre) by done. cbn [app].
  destruct Hev as [oks cs Hph|cs oks ms Hran Hph|cs ms r Hran Hranm].
  - pose proof (phase_kind _ _ _ _ _ _ KCreate
                  (create_call_kind device P C) Hph) as Hkind.
    destruct (phase_stopped _ _ _ _ _ Hph)
      as (j & r & _ & _ & Hcs & Hr & _).
    rewrite (of_kind_same _ _ Hkind).
    rewrite !(of_kind_other _ KCreate cs) by done. cbn [app].
    split; [done|]. split; [done|]. split; [cbn; lia|].
    split.
    { intros Hall _. exfalso.
      eapply (failed_last_not_all CUDA_SUCCESS cs); [|exact Hr|done].
      by rewrite Hcs, last_snoc. }
    intros e He. by apply elem_of_nil in He.
  - pose proof (ran_kind _ _ _ _ KCreate (create_call_kind device P C) Hran)
      as Hkc.
    pose proof (phase_kind _ _ _ _ _ _ KMap
                  (map_call_kind d_mem _ P C) Hph) as Hkm.
    destruct (phase_stopped _ _ _ _ _ Hph)
      as (j & r & _ & _ & Hms & Hr & _).
    rewrite !of_kind_app, (of_kind_same _ _ Hkc), (of_kind_same _ _ Hkm),
      !(of_kind_other _ KCreate cs), !(of_kind_other _ KMap ms) by done.
    cbn [app].
    split; [done|]. split; [done|]. split; [cbn; lia|].
    split.
    { intros _ Hall. exfalso.
      eapply (failed_last_not_all CUDA_SUCCESS ms); [|exact Hr|done].
      by rewrite Hms, last_snoc. }
    intros e He. by apply elem_of_nil in He.
  - pose proof (ran_kind _ _ _ _ KCreate (create_call_kind device P C) Hran)
      as Hkc.
    pose proof (ran_kind _ _ _ _ KMap (map_call_kind d_mem _ P C) Hranm)
      as Hkm.
    destruct (ran_calls _ _ _ _ Hranm) as [Hcalls Hok].
    set (grant := (cuMemSetAccess d_mem (U64.wrap size) device, r)).
    assert (Forall (λ e : Event, kind e.1 = KAccess) [grant]) as Hka
      by by apply Forall_singleton.
    rewrite !of_kind_app, (of_kind_same _ _ Hkc), (of_kind_same _ _ Hkm),
      (of_kind_same _ _ Hka), !(of_kind_other _ KCreate cs),
      !(of_kind_other _ KMap ms), !(of_kind_other _ KAccess [grant]) by done.
    cbn [app]. rewrite !app_nil_r.
    split; [done|]. split; [done|]. split; [cbn; lia|].
    split; [done|]. intros e He.
    apply list_elem_of_singleton in He as ->.
    split; [done|]. split; [by rewrite !app_assoc, last_snoc|]. done.
Qed.

(** C9: access is granted by a single call, [cuMemSetAccess] for [size]
    bytes at the base: never more than one, and exactly one when every
    chunk has been created and mapped successfully.  When it is made, all
    chunks have been mapped successfully before it and it is the last call
    of [create_and_map], whatever its result; no run of [create_and_map]
    contains an unmapping or a release call.  When [size] is the sum of the
    chunk sizes and the range does not wrap around, the range of the grant
    is exactly what the mapped chunks cover. *)
Theorem access_granted_once_after_all_mapped
    device size d_mem P C num_chunks w :
  well_formed P C num_chunks →
  ∃ w' evs,
    create_and_map CUDA_SUCCESS driver device size d_mem P C num_chunks w
    = Some (tt, w')
    ∧ trace w' = trace w ++ evs
    ∧ of_kind KUnmap evs = [] ∧ of_kind KRelease evs = []
    ∧ (length (of_kind KAccess evs) ≤ 1)%nat
    ∧ (Forall succeeded (of_kind KCreate evs) →
       Forall succeeded (of_kind KMap evs) →
       length (of_kind KAccess evs) = 1%nat)
    ∧ (∀ e, e ∈ of_kind KAccess evs →
         e.1 = cuMemSetAccess d_mem (U64.wrap size) device
         ∧ last evs = Some e
         ∧ (of_kind KMap evs).*1
           = map_call d_mem (heap w') P C <$> seq 0 (length P)
         ∧ Forall succeeded (of_kind KMap evs))
    ∧ (sum_sizes C = size → 0 ≤ d_mem → Forall (λ s, 0 ≤ s) C →
       d_mem + size < U64.modulus →
       ∀ e, e ∈ of_kind KAccess evs →
         e.1 = cuMemSetAccess d_mem size device
         ∧ ∀ x, d_mem ≤ x < d_mem + size ↔
                ∃ i m a s, of_kind KMap evs !! i = Some m ∧ succeeded m
                         ∧ call_range m.1 = Some (a, s) ∧ a ≤ x < a + s).
Proof.
  intros Hwf.
  destruct (access_call_of_run device size d_mem P C num_chunks w Hwf)
    as (w' & evs & Hrun & Htr & Hun & Hrel & Hone & Hall & Hgrant).
  exists w', evs.
  split; [exact Hrun|]. split; [exact Htr|]. split; [exact Hun|].
  split; [exact Hrel|]. split; [exact Hone|]. split; [exact Hall|].
  split; [exact Hgrant|].
  intros Hsum Hd HC Hfit e He.
  destruct (Hgrant e He) as (Hcall & _ & Hcalls & Hok).
  destruct Hwf as (HP & HCn & _).
  assert (length P = length C) as Hlen by lia.
  pose proof (sum_sizes_nonneg C HC) as Hnn.
  rewrite wrap_small in Hcall by (unfold U64.in_range; lia).
  split; [exact Hcall|].
  subst size.
  destruct (map_ranges_tile (of_kind KMap evs) (length P) d_mem (heap w') P C
              Hcalls ltac:(lia) Hd HC Hfit) as (_ & _ & _ & Hcover).
  intros x. rewrite (Hcover Hlen x). split.
  - intros (i & m & a & s & Hm & Hr & Hx). exists i, m, a, s.
    split; [exact Hm|]. split; [by eapply Forall_lookup_1|done].
  - intros (i & m & a & s & Hm & _ & Hr & Hx). by exists i, m, a, s.
Qed.

(** C10: with [num_chunks = 0] neither entry point makes a per-chunk call:
    [unmap_and_release] only ensures the context (no unmap, no release), and
    [create_and_map] follows its prelude with the single access-grant call
    for [size] bytes at the base, nothing having been created or mapped. *)
Theorem zero_chunks_only_grant_access device size d_mem P C w :
  (∃ ctx,
     unmap_and_release CUDA_SUCCESS driver device size d_mem P C 0 w
     = Some (tt, MkWorld (tid w) (heap w) (trace w ++ ctx))
     ∧ Forall (λ e, kind e.1 = KContext) ctx
     ∧ of_kind KUnmap ctx = [] ∧ of_kind KRelease ctx = [])
  ∧ (∃ pre r,
       create_and_map CUDA_SUCCESS driver device size d_mem P C 0 w
       = Some (tt, MkWorld (tid w) (heap w)
                 (trace w ++ pre
                    ++ [(cuMemSetAccess d_mem (U64.wrap size) device, r)]))
       ∧ Forall is_prelude pre
       ∧ of_kind KCreate pre = [] ∧ of_kind KMap pre = []).
Proof.
  split.
  - destruct (ensure_context_run CUDA_SUCCESS driver device w)
      as (ctx & Hrun & Hctx).
    exists ctx. unfold unmap_and_release, bind. rewrite Hrun. cbn.
    split; [done|]. split; [done|].
    split; by apply (of_kind_other _ KContext).
  - destruct (ensure_context_run CUDA_SUCCESS driver device w)
      as (ctx & Hrun & Hctx).
    destruct (set_cpu_affinity_for_gpu_run driver device
                (MkWorld (tid w) (heap w) (trace w ++ ctx))) as (ra & Haff).
    cbn [tid heap trace] in Haff.
    eexists (ctx ++ [_]), _.
    unfold create_and_map. unfold bind at 1. rewrite Hrun.
    unfold bind at 1. rewrite Haff.
    change (Z.to_nat 0) with O. cbn [for_int]. unfold bind, ret, call. cbn.
    split; [|split; [|split]].
    + destruct (failed CUDA_SUCCESS _); cbn; by rewrite <- !app_assoc.
    + apply Forall_app. split.
      * eapply Forall_impl; [exact Hctx|]. intros e He. by left.
      * apply Forall_singleton. by right.
    + rewrite of_kind_app, (of_kind_other _ KContext) by done. done.
    + rewrite of_kind_app, (of_kind_other _ KContext) by done. done.
Qed.

End ProtocolClaims.

(** ** The claims at concrete runs *)

Lemma chunks_mapped_at_prefix_sums_witness :
  well_formed slots2 sizes2 2
  ∧ 0 ≤ 65536 ∧ Forall (λ s, 0 ≤ s) sizes2
  ∧ 65536 + sum_sizes sizes2 < U64.modulus
  ∧ ∃ w' evs (m : nat),
      create_and_map 0 driver_ok 0 4194304 65536 slots2 sizes2 2 w_init
      = Some (tt, w')
      ∧ trace w' = trace w_init ++ evs
      ∧ Forall (succeeded 0) (of_kind KCreate evs)
      ∧ Forall (succeeded 0) (of_kind KMap evs)
      ∧ m = length sizes2
      ∧ (of_kind KMap evs).*1
        = map_call 65536 (heap w') slots2 sizes2 <$> seq 0 m
      ∧ (∀ i e, of_kind KMap evs !! i = Some e →
           call_range e.1
           = Some (65536 + sum_sizes (take i sizes2), sizes2 !!! i))
      ∧ (∀ i e e' a s a' s',
           of_kind KMap evs !! i = Some e →
           of_kind KMap evs !! S i = Some e' →
           call_range e.1 = Some (a, s) →
           call_range e'.1 = Some (a', s') →
           a' = a + s)
      ∧ (∀ i j e e' a s a' s', (i < j)%nat →
           of_kind KMap evs !! i = Some e →
           of_kind KMap evs !! j = Some e' →
           call_range e.1 = Some (a, s) →
           call_range e'.1 = Some (a', s') →
           a + s ≤ a')
      ∧ (∀ x, 65536 ≤ x < 65536 + sum_sizes sizes2 ↔
              ∃ i e a s, of_kind KMap evs !! i = Some e ∧ succeeded 0 e
                       ∧ call_range e.1 = Some (a, s) ∧ a ≤ x < a + s).
Proof.
  assert (well_formed slots2 sizes2 2) as Hwf by (repeat split; done).
  assert (Forall (λ s, 0 ≤ s) sizes2) as Hnonneg
    by (repeat constructor; lia).
  assert (65536 + sum_sizes sizes2 < U64.modulus) as Hfit
    by (vm_compute; reflexivity).
  split; [exact Hwf|]. split; [lia|]. split; [exact Hnonneg|].
  split; [exact Hfit|].
  destruct (chunks_mapped_at_prefix_sums 0 driver_ok 0 4194304 65536
              slots2 sizes2 2 w_init Hwf)
    as (w' & evs & m & Hrun & Htr & Hm & Hcalls & Hoks & Hall & H).
  destruct (H ltac:(lia) Hnonneg Hfit) as (Hexact & Hcont & Hdisj & Hcover).
  assert (evs = [(cuCtxGetCurrent, Answer 0 1);
                 (sched_setaffinity 4242 (2 ^ 48 - 1), Answer 0 2);
                 (cuMemCreate 100 2097152 0, Answer 0 3);
                 (cuMemCreate 108 2097152 0, Answer 0 4);
                 (cuMemMap 65536 2097152 3, Answer 0 5);
                 (cuMemMap 2162688 2097152 4, Answer 0 6);
                 (cuMemSetAccess 65536 4194304 0, Answer 0 7)]) as Hevs.
  { vm_compute in Hrun. injection Hrun as <-. cbn in Htr. by rewrite <- Htr. }
  assert (Forall (succeeded 0) (of_kind KCreate evs)) as Hcs
    by (rewrite Hevs; vm_compute; repeat constructor).
  assert (Forall (succeeded 0) (of_kind KMap evs)) as Hms
    by (rewrite Hevs; vm_compute; repeat constructor).
  pose proof (Hall Hcs Hms) as Hfull.
  exists w', evs, m.
  split; [exact Hrun|]. split; [exact Htr|]. split; [exact Hcs|].
  split; [exact Hms|]. split; [exact Hfull|]. split; [exact Hcalls|].
  split; [exact Hexact|]. split; [exact Hcont|]. split; [exact Hdisj|].
  exact (Hcover Hfull Hms).
Defined.

(** C2 as stated fails: a base of 4096 with chunk sizes 2^63, 2^63 and 4096
    makes the running offset wrap around, so chunk 2 is mapped at 4096,
    which is not the base plus the sizes before it, and its interval lies
    inside the interval of chunk 0. *)
Lemma mapping_wraps_onto_first_chunk :
  ∃ w',
    create_and_map 0 driver_ok 0 4096 4096 [100; 108; 116]
      [2 ^ 63; 2 ^ 63; 4096] 3 w_init = Some (tt, w')
    ∧ (of_kind KMap (trace w')).*1
      = [cuMemMap 4096 (2 ^ 63) 3;
         cuMemMap (4096 + 2 ^ 63) (2 ^ 63) 4;
         cuMemMap 4096 4096 5]
    ∧ Forall (succeeded 0) (of_kind KMap (trace w'))
    ∧ 4096 ≠ 4096 + sum_sizes (take 2 [2 ^ 63; 2 ^ 63; 4096])
    ∧ ∃ x, 4096 ≤ x < 4096 + 2 ^ 63 ∧ 4096 ≤ x < 4096 + 4096.
Proof.
  eexists. split; [vm_compute; reflexivity|].
  split; [vm_compute; reflexivity|].
  split.
  { cbn [trace]. vm_compute of_kind. repeat constructor. }
  split; [vm_compute; discriminate|].
  exists 4096. lia.
Qed.

Lemma unmap_all_before_any_release_witness :
  well_formed slots2 sizes2 2
  ∧ (∀ i, (i < length slots2)%nat →
          is_Some (heap w_mapped !! (slots2 !!! i)))
  ∧ ∃ w' ctx us rs,
      unmap_and_release 0 driver_ok 0 4194304 65536
        slots2 sizes2 2 w_mapped = Some (tt, w')
      ∧ trace w' = trace w_mapped ++ ctx ++ us ++ rs
      ∧ Forall (λ e, kind e.1 = KContext) ctx
      ∧ us.*1 = unmap_call 65536 sizes2 <$> seq 0 (length us)
      ∧ rs.*1 = release_call (heap w_mapped) slots2 <$> seq 0 (length rs)
      ∧ (length us ≤ length sizes2)%nat
      ∧ (length rs ≤ length slots2)%nat
      ∧ (rs ≠ [] →
         length us = length sizes2 ∧ Forall (succeeded 0) us)
      ∧ (∀ i e, us !! i = Some e → (S i < length us)%nat → succeeded 0 e)
      ∧ (∀ i e, rs !! i = Some e → (S i < length rs)%nat → succeeded 0 e)
      ∧ (length us = length sizes2
         ∨ ∃ e, last us = Some e ∧ ¬ succeeded 0 e)
      ∧ (Forall (succeeded 0) us →
         length us = length sizes2
         ∧ (length rs = length slots2
            ∨ ∃ e, last rs = Some e ∧ ¬ succeeded 0 e))
      ∧ (∀ device0 size0 w0 w0' evs0 i c c',
           create_and_map 0 driver_ok device0 size0 65536 slots2 sizes2
             2 w0 = Some (tt, w0') →
           trace w0' = trace w0 ++ evs0 →
           (of_kind KMap evs0).*1 !! i = Some c → us.*1 !! i = Some c' →
           call_range c' = call_range c).
Proof.
  assert (well_formed slots2 sizes2 2) as Hwf
    by (repeat split; done).
  assert (∀ i, (i < length slots2)%nat →
               is_Some (heap w_mapped !! (slots2 !!! i))) as Hslots.
  { intros [|[|i]] Hi; [by eexists|by eexists|cbn in Hi; lia]. }
  split; [exact Hwf|]. split; [exact Hslots|].
  exact (unmap_all_before_any_release 0 driver_ok 0 4194304 65536
           slots2 sizes2 2 w_mapped Hwf Hslots).
Defined.

(** The run of the witness: two unmapping calls, then two release calls. *)
Example unmap_and_release_two_chunks :
  trace <$> (snd <$> unmap_and_release 0 driver_ok 0 4194304 65536
                       slots2 sizes2 2 w_mapped)
  = Some [(cuCtxGetCurrent, Answer 0 1);
          (cuMemUnmap 65536 2097152, Answer 0 2);
          (cuMemUnmap 2162688 2097152, Answer 0 3);
          (cuMemRelease 3, Answer 0 4);
          (cuMemRelease 4, Answer 0 5)].
Proof. vm_compute. reflexivity. Qed.

Lemma create_failure_keeps_earlier_handles_witness :
  ∃ w' evs e,
    well_formed slots5 sizes5 5
    ∧ create_and_map 0 (driver_failing (creates_slot 116)) 0 10485760 65536
        slots5 sizes5 5 w_init = Some (tt, w')
    ∧ trace w' = trace w_init ++ evs
    ∧ of_kind KCreate evs !! 2%nat = Some e ∧ ¬ succeeded 0 e
    ∧ Z.of_nat 2 < 5
    ∧ last evs = Some e
    ∧ (of_kind KCreate evs).*1 = create_call 0 slots5 sizes5 <$> seq 0 3
    ∧ (∀ i e', (i < 2)%nat → of_kind KCreate evs !! i = Some e' →
         succeeded 0 e'
         ∧ (NoDup slots5 → heap w' !! (slots5 !!! i) = Some (out e'.2)))
    ∧ of_kind KMap evs = [] ∧ of_kind KAccess evs = []
    ∧ of_kind KUnmap evs = [] ∧ of_kind KRelease evs = [].
Proof.
  assert (well_formed slots5 sizes5 5) as Hwf by (repeat split; done).
  destruct (create_failure_keeps_earlier_handles 0
              (driver_failing (creates_slot 116)) 0 10485760 65536
              slots5 sizes5 5 w_init Hwf) as (w' & evs & Hrun & Htr & H).
  exists w', evs, (cuMemCreate 116 2097152 0, Answer 1 0).
  split; [exact Hwf|]. split; [exact Hrun|]. split; [exact Htr|].
  assert (evs = [(cuCtxGetCurrent, Answer 0 1);
                 (sched_setaffinity 4242 (2 ^ 48 - 1), Answer 0 2);
                 (cuMemCreate 100 2097152 0, Answer 0 3);
                 (cuMemCreate 108 2097152 0, Answer 0 4);
                 (cuMemCreate 116 2097152 0, Answer 1 0)]) as Hevs.
  { vm_compute in Hrun. injection Hrun as <-. cbn in Htr. by rewrite <- Htr. }
  assert (of_kind KCreate evs !! 2%nat
          = Some (cuMemCreate 116 2097152 0, Answer 1 0)) as Hk
    by (rewrite Hevs; vm_compute; reflexivity).
  assert (¬ succeeded 0 (cuMemCreate 116 2097152 0, Answer 1 0)) as Hfail
    by (vm_compute; discriminate).
  split; [exact Hk|]. split; [exact Hfail|].
  exact (H 2%nat _ Hk Hfail).
Defined.

(** C5 fails on the code: when [cuCtxGetCurrent] fails, [ensure_context]
    returns to [create_and_map], which goes on to set the affinity, create
    the handle, map it and grant access. *)
Theorem create_and_map_continues_after_context_failure :
  ∃ w',
    create_and_map 0 (driver_failing is_get_current) 0 2097152 65536
      [100] [2097152] 1 w_init = Some (tt, w')
    ∧ trace w'
      = [(cuCtxGetCurrent, Answer 1 0);
         (sched_setaffinity 4242 (2 ^ 48 - 1), Answer 0 2);
         (cuMemCreate 100 2097152 0, Answer 0 3);
         (cuMemMap 65536 2097152 3, Answer 0 4);
         (cuMemSetAccess 65536 2097152 0, Answer 0 5)].
Proof. eexists. split; vm_compute; reflexivity. Qed.

Lemma map_failure_keeps_earlier_mappings_witness :
  ∃ w' evs e,
    well_formed slots5 sizes5 5
    ∧ create_and_map 0 (driver_failing (maps_at 4259840)) 0 10485760 65536
        slots5 sizes5 5 w_init = Some (tt, w')
    ∧ trace w' = trace w_init ++ evs
    ∧ of_kind KMap evs !! 2%nat = Some e ∧ ¬ succeeded 0 e
    ∧ Z.of_nat 2 < 5
    ∧ last evs = Some e
    ∧ (of_kind KCreate evs).*1
      = create_call 0 slots5 sizes5 <$> seq 0 (length slots5)
    ∧ Forall (succeeded 0) (of_kind KCreate evs)
    ∧ (∀ i e', of_kind KCreate evs !! i = Some e' → NoDup slots5 →
         heap w' !! (slots5 !!! i) = Some (out e'.2))
    ∧ (of_kind KMap evs).*1
      = map_call 65536 (heap w') slots5 sizes5 <$> seq 0 3
    ∧ (∀ i e', (i < 2)%nat → of_kind KMap evs !! i = Some e' →
         succeeded 0 e')
    ∧ of_kind KAccess evs = []
    ∧ of_kind KUnmap evs = [] ∧ of_kind KRelease evs = [].
Proof.
  assert (well_formed slots5 sizes5 5) as Hwf by (repeat split; done).
  destruct (map_failure_keeps_earlier_mappings 0
              (driver_failing (maps_at 4259840)) 0 10485760 65536
              slots5 sizes5 5 w_init Hwf) as (w' & evs & Hrun & Htr & H).
  exists w', evs, (cuMemMap 4259840 2097152 5, Answer 1 0).
  split; [exact Hwf|]. split; [exact Hrun|]. split; [exact Htr|].
  assert (evs = [(cuCtxGetCurrent, Answer 0 1);
                 (sched_setaffinity 4242 (2 ^ 48 - 1), Answer 0 2);
                 (cuMemCreate 100 2097152 0, Answer 0 3);
                 (cuMemCreate 108 2097152 0, Answer 0 4);
                 (cuMemCreate 116 2097152 0, Answer 0 5);
                 (cuMemCreate 124 2097152 0, Answer 0 6);
                 (cuMemCreate 132 2097152 0, Answer 0 7);
                 (cuMemMap 65536 2097152 3, Answer 0 8);
                 (cuMemMap 2162688 2097152 4, Answer 0 9);
                 (cuMemMap 4259840 2097152 5, Answer 1 0)]) as Hevs.
  { vm_compute in Hrun. injection Hrun as <-. cbn in Htr. by rewrite <- Htr. }
  assert (of_kind KMap evs !! 2%nat
          = Some (cuMemMap 4259840 2097152 5, Answer 1 0)) as Hj
    by (rewrite Hevs; vm_compute; reflexivity).
  assert (¬ succeeded 0 (cuMemMap 4259840 2097152 5, Answer 1 0)) as Hfail
    by (vm_compute; discriminate).
  split; [exact Hj|]. split; [exact Hfail|].
  exact (H 2%nat _ Hj Hfail).
Defined.

Lemma affinity_follows_device_half_witness :
  ∃ mask r,
    set_cpu_affinity_for_gpu driver_ok 5 w_init
    = Some (tt, MkWorld (tid w_init) (heap w_init)
                  (trace w_init ++ [(sched_setaffinity (tid w_init) mask, r)]))
    ∧ ((0 ≤ 5 ≤ 3 ∧ ∀ c, Z.testbit mask c = true ↔ 0 ≤ c < 48)
       ∨ (4 ≤ 5 ≤ 7 ∧ ∀ c, Z.testbit mask c = true ↔ 48 ≤ c < 96)).
Proof. apply (affinity_follows_device_half driver_ok 5 w_init). lia. Defined.

(** The two devices of the scenario: device 5 is bound to CPUs 48-95
    (mask 2^96 - 2^48) and device 2 to CPUs 0-47 (mask 2^48 - 1). *)
Example affinity_of_devices_5_and_2 :
  (trace <$> (snd <$> set_cpu_affinity_for_gpu driver_ok 5 w_init))
  = Some [(sched_setaffinity 4242 (2 ^ 96 - 2 ^ 48), Answer 0 1)]
  ∧ (trace <$> (snd <$> set_cpu_affinity_for_gpu driver_ok 2 w_init))
    = Some [(sched_setaffinity 4242 (2 ^ 48 - 1), Answer 0 1)].
Proof. split; vm_compute; reflexivity. Qed.

Lemma access_granted_once_after_all_mapped_witness :
  ∃ w' evs e,
    well_formed slots2 sizes2 2
    ∧ create_and_map 0 (driver_failing is_set_access) 0 4194304 65536
        slots2 sizes2 2 w_init = Some (tt, w')
    ∧ trace w' = trace w_init ++ evs
    ∧ of_kind KUnmap evs = [] ∧ of_kind KRelease evs = []
    ∧ Forall (succeeded 0) (of_kind KCreate evs)
    ∧ Forall (succeeded 0) (of_kind KMap evs)
    ∧ length (of_kind KAccess evs) = 1%nat
    ∧ e ∈ of_kind KAccess evs ∧ ¬ succeeded 0 e
    ∧ e.1 = cuMemSetAccess 65536 (U64.wrap 4194304) 0
    ∧ last evs = Some e
    ∧ (of_kind KMap evs).*1
      = map_call 65536 (heap w') slots2 sizes2 <$> seq 0 (length slots2)
    ∧ sum_sizes sizes2 = 4194304 ∧ 0 ≤ 65536
    ∧ Forall (λ s, 0 ≤ s) sizes2 ∧ 65536 + 4194304 < U64.modulus
    ∧ e.1 = cuMemSetAccess 65536 4194304 0
    ∧ ∀ x, 65536 ≤ x < 65536 + 4194304 ↔
           ∃ i m a s, of_kind KMap evs !! i = Some m ∧ succeeded 0 m
                    ∧ call_range m.1 = Some (a, s) ∧ a ≤ x < a + s.
Proof.
  assert (well_formed slots2 sizes2 2) as Hwf by (repeat split; done).
  assert (Forall (λ s, 0 ≤ s) sizes2) as Hnonneg
    by (repeat constructor; lia).
  destruct (access_granted_once_after_all_mapped 0
              (driver_failing is_set_access) 0 4194304 65536
              slots2 sizes2 2 w_init Hwf)
    as (w' & evs & Hrun & Htr & Hun & Hrel & Hone & Hall & H & Hcov).
  exists w', evs, (cuMemSetAccess 65536 4194304 0, Answer 1 0).
  split; [exact Hwf|]. split; [exact Hrun|]. split; [exact Htr|].
  split; [exact Hun|]. split; [exact Hrel|].
  assert (evs = [(cuCtxGetCurrent, Answer 0 1);
                 (sched_setaffinity 4242 (2 ^ 48 - 1), Answer 0 2);
                 (cuMemCreate 100 2097152 0, Answer 0 3);
                 (cuMemCreate 108 2097152 0, Answer 0 4);
                 (cuMemMap 65536 2097152 3, Answer 0 5);
                 (cuMemMap 2162688 2097152 4, Answer 0 6);
                 (cuMemSetAccess 65536 4194304 0, Answer 1 0)]) as Hevs.
  { vm_compute in Hrun. injection Hrun as <-. cbn in Htr. by rewrite <- Htr. }
  assert (Forall (succeeded 0) (of_kind KCreate evs)) as Hcs
    by (rewrite Hevs; vm_compute; repeat constructor).
  assert (Forall (succeeded 0) (of_kind KMap evs)) as Hms
    by (rewrite Hevs; vm_compute; repeat constructor).
  assert ((cuMemSetAccess 65536 4194304 0, Answer 1 0)
          ∈ of_kind KAccess evs) as Hin.
  { rewrite Hevs. vm_compute of_kind. apply list_elem_of_singleton.
    reflexivity. }
  split; [exact Hcs|]. split; [exact Hms|]. split; [exact (Hall Hcs Hms)|].
  split; [exact Hin|]. split; [vm_compute; discriminate|].
  destruct (H _ Hin) as (Hcall & Hlast & Hcalls & _).
  split; [exact Hcall|]. split; [exact Hlast|]. split; [exact Hcalls|].
  assert (sum_sizes sizes2 = 4194304) as Hsum by reflexivity.
  assert (65536 + 4194304 < U64.modulus) as Hfit by (vm_compute; reflexivity).
  split; [exact Hsum|]. split; [lia|]. split; [exact Hnonneg|].
  split; [exact Hfit|].
  exact (Hcov Hsum ltac:(lia) Hnonneg Hfit _ Hin).
Defined.

(** * Further properties of the code *)

(** ** The rounding and the chunk plan of [allocate_device_memory] *)

(** The plan computed when no round-up addition wraps around. *)
Lemma chunk_plan_exact size granularity :
  0 ≤ size → 0 < granularity → rounding_fits size granularity →
  Layout.chunk_plan size granularity
  = Some (Layout.Plan
            (ceil_div size granularity * granularity)
            (ceil_div CHUNK_BYTES granularity * granularity)
            (ceil_div (ceil_div size granularity * granularity)
                      (ceil_div CHUNK_BYTES granularity * granularity))
            (Layout.init_chunk_sizes
               (ceil_div size granularity * granularity)
               (ceil_div CHUNK_BYTES granularity * granularity)
               (ceil_div (ceil_div size granularity * granularity)
                         (ceil_div CHUNK_BYTES granularity * granularity)))).
Proof.
  intros Hs Hg (Hw1 & Hw2 & Hw3).
  pose proof (ceil_div_bounds size granularity Hg) as Hba.
  pose proof (ceil_div_bounds CHUNK_BYTES granularity Hg) as Hbc.
  pose proof (ceil_div_nonneg size granularity Hg Hs) as Hqa.
  assert (0 < CHUNK_BYTES) as Hcb by reflexivity.
  pose proof (ceil_div_pos CHUNK_BYTES granularity Hg Hcb) as Hqc.
  unfold Layout.chunk_plan.
  rewrite (align_up_exact size granularity) by lia. cbn.
  change (U64.mul (U64.mul Layout.CHUNK_SIZE_MB 1024) 1024) with CHUNK_BYTES.
  rewrite (align_up_exact CHUNK_BYTES granularity) by lia. cbn.
  rewrite count_chunks_exact by nia. reflexivity.
Qed.

(** X1: without wrap-around, [align_up] returns the least multiple of the
    granularity that is not below its argument: it adds less than one
    granule, leaves a multiple of the granularity unchanged, and rounding
    its result again changes nothing as long as that second round-up does
    not wrap around either. *)
Theorem align_up_least_multiple x g :
  0 ≤ x → 0 < g → x + g - 1 < U64.modulus →
  ∃ r, Layout.align_up x g = Some r
     ∧ x ≤ r < x + g ∧ r mod g = 0
     ∧ (∀ m, x ≤ m → m mod g = 0 → r ≤ m)
     ∧ (x mod g = 0 → r = x)
     ∧ (r + g - 1 < U64.modulus → Layout.align_up r g = Some r).
Proof.
  intros Hx Hg Hfit.
  pose proof (ceil_div_bounds x g Hg) as Hb.
  pose proof (ceil_div_nonneg x g Hg Hx) as Hq.
  exists (ceil_div x g * g).
  split; [by apply align_up_exact|].
  split; [nia|]. split; [apply Z_mod_mult|].
  assert (∀ m, x ≤ m → m mod g = 0 → ceil_div x g * g ≤ m) as Hleast.
  { intros m Hm Hmod.
    pose proof (Z.div_mod m g ltac:(lia)) as Hdm. rewrite Hmod in Hdm.
    assert (ceil_div x g ≤ m / g) by nia. nia. }
  split; [exact Hleast|].
  split.
  { intros Hmod. apply Z.le_antisymm; [apply Hleast; [lia|exact Hmod]|lia]. }
  intros Hfit2. rewrite align_up_exact by nia. f_equal.
  pose proof (ceil_div_bounds (ceil_div x g * g) g Hg) as [Hlo Hhi].
  apply Z.mul_lt_mono_pos_r in Hlo; [|exact Hg].
  apply Z.mul_le_mono_pos_r in Hhi; [|exact Hg].
  f_equal. lia.
Qed.

Lemma align_up_least_multiple_witness :
  0 ≤ 314572801 ∧ 0 < 2097152 ∧ 314572801 + 2097152 - 1 < U64.modulus
  ∧ ∃ r, Layout.align_up 314572801 2097152 = Some r
       ∧ 314572801 ≤ r < 314572801 + 2097152 ∧ r mod 2097152 = 0
       ∧ (∀ m, 314572801 ≤ m → m mod 2097152 = 0 → r ≤ m)
       ∧ (314572801 mod 2097152 = 0 → r = 314572801)
       ∧ (r + 2097152 - 1 < U64.modulus → Layout.align_up r 2097152 = Some r).
Proof.
  assert (314572801 + 2097152 - 1 < U64.modulus) as Hfit
    by (vm_compute; reflexivity).
  split; [lia|]. split; [lia|]. split; [exact Hfit|].
  apply (align_up_least_multiple 314572801 2097152); [lia|lia|exact Hfit].
Defined.

(** X2: without wrap-around, the chunk size of the plan is the 128 MiB
    rounded up by less than one granule, and every chunk of the plan has a
    size that is positive, at most the chunk size and a multiple of the
    granularity. *)
Theorem chunk_sizes_are_granules size granularity :
  0 < size → 0 < granularity → rounding_fits size granularity →
  ∃ p, Layout.chunk_plan size granularity = Some p
     ∧ CHUNK_BYTES ≤ Layout.aligned_chunk_size p < CHUNK_BYTES + granularity
     ∧ Layout.aligned_chunk_size p mod granularity = 0
     ∧ Forall (λ s, 0 < s ≤ Layout.aligned_chunk_size p
                    ∧ s mod granularity = 0)
         (Layout.chunk_sizes p).
Proof.
  intros Hs Hg Hfit.
  rewrite (chunk_plan_exact size granularity) by (lia || done).
  destruct Hfit as (Hw1 & Hw2 & Hw3).
  set (a := ceil_div size granularity * granularity) in *.
  set (c := ceil_div CHUNK_BYTES granularity * granularity) in *.
  pose proof (ceil_div_bounds size granularity Hg) as Hba.
  pose proof (ceil_div_bounds CHUNK_BYTES granularity Hg) as Hbc.
  assert (0 < CHUNK_BYTES) as Hcb by reflexivity.
  assert (0 < c) as Hc by (subst c; nia).
  assert (U64.in_range a) as Ha by (unfold U64.in_range; subst a c; nia).
  pose proof (ceil_div_bounds a c Hc) as Hbn.
  pose proof (ceil_div_pos a c Hc ltac:(subst a; lia)) as Hn.
  eexists. split; [reflexivity|].
  cbn [Layout.aligned_chunk_size Layout.chunk_sizes].
  split; [subst c; nia|]. split; [subst c; apply Z_mod_mult|].
  unfold Layout.init_chunk_sizes. apply Forall_fmap, Forall_seqZ.
  intros i Hi. cbn.
  destruct (Z.eq_dec i (ceil_div a c - 1)) as [->|Hne].
  - rewrite chunk_size_at_last by (auto; lia).
    split; [nia|].
    rewrite Zminus_mod. subst a c.
    rewrite Z_mod_mult, Z.mul_assoc, Z_mod_mult. reflexivity.
  - rewrite chunk_size_at_inner by (try lia; unfold U64.in_range in *; nia).
    split; [lia|]. subst c. apply Z_mod_mult.
Qed.

Lemma chunk_sizes_are_granules_witness :
  0 < 314572800 ∧ 0 < 2097152 ∧ rounding_fits 314572800 2097152
  ∧ ∃ p, Layout.chunk_plan 314572800 2097152 = Some p
       ∧ CHUNK_BYTES ≤ Layout.aligned_chunk_size p < CHUNK_BYTES + 2097152
       ∧ Layout.aligned_chunk_size p mod 2097152 = 0
       ∧ Forall (λ s, 0 < s ≤ Layout.aligned_chunk_size p
                      ∧ s mod 2097152 = 0)
           (Layout.chunk_sizes p).
Proof.
  assert (rounding_fits 314572800 2097152) as Hfit
    by (unfold rounding_fits; vm_compute; repeat split; reflexivity).
  split; [lia|]. split; [lia|]. split; [exact Hfit|].
  apply (chunk_sizes_are_granules 314572800 2097152); [lia|lia|exact Hfit].
Defined.

(** X3: for every request with size + granularity at most 2^57 (128 PiB)
    no round-up addition wraps around and the plan has at least one chunk
    and at most [INT_MAX] chunks.  With any array of that many handle
    slots, [create_and_map] on the plan has defined behaviour, whatever the
    driver answers: its [int] loop counters do not overflow and it reads
    no array past its end.  So has [unmap_and_release], once every slot
    holds a value. *)
Theorem plan_fits_the_loop_counters size granularity :
  0 < size → 0 < granularity → size + granularity ≤ 2 ^ 57 →
  rounding_fits size granularity
  ∧ ∃ p, Layout.chunk_plan size granularity = Some p
       ∧ 1 ≤ Layout.num_chunks p ≤ INT_MAX
       ∧ ∀ slots : list Z,
           Z.of_nat (length slots) = Layout.num_chunks p →
           well_formed slots (Layout.chunk_sizes p) (Layout.num_chunks p)
           ∧ ∀ CUDA_SUCCESS driver device d_mem w,
               (∃ w',
                  create_and_map CUDA_SUCCESS driver device
                    (Layout.alignedSize p) d_mem slots (Layout.chunk_sizes p)
                    (Layout.num_chunks p) w = Some (tt, w'))
               ∧ ((∀ i, (i < length slots)%nat →
                        is_Some (heap w !! (slots !!! i))) →
                  ∃ w',
                    unmap_and_release CUDA_SUCCESS driver device
                      (Layout.alignedSize p) d_mem slots
                      (Layout.chunk_sizes p) (Layout.num_chunks p) w
                    = Some (tt, w')).
Proof.
  intros Hs Hg Hsmall.
  pose proof (ceil_div_bounds size granularity Hg) as Hba.
  pose proof (ceil_div_bounds CHUNK_BYTES granularity Hg) as Hbc.
  assert (0 < CHUNK_BYTES) as Hcb by reflexivity.
  assert (CHUNK_BYTES = 2 ^ 27) as Hcv by reflexivity.
  assert (U64.modulus = 2 ^ 64) as Hmod by reflexivity.
  assert (rounding_fits size granularity) as Hfit.
  { unfold rounding_fits. rewrite Hmod. repeat split; nia. }
  split; [exact Hfit|].
  rewrite (chunk_plan_exact size granularity) by (lia || done).
  set (a := ceil_div size granularity * granularity) in *.
  set (c := ceil_div CHUNK_BYTES granularity * granularity) in *.
  assert (0 < c) as Hc by (subst c; nia).
  pose proof (ceil_div_bounds a c Hc) as Hbn.
  pose proof (ceil_div_pos a c Hc ltac:(subst a; lia)) as Hn.
  assert (ceil_div a c ≤ INT_MAX) as Hmax.
  { assert (INT_MAX = 2 ^ 31 - 1) as -> by reflexivity.
    assert (a < 2 ^ 57) by (subst a; lia).
    assert (2 ^ 27 ≤ c) by (subst c; lia).
    assert ((ceil_div a c - 1) * 2 ^ 27 < 2 ^ 57) by nia. lia. }
  eexists. split; [reflexivity|].
  cbn [Layout.num_chunks Layout.chunk_sizes Layout.alignedSize].
  split; [lia|]. intros slots Hslots.
  assert (well_formed slots (Layout.init_chunk_sizes a c (ceil_div a c))
            (ceil_div a c)) as Hwf.
  { split; [exact Hslots|]. split; [|exact Hmax].
    unfold Layout.init_chunk_sizes. rewrite length_fmap, length_seqZ. lia. }
  split; [exact Hwf|].
  intros CUDA_SUCCESS driver device d_mem w. split.
  - destruct (create_and_map_run CUDA_SUCCESS driver device a d_mem slots
                _ _ w Hwf) as (w' & _ & _ & Hrun & _).
    by exists w'.
  - intros Hfilled.
    destruct (unmap_and_release_run CUDA_SUCCESS driver device a d_mem slots
                _ _ w Hwf Hfilled) as (w' & _ & _ & _ & Hrun & _).
    by exists w'.
Qed.

Lemma plan_fits_the_loop_counters_witness :
  0 < 128849018880 ∧ 0 < 2097152 ∧ 128849018880 + 2097152 ≤ 2 ^ 57
  ∧ rounding_fits 128849018880 2097152
  ∧ ∃ p, Layout.chunk_plan 128849018880 2097152 = Some p
       ∧ 1 ≤ Layout.num_chunks p ≤ INT_MAX
       ∧ ∀ slots : list Z,
           Z.of_nat (length slots) = Layout.num_chunks p →
           well_formed slots (Layout.chunk_sizes p) (Layout.num_chunks p)
           ∧ ∀ CUDA_SUCCESS driver device d_mem w,
               (∃ w',
                  create_and_map CUDA_SUCCESS driver device
                    (Layout.alignedSize p) d_mem slots (Layout.chunk_sizes p)
                    (Layout.num_chunks p) w = Some (tt, w'))
               ∧ ((∀ i, (i < length slots)%nat →
                        is_Some (heap w !! (slots !!! i))) →
                  ∃ w',
                    unmap_and_release CUDA_SUCCESS driver device
                      (Layout.alignedSize p) d_mem slots
                      (Layout.chunk_sizes p) (Layout.num_chunks p) w
                    = Some (tt, w')).
Proof.
  split; [lia|]. split; [lia|]. split; [lia|].
  apply (plan_fits_the_loop_counters 128849018880 2097152); lia.
Defined.

(** X4: a request of 0 bytes is planned as an aligned size of 0 with no
    chunk at all (whatever the granularity, as long as rounding the 128 MiB
    does not wrap around). *)
Theorem empty_request_has_no_chunk granularity :
  0 < granularity → CHUNK_BYTES + granularity - 1 < U64.modulus →
  ∃ c, Layout.chunk_plan 0 granularity = Some (Layout.Plan 0 c 0 [])
     ∧ CHUNK_BYTES ≤ c.
Proof.
  intros Hg Hfit.
  pose proof (ceil_div_bounds CHUNK_BYTES granularity Hg) as Hbc.
  pose proof (ceil_div_bounds 0 granularity Hg) as Hb0.
  assert (0 < CHUNK_BYTES) as Hcb by reflexivity.
  assert (ceil_div 0 granularity = 0) as Hz by nia.
  assert (rounding_fits 0 granularity) as Hrf.
  { unfold rounding_fits. rewrite Hz. repeat split; nia. }
  rewrite (chunk_plan_exact 0 granularity) by (lia || done).
  rewrite Hz. rewrite Z.mul_0_l.
  set (c := ceil_div CHUNK_BYTES granularity * granularity) in *.
  assert (0 < c) as Hc by (subst c; nia).
  pose proof (ceil_div_bounds 0 c Hc) as Hb.
  assert (ceil_div 0 c = 0) as -> by nia.
  exists c. split; [reflexivity|]. subst c. nia.
Qed.

Lemma empty_request_has_no_chunk_witness :
  0 < 2097152 ∧ CHUNK_BYTES + 2097152 - 1 < U64.modulus
  ∧ ∃ c, Layout.chunk_plan 0 2097152 = Some (Layout.Plan 0 c 0 [])
       ∧ CHUNK_BYTES ≤ c.
Proof.
  assert (CHUNK_BYTES + 2097152 - 1 < U64.modulus) as Hfit
    by (vm_compute; reflexivity).
  split; [lia|]. split; [exact Hfit|].
  apply (empty_request_has_no_chunk 2097152); [lia|exact Hfit].
Defined.

(** X5: when the addition of a round-up wraps around, the quotient is 0:
    [align_up] returns 0 for any value within one granule of 2^64, and
    [count_chunks] returns 0 chunks for any aligned size within one chunk of
    2^64. *)
Theorem wrapped_round_up_is_zero x g :
  U64.in_range x → U64.in_range g → 0 < g → U64.modulus ≤ x + g - 1 →
  Layout.align_up x g = Some 0 ∧ Layout.count_chunks x g = Some 0.
Proof.
  intros [Hx0 Hx1] [_ Hg1] Hg Hwrap.
  assert (U64.wrap (x + g - 1) = x + g - 1 - U64.modulus) as Hnum.
  { unfold U64.wrap. symmetry. apply (Z.mod_unique_pos _ _ 1); lia. }
  assert ((x + g - 1 - U64.modulus) / g = 0) as Hq
    by (apply Z.div_small; lia).
  unfold Layout.align_up, Layout.count_chunks.
  rewrite round_up_numerator, Hnum. unfold U64.div.
  destruct (Z.eqb_spec g 0) as [->|_]; [lia|]. cbn. rewrite Hq.
  split; reflexivity.
Qed.

Lemma wrapped_round_up_is_zero_witness :
  U64.in_range 18446744073709551615 ∧ U64.in_range 2097152 ∧ 0 < 2097152
  ∧ U64.modulus ≤ 18446744073709551615 + 2097152 - 1
  ∧ Layout.align_up 18446744073709551615 2097152 = Some 0
  ∧ Layout.count_chunks 18446744073709551615 2097152 = Some 0.
Proof.
  assert (U64.in_range 18446744073709551615) as Hx
    by (vm_compute; split; [discriminate|reflexivity]).
  assert (U64.in_range 2097152) as Hg
    by (vm_compute; split; [discriminate|reflexivity]).
  assert (U64.modulus ≤ 18446744073709551615 + 2097152 - 1) as Hw
    by (vm_compute; discriminate).
  split; [exact Hx|]. split; [exact Hg|]. split; [lia|]. split; [exact Hw|].
  apply (wrapped_round_up_is_zero 18446744073709551615 2097152);
    [exact Hx|exact Hg|lia|exact Hw].
Defined.

(** ** [create_and_map] and [unmap_and_release] *)

Section ProtocolExtras.

Variable CUDA_SUCCESS : CUresult.
Variable driver : list Event → Call → Response.

Abbreviation succeeded := (succeeded CUDA_SUCCESS).
Abbreviation ran := (ran CUDA_SUCCESS).
Abbreviation phase := (phase CUDA_SUCCESS).

(** X7: with distinct handle slots, every mapping call of [create_and_map]
    names the handle that the creation call of the same chunk was answered
    with, and the size that the chunk was created with. *)
Theorem chunks_mapped_with_their_own_handle
    device size d_mem P C num_chunks w :
  well_formed P C num_chunks → NoDup P →
  ∃ w' evs,
    create_and_map CUDA_SUCCESS driver device size d_mem P C num_chunks w
    = Some (tt, w')
    ∧ trace w' = trace w ++ evs
    ∧ ∀ i m, of_kind KMap evs !! i = Some m →
        ∃ slot sz a e,
          of_kind KCreate evs !! i = Some e
          ∧ succeeded e
          ∧ e.1 = cuMemCreate slot sz device
          ∧ m.1 = cuMemMap a sz (out e.2).
Proof.
  intros Hwf Hnd.
  destruct (create_and_map_run CUDA_SUCCESS driver device size d_mem
              P C num_chunks w Hwf)
    as (w' & pre & evs & Hrun & Htid & Htr & Hpre & Hev).
  destruct Hwf as (HP & HC & Hmax).
  exists w', (pre ++ evs). split; [exact Hrun|]. split; [exact Htr|].
  rewrite !of_kind_app, !(of_kind_prelude _ pre) by done. cbn [app].
  assert (∀ cs ms : list Event,
    ran (create_call device P C) (length P) cs →
    (∀ i m, ms !! i = Some m →
       (i < length P)%nat
       ∧ m.1 = map_call d_mem (stored (heap w) P cs) P C i) →
    ∀ i m, ms !! i = Some m →
      ∃ slot sz a e, cs !! i = Some e ∧ succeeded e
        ∧ e.1 = cuMemCreate slot sz device
        ∧ m.1 = cuMemMap a sz (out e.2)) as Hown.
  { intros cs ms Hran Hms i m Hm.
    destruct (Hms i m Hm) as [Hi ->].
    destruct Hran as [Hlen Hev'].
    destruct (lookup_lt_is_Some_2 cs i ltac:(lia)) as [e He].
    destruct (Hev' i e He) as [Hcall Hsucc].
    exists (P !!! i), (C !!! i), (chunk_addr d_mem C i), e.
    split; [exact He|]. split; [exact Hsucc|]. split; [exact Hcall|].
    unfold map_call. f_equal. apply lookup_total_correct.
    eapply stored_lookup; [exact Hnd| |exact He].
    apply lookup_total_of_lt. lia. }
  destruct Hev as [oks cs Hph|cs oks ms Hran Hph|cs ms r Hran Hranm].
  - pose proof (phase_kind _ _ _ _ _ _ KCreate
                  (create_call_kind device P C) Hph) as Hkind.
    rewrite (of_kind_other _ KCreate cs) by done.
    intros i m Hm. by rewrite lookup_nil in Hm.
  - pose proof (ran_kind _ _ _ _ KCreate (create_call_kind device P C) Hran)
      as Hkc.
    pose proof (phase_kind _ _ _ _ _ _ KMap
                  (map_call_kind d_mem _ P C) Hph) as Hkm.
    destruct (phase_calls _ _ _ _ _ _ Hph) as (Hcalls & Hle & _).
    rewrite !of_kind_app, (of_kind_same _ _ Hkc), (of_kind_same _ _ Hkm),
      (of_kind_other _ KCreate cs), (of_kind_other _ KMap ms), app_nil_r
      by done. cbn [app].
    apply (Hown cs ms Hran). intros i m Hm.
    pose proof (lookup_lt_Some _ _ _ Hm) as Hi.
    split; [lia|].
    assert (ms.*1 !! i = Some m.1) as Hm1
      by (by rewrite list_lookup_fmap, Hm).
    rewrite Hcalls, list_lookup_fmap, lookup_seq_lt in Hm1 by lia.
    cbn in Hm1. by injection Hm1.
  - pose proof (ran_kind _ _ _ _ KCreate (create_call_kind device P C) Hran)
      as Hkc.
    pose proof (ran_kind _ _ _ _ KMap (map_call_kind d_mem _ P C) Hranm)
      as Hkm.
    set (grant := (cuMemSetAccess d_mem (U64.wrap size) device, r)).
    assert (Forall (λ e : Event, kind e.1 = KAccess) [grant]) as Hka
      by by apply Forall_singleton.
    rewrite !of_kind_app, (of_kind_same _ _ Hkc), (of_kind_same _ _ Hkm),
      (of_kind_other _ KCreate cs), (of_kind_other _ KMap ms),
      !(of_kind_other _ KAccess [grant]), !app_nil_r by done. cbn [app].
    apply (Hown cs ms Hran). intros i m Hm.
    destruct Hranm as [Hlen Hev']. pose proof (lookup_lt_Some _ _ _ Hm).
    split; [lia|]. by destruct (Hev' i m Hm).
Qed.

(** X8: the calls of [create_and_map] come in phases: the context and
    affinity calls, then all creation calls, then all mapping calls, then
    the access grant.  Whatever the context and affinity calls answered, the
    creation of chunk 0 is attempted when there is a chunk; a mapping call
    is made only after all [num_chunks] creations succeeded. *)
Theorem creations_precede_mappings
    device size d_mem P C num_chunks w :
  well_formed P C num_chunks →
  ∃ w' pre cs ms gs,
    create_and_map CUDA_SUCCESS driver device size d_mem P C num_chunks w
    = Some (tt, w')
    ∧ trace w' = trace w ++ pre ++ cs ++ ms ++ gs
    ∧ Forall is_prelude pre
    ∧ Forall (λ e, kind e.1 = KCreate) cs
    ∧ Forall (λ e, kind e.1 = KMap) ms
    ∧ Forall (λ e, kind e.1 = KAccess) gs
    ∧ (0 < num_chunks →
       ∃ e, cs !! 0%nat = Some e ∧ e.1 = create_call device P C 0)
    ∧ (ms ≠ [] →
       Z.of_nat (length cs) = num_chunks ∧ Forall succeeded cs).
Proof.
  intros Hwf.
  destruct (create_and_map_run CUDA_SUCCESS driver device size d_mem
              P C num_chunks w Hwf)
    as (w' & pre & evs & Hrun & Htid & Htr & Hpre & Hev).
  destruct Hwf as (HP & HC & Hmax).
  assert (∀ cs : list Event,
    cs.*1 = create_call device P C <$> seq 0 (length cs) →
    cs ≠ [] →
    ∃ e, cs !! 0%nat = Some e ∧ e.1 = create_call device P C 0) as Hfirst.
  { intros [|e cs] Hcalls Hne; [done|]. exists e. split; [done|].
    cbn in Hcalls. by injection Hcalls. }
  destruct Hev as [oks cs Hph|cs oks ms Hran Hph|cs ms r Hran Hranm].
  - pose proof (phase_kind _ _ _ _ _ _ KCreate
                  (create_call_kind device P C) Hph) as Hkind.
    destruct (phase_calls _ _ _ _ _ _ Hph) as (Hcalls & _ & _).
    destruct (phase_stopped _ _ _ _ _ Hph) as (k & r & _ & _ & Hcs & _).
    exists w', pre, cs, [], [].
    split; [exact Hrun|]. split; [by rewrite Htr, !app_nil_r|].
    split; [exact Hpre|]. split; [exact Hkind|].
    split; [done|]. split; [done|].
    split; [|done]. intros _. apply Hfirst; [exact Hcalls|].
    rewrite Hcs. by destruct oks.
  - pose proof (ran_kind _ _ _ _ KCreate (create_call_kind device P C) Hran)
      as Hkc.
    pose proof (phase_kind _ _ _ _ _ _ KMap
                  (map_call_kind d_mem _ P C) Hph) as Hkm.
    destruct (ran_calls _ _ _ _ Hran) as [Hcalls Hok].
    pose proof (ran_length _ _ _ _ Hran) as Hlen.
    exists w', pre, cs, ms, [].
    split; [exact Hrun|]. split; [by rewrite Htr, !app_nil_r|].
    split; [exact Hpre|]. split; [exact Hkc|]. split; [exact Hkm|].
    split; [done|].
    split; [|intros _; split; [lia|exact Hok]].
    intros Hpos. apply Hfirst; [by rewrite Hlen|].
    intros ->. cbn in Hlen. lia.
  - pose proof (ran_kind _ _ _ _ KCreate (create_call_kind device P C) Hran)
      as Hkc.
    pose proof (ran_kind _ _ _ _ KMap (map_call_kind d_mem _ P C) Hranm)
      as Hkm.
    destruct (ran_calls _ _ _ _ Hran) as [Hcalls Hok].
    pose proof (ran_length _ _ _ _ Hran) as Hlen.
    exists w', pre, cs, ms, [(cuMemSetAccess d_mem (U64.wrap size) device, r)].
    split; [exact Hrun|]. split; [exact Htr|].
    split; [exact Hpre|]. split; [exact Hkc|]. split; [exact Hkm|].
    split; [by apply Forall_singleton|].
    split; [|intros _; split; [lia|exact Hok]].
    intros Hpos. apply Hfirst; [by rewrite Hlen|].
    intros ->. cbn in Hlen. lia.
Qed.

(** X9: [unmap_and_release] leaves the handles in their slots, so a second
    call repeats the first: it is defined again, and its i-th unmapping call
    and its i-th release call are the calls the first one made (the same
    range, the same handle). *)
Theorem second_teardown_repeats_the_first
    device size d_mem P C num_chunks w :
  well_formed P C num_chunks →
  (∀ i, (i < length P)%nat → is_Some (heap w !! (P !!! i))) →
  ∃ w1 ctx1 us1 rs1 w2 ctx2 us2 rs2,
    unmap_and_release CUDA_SUCCESS driver device size d_mem P C num_chunks w
    = Some (tt, w1)
    ∧ trace w1 = trace w ++ ctx1 ++ us1 ++ rs1
    ∧ heap w1 = heap w
    ∧ unmap_and_release CUDA_SUCCESS driver device size d_mem P C num_chunks
        w1 = Some (tt, w2)
    ∧ trace w2 = trace w1 ++ ctx2 ++ us2 ++ rs2
    ∧ Forall (λ e, kind e.1 = KContext) ctx1
    ∧ Forall (λ e, kind e.1 = KContext) ctx2
    ∧ Forall (λ e, kind e.1 = KUnmap) (us1 ++ us2)
    ∧ Forall (λ e, kind e.1 = KRelease) (rs1 ++ rs2)
    ∧ (∀ i c1 c2, us1.*1 !! i = Some c1 → us2.*1 !! i = Some c2 → c1 = c2)
    ∧ (∀ i c1 c2, rs1.*1 !! i = Some c1 → rs2.*1 !! i = Some c2 → c1 = c2).
Proof.
  intros Hwf Hslots.
  destruct (unmap_and_release_run CUDA_SUCCESS driver device size d_mem
              P C num_chunks w Hwf Hslots)
    as (w1 & ctx1 & us1 & rs1 & Hrun1 & _ & Hheap1 & Htr1 & Hctx1 & Hev1).
  assert (∀ i, (i < length P)%nat → is_Some (heap w1 !! (P !!! i)))
    as Hslots1 by (intros i Hi; rewrite Hheap1; by apply Hslots).
  destruct (unmap_and_release_run CUDA_SUCCESS driver device size d_mem
              P C num_chunks w1 Hwf Hslots1)
    as (w2 & ctx2 & us2 & rs2 & Hrun2 & _ & Hheap2 & Htr2 & Hctx2 & Hev2).
  rewrite Hheap1 in Hev2.
  assert (∀ us rs,
    unmap_and_release_events CUDA_SUCCESS d_mem P C (length P) (heap w) us rs →
    us.*1 = unmap_call d_mem C <$> seq 0 (length us)
    ∧ rs.*1 = release_call (heap w) P <$> seq 0 (length rs)) as Hcalls.
  { intros us rs [oks us' Hph|us' oks rs' done Hran Hph].
    - by destruct (phase_calls _ _ _ _ _ _ Hph) as (? & _).
    - destruct (ran_calls _ _ _ _ Hran) as [Hu _].
      rewrite (ran_length _ _ _ _ Hran).
      by destruct (phase_calls _ _ _ _ _ _ Hph) as (? & _). }
  assert (∀ (f : nat → Call) (l1 l2 : list Event) i c1 c2,
    l1.*1 = f <$> seq 0 (length l1) → l2.*1 = f <$> seq 0 (length l2) →
    l1.*1 !! i = Some c1 → l2.*1 !! i = Some c2 → c1 = c2) as Hsame.
  { intros f l1 l2 i c1 c2 H1 H2 Hc1 Hc2.
    rewrite H1, list_lookup_fmap in Hc1. rewrite H2, list_lookup_fmap in Hc2.
    destruct (seq 0 (length l1) !! i) as [a|] eqn:Ha; [|done].
    destruct (seq 0 (length l2) !! i) as [b|] eqn:Hb; [|done].
    apply lookup_seq in Ha as [-> _]. apply lookup_seq in Hb as [-> _].
    cbn in Hc1, Hc2. congruence. }
  assert (∀ (f : nat → Call) (l : list Event) K,
    (∀ i, kind (f i) = K) → l.*1 = f <$> seq 0 (length l) →
    Forall (λ e, kind e.1 = K) l) as Hkinds.
  { intros f l K Hf Hl. apply Forall_lookup. intros i e He.
    assert (l.*1 !! i = Some e.1) as He1 by (by rewrite list_lookup_fmap, He).
    rewrite Hl, list_lookup_fmap in He1.
    destruct (seq 0 (length l) !! i) as [a|]; [|done].
    cbn in He1. injection He1 as <-. apply Hf. }
  destruct (Hcalls _ _ Hev1) as [Hu1 Hr1].
  destruct (Hcalls _ _ Hev2) as [Hu2 Hr2].
  exists w1, ctx1, us1, rs1, w2, ctx2, us2, rs2.
  split; [exact Hrun1|]. split; [exact Htr1|]. split; [exact Hheap1|].
  split; [exact Hrun2|]. split; [exact Htr2|].
  split; [exact Hctx1|]. split; [exact Hctx2|].
  split.
  { apply Forall_app. split;
      by apply (Hkinds (unmap_call d_mem C)). }
  split.
  { apply Forall_app. split;
      by apply (Hkinds (release_call (heap w) P)). }
  split.
  - intros i c1 c2. by apply (Hsame (unmap_call d_mem C)).
  - intros i c1 c2. by apply (Hsame (release_call (heap w) P)).
Qed.

(** X10: [unmap_and_release] stops at its first failing call: a failed
    unmapping call is the last unmapping call and no handle is released; a
    failed release call is the last call, the handles of the later chunks
    are not released.  In every case the handle slots are left as they
    were. *)
Theorem teardown_stops_at_first_failure
    device size d_mem P C num_chunks w :
  well_formed P C num_chunks →
  (∀ i, (i < length P)%nat → is_Some (heap w !! (P !!! i))) →
  ∃ w' ctx us rs,
    unmap_and_release CUDA_SUCCESS driver device size d_mem P C num_chunks w
    = Some (tt, w')
    ∧ trace w' = trace w ++ ctx ++ us ++ rs
    ∧ heap w' = heap w
    ∧ Forall (λ e, kind e.1 = KContext) ctx
    ∧ Forall (λ e, kind e.1 = KUnmap) us
    ∧ Forall (λ e, kind e.1 = KRelease) rs
    ∧ (∀ k e, us !! k = Some e → ¬ succeeded e →
         length us = S k ∧ rs = [])
    ∧ (∀ k e, rs !! k = Some e → ¬ succeeded e → length rs = S k).
Proof.
  intros Hwf Hslots.
  destruct (unmap_and_release_run CUDA_SUCCESS driver device size d_mem
              P C num_chunks w Hwf Hslots)
    as (w' & ctx & us & rs & Hrun & _ & Hheap & Htr & Hctx & Hev).
  exists w', ctx, us, rs.
  split; [exact Hrun|]. split; [exact Htr|]. split; [exact Hheap|].
  split; [exact Hctx|].
  assert (∀ (f : nat → Call) n oks evs done k e,
    phase f n oks evs done → evs !! k = Some e → ¬ succeeded e →
    length evs = S k) as Hstop.
  { intros f n oks evs done k e [oks' Hran|k0 oks' r Hk0 Hran Hr] Hk Hfail.
    - exfalso. apply Hfail. destruct (ran_calls _ _ _ _ Hran) as [_ Hok].
      by eapply Forall_lookup_1.
    - destruct (ran_calls _ _ _ _ Hran) as [_ Hok].
      destruct (failure_is_last _ _ _ _ _ Hok Hk Hfail) as [-> _].
      rewrite length_app. cbn. lia. }
  destruct Hev as [oks us Hph|us oks rs done Hran Hph].
  - split; [by eapply phase_kind; [|exact Hph]|]. split; [done|].
    split; [|intros k e Hk; by rewrite lookup_nil in Hk].
    intros k e Hk Hfail. split; [|done]. by eapply Hstop.
  - split; [by eapply ran_kind; [|exact Hran]|].
    split; [by eapply phase_kind; [|exact Hph]|].
    split; [|intros k e Hk Hfail; by eapply Hstop].
    intros k e Hk Hfail. exfalso. apply Hfail.
    destruct (ran_calls _ _ _ _ Hran) as [_ Hok]. by eapply Forall_lookup_1.
Qed.

(** X11: round trip.  After a run of [create_and_map] that reached the
    access grant, with distinct handle slots, [unmap_and_release] on the
    same arguments is defined; its i-th unmapping call names the range of
    the i-th mapping call, and its i-th release call names the handle that
    the i-th creation call was answered with. *)
Theorem teardown_undoes_create_and_map
    device size d_mem P C num_chunks w :
  well_formed P C num_chunks → NoDup P →
  ∃ w1 evs,
    create_and_map CUDA_SUCCESS driver device size d_mem P C num_chunks w
    = Some (tt, w1)
    ∧ trace w1 = trace w ++ evs
    ∧ (of_kind KAccess evs ≠ [] →
       ∃ w2 ctx us rs,
         unmap_and_release CUDA_SUCCESS driver device size d_mem P C
           num_chunks w1 = Some (tt, w2)
         ∧ trace w2 = trace w1 ++ ctx ++ us ++ rs
         ∧ Forall (λ e, kind e.1 = KContext) ctx
         ∧ (∀ i u, us !! i = Some u →
              kind u.1 = KUnmap
              ∧ ∃ m, of_kind KMap evs !! i = Some m
                   ∧ call_range u.1 = call_range m.1)
         ∧ (∀ i r, rs !! i = Some r →
              ∃ e, of_kind KCreate evs !! i = Some e
                 ∧ r.1 = cuMemRelease (out e.2))).
Proof.
  intros Hwf Hnd.
  destruct (create_and_map_run CUDA_SUCCESS driver device size d_mem
              P C num_chunks w Hwf)
    as (w1 & pre & evs & Hrun & Htid & Htr & Hpre & Hev).
  exists w1, (pre ++ evs). split; [exact Hrun|]. split; [exact Htr|].
  rewrite !of_kind_app, !(of_kind_prelude _ pre) by done. cbn [app].
  remember (heap w1) as h1 eqn:Hheap in Hev.
  destruct Hev as [oks cs Hph|cs oks ms Hran Hph|cs ms r Hran Hranm].
  - pose proof (phase_kind _ _ _ _ _ _ KCreate
                  (create_call_kind device P C) Hph) as Hkind.
    rewrite !(of_kind_other _ KCreate cs) by done. done.
  - pose proof (ran_kind _ _ _ _ KCreate (create_call_kind device P C) Hran)
      as Hkc.
    pose proof (phase_kind _ _ _ _ _ _ KMap
                  (map_call_kind d_mem _ P C) Hph) as Hkm.
    rewrite !of_kind_app, !(of_kind_other _ KCreate cs),
      !(of_kind_other _ KMap ms) by done. done.
  - intros _.
    pose proof (ran_kind _ _ _ _ KCreate (create_call_kind device P C) Hran)
      as Hkc.
    pose proof (ran_kind _ _ _ _ KMap (map_call_kind d_mem _ P C) Hranm)
      as Hkm.
    set (grant := (cuMemSetAccess d_mem (U64.wrap size) device, r)).
    assert (Forall (λ e : Event, kind e.1 = KAccess) [grant]) as Hka
      by by apply Forall_singleton.
    rewrite !of_kind_app, (of_kind_same _ _ Hkc), (of_kind_same _ _ Hkm),
      (of_kind_other _ KCreate cs), (of_kind_other _ KMap ms),
      !(of_kind_other _ KAccess [grant]), !app_nil_r by done. cbn [app].
    pose proof (ran_length _ _ _ _ Hran) as Hlc.
    pose proof (ran_length _ _ _ _ Hranm) as Hlm.
    assert (∀ i, (i < length P)%nat → is_Some (heap w1 !! (P !!! i)))
      as Hslots.
    { intros i Hi. rewrite <- Hheap. eapply stored_is_Some.
      - by apply lookup_total_of_lt.
      - by rewrite Hlc. }
    destruct (unmap_and_release_run CUDA_SUCCESS driver device size d_mem
                P C num_chunks w1 Hwf Hslots)
      as (w2 & ctx & us & rs & Hrun2 & _ & _ & Htr2 & Hctx & Hev2).
    rewrite <- Hheap in Hev2.
    destruct Hwf as (HP & HC & Hmax).
    exists w2, ctx, us, rs.
    split; [exact Hrun2|]. split; [exact Htr2|]. split; [exact Hctx|].
    assert (us.*1 = unmap_call d_mem C <$> seq 0 (length us)
            ∧ (length us ≤ length P)%nat
            ∧ rs.*1 = release_call (stored (heap w) P cs) P
                        <$> seq 0 (length rs)
            ∧ (length rs ≤ length P)%nat) as (Hu & Hlu & Hr & Hlr).
    { destruct Hev2 as [oks us' Hph|us' oks rs' done Hranu Hph].
      - destruct (phase_calls _ _ _ _ _ _ Hph) as (? & ? & _).
        repeat split; (done || cbn; lia).
      - destruct (ran_calls _ _ _ _ Hranu) as [? _].
        rewrite (ran_length _ _ _ _ Hranu).
        destruct (phase_calls _ _ _ _ _ _ Hph) as (? & ? & _).
        repeat split; (done || lia). }
    split.
    + intros i u Hi. pose proof (lookup_lt_Some _ _ _ Hi) as Hlt.
      assert (us.*1 !! i = Some u.1) as Hu1
        by (by rewrite list_lookup_fmap, Hi).
      rewrite Hu, list_lookup_fmap, lookup_seq_lt in Hu1 by lia.
      cbn in Hu1. injection Hu1 as Hu1. rewrite <- Hu1.
      split; [reflexivity|].
      destruct (lookup_lt_is_Some_2 ms i ltac:(lia)) as [m Hm].
      exists m. split; [exact Hm|].
      destruct Hranm as [_ Hms]. destruct (Hms i m Hm) as [-> _].
      reflexivity.
    + intros i rel Hi. pose proof (lookup_lt_Some _ _ _ Hi) as Hlt.
      assert (rs.*1 !! i = Some rel.1) as Hr1
        by (by rewrite list_lookup_fmap, Hi).
      rewrite Hr, list_lookup_fmap, lookup_seq_lt in Hr1 by lia.
      cbn in Hr1. injection Hr1 as Hr1. rewrite <- Hr1.
      destruct (lookup_lt_is_Some_2 cs i ltac:(lia)) as [e He].
      exists e. split; [exact He|].
      unfold release_call. f_equal. apply lookup_total_correct.
      eapply stored_lookup; [exact Hnd| |exact He].
      apply lookup_total_of_lt. lia.
Qed.

(** X12: [set_cpu_affinity_for_gpu] has no upper bound on the device id:
    every id above 3, also one of 8 or more, is bound to exactly CPUs
    48-95. *)
Theorem devices_above_3_use_the_upper_half device w :
  3 < device →
  ∃ mask r,
    set_cpu_affinity_for_gpu driver device w
    = Some (tt, MkWorld (tid w) (heap w)
                  (trace w ++ [(sched_setaffinity (tid w) mask, r)]))
    ∧ ∀ c, Z.testbit mask c = true ↔ 48 ≤ c < 96.
Proof.
  intros Hdev.
  destruct (set_cpu_affinity_for_gpu_run driver device w) as [r Hrun].
  eexists _, r. split; [exact Hrun|].
  destruct (Z.leb_spec device 3); [lia|]. intros c.
  rewrite cpu_set_range_testbit by lia. rewrite Z.bits_0. cbn [orb].
  destruct (Z.leb_spec 48 c), (Z.ltb_spec c (48 + Z.of_nat 48)); cbn; split;
    (lia || done).
Qed.

End ProtocolExtras.

Lemma chunks_mapped_with_their_own_handle_witness :
  well_formed slots2 sizes2 2 ∧ NoDup slots2
  ∧ ∃ w' evs,
      create_and_map 0 driver_ok 0 4194304 65536 slots2 sizes2 2 w_init
      = Some (tt, w')
      ∧ trace w' = trace w_init ++ evs
      ∧ ∀ i m, of_kind KMap evs !! i = Some m →
          ∃ slot sz a e,
            of_kind KCreate evs !! i = Some e
            ∧ succeeded 0 e
            ∧ e.1 = cuMemCreate slot sz 0
            ∧ m.1 = cuMemMap a sz (out e.2).
Proof.
  assert (well_formed slots2 sizes2 2) as Hwf by (repeat split; done).
  assert (NoDup slots2) as Hnd by compute_done.
  split; [exact Hwf|]. split; [exact Hnd|].
  exact (chunks_mapped_with_their_own_handle 0 driver_ok 0 4194304 65536
           slots2 sizes2 2 w_init Hwf Hnd).
Defined.

Lemma creations_precede_mappings_witness :
  well_formed slots5 sizes5 5
  ∧ ∃ w' pre cs ms gs,
      create_and_map 0 (driver_failing is_get_current) 0 10485760 65536
        slots5 sizes5 5 w_init = Some (tt, w')
      ∧ trace w' = trace w_init ++ pre ++ cs ++ ms ++ gs
      ∧ Forall is_prelude pre
      ∧ Forall (λ e, kind e.1 = KCreate) cs
      ∧ Forall (λ e, kind e.1 = KMap) ms
      ∧ Forall (λ e, kind e.1 = KAccess) gs
      ∧ (0 < 5 →
         ∃ e, cs !! 0%nat = Some e ∧ e.1 = create_call 0 slots5 sizes5 0)
      ∧ (ms ≠ [] → Z.of_nat (length cs) = 5 ∧ Forall (succeeded 0) cs).
Proof.
  assert (well_formed slots5 sizes5 5) as Hwf by (repeat split; done).
  split; [exact Hwf|].
  exact (creations_precede_mappings 0 (driver_failing is_get_current)
           0 10485760 65536 slots5 sizes5 5 w_init Hwf).
Defined.

Lemma second_teardown_repeats_the_first_witness :
  well_formed slots2 sizes2 2
  ∧ (∀ i, (i < length slots2)%nat →
          is_Some (heap w_mapped !! (slots2 !!! i)))
  ∧ ∃ w1 ctx1 us1 rs1 w2 ctx2 us2 rs2,
      unmap_and_release 0 driver_ok 0 4194304 65536 slots2 sizes2 2 w_mapped
      = Some (tt, w1)
      ∧ trace w1 = trace w_mapped ++ ctx1 ++ us1 ++ rs1
      ∧ heap w1 = heap w_mapped
      ∧ unmap_and_release 0 driver_ok 0 4194304 65536 slots2 sizes2 2 w1
        = Some (tt, w2)
      ∧ trace w2 = trace w1 ++ ctx2 ++ us2 ++ rs2
      ∧ Forall (λ e, kind e.1 = KContext) ctx1
      ∧ Forall (λ e, kind e.1 = KContext) ctx2
      ∧ Forall (λ e, kind e.1 = KUnmap) (us1 ++ us2)
      ∧ Forall (λ e, kind e.1 = KRelease) (rs1 ++ rs2)
      ∧ (∀ i c1 c2, us1.*1 !! i = Some c1 → us2.*1 !! i = Some c2 → c1 = c2)
      ∧ (∀ i c1 c2, rs1.*1 !! i = Some c1 → rs2.*1 !! i = Some c2 → c1 = c2).
Proof.
  assert (well_formed slots2 sizes2 2) as Hwf by (repeat split; done).
  assert (∀ i, (i < length slots2)%nat →
               is_Some (heap w_mapped !! (slots2 !!! i))) as Hslots.
  { intros [|[|i]] Hi; [by eexists|by eexists|cbn in Hi; lia]. }
  split; [exact Hwf|]. split; [exact Hslots|].
  exact (second_teardown_repeats_the_first 0 driver_ok 0 4194304 65536
           slots2 sizes2 2 w_mapped Hwf Hslots).
Defined.

(** The two teardowns of the witness: handles 3 and 4 are released twice. *)
Example teardown_twice_releases_twice :
  ∃ w1,
    unmap_and_release 0 driver_ok 0 4194304 65536 slots2 sizes2 2 w_mapped
    = Some (tt, w1)
    ∧ (trace <$> (snd <$> unmap_and_release 0 driver_ok 0 4194304 65536
                            slots2 sizes2 2 w1))
      = Some [(cuCtxGetCurrent, Answer 0 1);
              (cuMemUnmap 65536 2097152, Answer 0 2);
              (cuMemUnmap 2162688 2097152, Answer 0 3);
              (cuMemRelease 3, Answer 0 4);
              (cuMemRelease 4, Answer 0 5);
              (cuCtxGetCurrent, Answer 0 6);
              (cuMemUnmap 65536 2097152, Answer 0 7);
              (cuMemUnmap 2162688 2097152, Answer 0 8);
              (cuMemRelease 3, Answer 0 9);
              (cuMemRelease 4, Answer 0 10)].
Proof. eexists. split; vm_compute; reflexivity. Qed.

Lemma teardown_stops_at_first_failure_witness :
  well_formed slots2 sizes2 2
  ∧ (∀ i, (i < length slots2)%nat →
          is_Some (heap w_mapped !! (slots2 !!! i)))
  ∧ ∃ w' ctx us rs,
      unmap_and_release 0 (driver_failing (unmaps_at 2162688)) 0 4194304
        65536 slots2 sizes2 2 w_mapped = Some (tt, w')
      ∧ trace w' = trace w_mapped ++ ctx ++ us ++ rs
      ∧ heap w' = heap w_mapped
      ∧ Forall (λ e, kind e.1 = KContext) ctx
      ∧ Forall (λ e, kind e.1 = KUnmap) us
      ∧ Forall (λ e, kind e.1 = KRelease) rs
      ∧ (∀ k e, us !! k = Some e → ¬ succeeded 0 e →
           length us = S k ∧ rs = [])
      ∧ (∀ k e, rs !! k = Some e → ¬ succeeded 0 e → length rs = S k).
Proof.
  assert (well_formed slots2 sizes2 2) as Hwf by (repeat split; done).
  assert (∀ i, (i < length slots2)%nat →
               is_Some (heap w_mapped !! (slots2 !!! i))) as Hslots.
  { intros [|[|i]] Hi; [by eexists|by eexists|cbn in Hi; lia]. }
  split; [exact Hwf|]. split; [exact Hslots|].
  exact (teardown_stops_at_first_failure 0
           (driver_failing (unmaps_at 2162688)) 0 4194304 65536
           slots2 sizes2 2 w_mapped Hwf Hslots).
Defined.

(** The run of the witness: the second unmapping fails, nothing is
    released. *)
Example teardown_with_failing_unmap :
  trace <$> (snd <$> unmap_and_release 0 (driver_failing (unmaps_at 2162688))
                       0 4194304 65536 slots2 sizes2 2 w_mapped)
  = Some [(cuCtxGetCurrent, Answer 0 1);
          (cuMemUnmap 65536 2097152, Answer 0 2);
          (cuMemUnmap 2162688 2097152, Answer 1 0)].
Proof. vm_compute. reflexivity. Qed.

Lemma teardown_undoes_create_and_map_witness :
  well_formed slots2 sizes2 2 ∧ NoDup slots2
  ∧ ∃ w1 evs,
      create_and_map 0 driver_ok 0 4194304 65536 slots2 sizes2 2 w_init
      = Some (tt, w1)
      ∧ trace w1 = trace w_init ++ evs
      ∧ of_kind KAccess evs ≠ []
      ∧ ∃ w2 ctx us rs,
          unmap_and_release 0 driver_ok 0 4194304 65536 slots2 sizes2 2 w1
          = Some (tt, w2)
          ∧ trace w2 = trace w1 ++ ctx ++ us ++ rs
          ∧ Forall (λ e, kind e.1 = KContext) ctx
          ∧ (∀ i u, us !! i = Some u →
               kind u.1 = KUnmap
               ∧ ∃ m, of_kind KMap evs !! i = Some m
                    ∧ call_range u.1 = call_range m.1)
          ∧ (∀ i r, rs !! i = Some r →
               ∃ e, of_kind KCreate evs !! i = Some e
                  ∧ r.1 = cuMemRelease (out e.2)).
Proof.
  assert (well_formed slots2 sizes2 2) as Hwf by (repeat split; done).
  assert (NoDup slots2) as Hnd by compute_done.
  split; [exact Hwf|]. split; [exact Hnd|].
  destruct (teardown_undoes_create_and_map 0 driver_ok 0 4194304 65536
              slots2 sizes2 2 w_init Hwf Hnd) as (w1 & evs & Hrun & Htr & H).
  exists w1, evs. split; [exact Hrun|]. split; [exact Htr|].
  assert (of_kind KAccess evs ≠ []) as Hgrant.
  { assert (evs = [(cuCtxGetCurrent, Answer 0 1);
                   (sched_setaffinity 4242 (2 ^ 48 - 1), Answer 0 2);
                   (cuMemCreate 100 2097152 0, Answer 0 3);
                   (cuMemCreate 108 2097152 0, Answer 0 4);
                   (cuMemMap 65536 2097152 3, Answer 0 5);
                   (cuMemMap 2162688 2097152 4, Answer 0 6);
                   (cuMemSetAccess 65536 4194304 0, Answer 0 7)]) as ->.
    { vm_compute in Hrun. injection Hrun as <-. cbn in Htr.
      by rewrite <- Htr. }
    vm_compute. discriminate. }
  split; [exact Hgrant|]. exact (H Hgrant).
Defined.

Lemma devices_above_3_use_the_upper_half_witness :
  3 < 9
  ∧ ∃ mask r,
      set_cpu_affinity_for_gpu driver_ok 9 w_init
      = Some (tt, MkWorld (tid w_init) (heap w_init)
                    (trace w_init ++ [(sched_setaffinity (tid w_init) mask, r)]))
      ∧ ∀ c, Z.testbit mask c = true ↔ 48 ≤ c < 96.
Proof.
  split; [lia|].
  apply (devices_above_3_use_the_upper_half driver_ok 9 w_init). lia.
Defined.

(** ** [allocate_device_memory] and [free_device_memory] *)

Lemma compare_data_spec : ∀ n expected h_result,
  (n ≤ length expected)%nat → (n ≤ length h_result)%nat →
  compare_data n expected h_result
  = Some (bool_decide (take n expected = take n h_result)).
Proof.
  induction n as [|n IH]; intros expected h_result He Hr; [done|].
  destruct expected as [|a expected]; [cbn in He; lia|].
  destruct h_result as [|b h_result]; [cbn in Hr; lia|].
  cbn [compare_data take]. cbn in He, Hr.
  destruct (Z.eqb_spec a b) as [->|Hne].
  - rewrite IH by lia. f_equal. apply bool_decide_ext.
    split; [by intros ->|]. by intros [= ->].
  - f_equal. symmetry. apply bool_decide_eq_false. by intros [= ->].
Qed.

Lemma compare_data_full expected h_result :
  length h_result = length expected →
  compare_data (length expected) expected h_result
  = Some (bool_decide (h_result = expected)).
Proof.
  intros Hlen.
  rewrite compare_data_spec by lia.
  rewrite firstn_all, <- Hlen, firstn_all. f_equal.
  apply bool_decide_ext. split; congruence.
Qed.

Lemma length_test_pattern n : ∀ i, length (test_pattern n i) = n.
Proof. induction n as [|n IH]; intros i; [done|]. cbn. by rewrite IH. Qed.

Lemma length_h_data : length h_data = Z.to_nat test_words.
Proof. apply length_test_pattern. Qed.

Section HostFacts.

Variable CUDA_SUCCESS : CUresult.
Variable hipSuccess : CUresult.
Variable handle_size : Z.
Variable driver : list HostEvent → list Event → Call → Response.
Variable host : list Event → list HostEvent → HostCall → HostResponse.

Lemma host_bind_defined {A B} (a : A) (k : A → HM B) h :
  host_bind (defined (Some a)) k h = k a h.
Proof. reflexivity. Qed.

Lemma host_bind_defined_cases {A B} (o : option A) (k : A → HM B) h :
  host_bind (defined o) k h
  = match o with
    | Some a => k a h
    | None => None
    end.
Proof. by destruct o. Qed.

Lemma host_bind_call {B} (c : HostCall) (k : HostResponse → HM B) h :
  host_bind (host_call host c) k h
  = k (host (trace (world h)) (outside h) c)
      (MkHost (world h)
         (outside h ++ [(c, host (trace (world h)) (outside h) c)])).
Proof. reflexivity. Qed.

Lemma host_bind_enter {B} (m : (list Event → Call → Response) → M unit)
    (k : unit → HM B) h w' :
  m (driver (outside h)) (world h) = Some (tt, w') →
  host_bind (enter driver m) k h = k tt (MkHost w' (outside h)).
Proof. intros Hm. unfold host_bind, enter. by rewrite Hm. Qed.

(** The initialisation loop makes one [malloc] call per chunk and leaves
    the slots it was answered with and the sizes of [chunk_size_at]. *)
Lemma init_arrays_run p_array c_array aligned chunk num :
  p_array ≠ 0 → c_array ≠ 0 →
  ∀ n i slots sizes h,
    ∃ ms,
      init_arrays handle_size host n i p_array c_array aligned chunk num
        slots sizes h
      = Some ((slots ++ (hout ∘ snd <$> ms),
               sizes ++ (Layout.chunk_size_at aligned chunk num
                           <$> seqZ i (Z.of_nat n))),
              MkHost (world h) (outside h ++ ms))
      ∧ length ms = n
      ∧ Forall (λ e : HostEvent, e.1 = malloc handle_size) ms.
Proof.
  intros Hp Hc. induction n as [|n IH]; intros i slots sizes h.
  - exists []. cbn. rewrite !app_nil_r. by destruct h.
  - cbn [init_arrays]. unfold host_bind at 1, host_call at 1.
    destruct (Z.eqb_spec p_array 0) as [|_]; [done|].
    destruct (Z.eqb_spec c_array 0) as [|_]; [done|]. cbn [orb].
    set (e := (malloc handle_size,
               host (trace (world h)) (outside h) (malloc handle_size))).
    destruct (IH (i + 1) (slots ++ [hout e.2])
                (sizes ++ [Layout.chunk_size_at aligned chunk num i])
                (MkHost (world h) (outside h ++ [e])))
      as (ms & Hrun & Hlen & Hms).
    exists (e :: ms). cbn [world outside] in Hrun.
    subst e. cbn [snd] in *. rewrite Hrun.
    split; [|split].
    + rewrite <- !app_assoc. cbn [app fmap list_fmap compose snd].
      rewrite (seqZ_cons i (Z.of_nat (S n))) by lia. cbn [fmap list_fmap].
      replace (Z.succ i) with (i + 1) by lia.
      replace (Z.pred (Z.of_nat (S n))) with (Z.of_nat n) by lia.
      reflexivity.
    + cbn. by rewrite Hlen.
    + by constructor.
Qed.

(** The run of [allocate_device_memory] after a successful reservation, for
    a plan within the range of the loop counters and a [malloc] that does
    not fail: the calls up to [create_and_map], and the verification. *)
Lemma allocate_device_memory_run mem size g verify h a c n :
  Layout.align_up size g = Some a →
  Layout.align_up CHUNK_BYTES g = Some c →
  Layout.count_chunks a c = Some n →
  0 ≤ n ≤ INT_MAX →
  (∀ tr hist b, hout (host tr hist (malloc b)) ≠ 0) →
  cu_failed CUDA_SUCCESS
    (host (trace (world h)) (outside h) (cuMemAddressReserve a g)) = false →
  ∃ ms slots w' d mem2 mem3 h1,
    d = hout (host (trace (world h)) (outside h) (cuMemAddressReserve a g))
    ∧ length slots = Z.to_nat n
    ∧ Forall (λ e : HostEvent, ∃ b, e.1 = malloc b) ms
    ∧ mem2 = DeviceMemory.Make (DeviceMemory.device mem) size a d slots
               (Layout.init_chunk_sizes a c n) n (DeviceMemory.allocated mem)
    ∧ mem3 = DeviceMemory.Make (DeviceMemory.device mem) size a d slots
               (Layout.init_chunk_sizes a c n) n true
    ∧ h1 = MkHost w'
             (outside h
              ++ (cuMemAddressReserve a g,
                  host (trace (world h)) (outside h)
                    (cuMemAddressReserve a g)) :: ms)
    ∧ create_and_map CUDA_SUCCESS (driver (outside h1))
        (DeviceMemory.device mem) a d slots (Layout.init_chunk_sizes a c n) n
        (world h) = Some (tt, w')
    ∧ allocate_device_memory CUDA_SUCCESS hipSuccess handle_size driver host
        mem size g verify h
      = if verify then
          let to_device := hipMemcpyHostToDevice d h_data test_size in
          let r1 := host (trace w') (outside h1) to_device in
          let h2 := MkHost w' (outside h1 ++ [(to_device, r1)]) in
          if hip_failed hipSuccess r1 then Some ((false, mem2), h2)
          else
            let from_device := hipMemcpyDeviceToHost d test_size in
            let r2 := host (trace w') (outside h2) from_device in
            let h3 := MkHost w' (outside h2 ++ [(from_device, r2)]) in
            if hip_failed hipSuccess r2 then Some ((false, mem2), h3)
            else
              match compare_data (Z.to_nat test_words) h_data (hdata r2)
              with
              | Some true => Some ((true, mem3), h3)
              | Some false => Some ((false, mem2), h3)
              | None => None
              end
        else Some ((true, mem3), h1).
Proof.
  intros Ha Hc Hn Hrange Hmalloc Hres.
  set (r0 := host (trace (world h)) (outside h) (cuMemAddressReserve a g))
    in *.
  set (o1 := outside h ++ [(cuMemAddressReserve a g, r0)]).
  set (pa := host (trace (world h)) o1 (malloc (U64.mul n 8))).
  set (o2 := o1 ++ [(malloc (U64.mul n 8), pa)]).
  set (ca := host (trace (world h)) o2 (malloc (U64.mul n 8))).
  set (o3 := o2 ++ [(malloc (U64.mul n 8), ca)]).
  destruct (init_arrays_run (hout pa) (hout ca) a c n
              (Hmalloc _ _ _) (Hmalloc _ _ _) (Z.to_nat n) 0 [] []
              (MkHost (world h) o3)) as (ms & Hinit & Hlen & Hms).
  cbn [app world outside] in Hinit.
  rewrite Z2Nat.id in Hinit by lia.
  fold (Layout.init_chunk_sizes a c n) in Hinit.
  set (slots := hout ∘ snd <$> ms) in *.
  assert (well_formed slots (Layout.init_chunk_sizes a c n) n) as Hwf.
  { split; [|split; [|lia]].
    - subst slots. rewrite length_fmap, Hlen. lia.
    - unfold Layout.init_chunk_sizes. rewrite length_fmap, length_seqZ. lia. }
  assert (o3 ++ ms
          = outside h
            ++ (cuMemAddressReserve a g, r0)
               :: (malloc (U64.mul n 8), pa) :: (malloc (U64.mul n 8), ca)
               :: ms) as Ho
    by (subst o3 o2 o1; by rewrite <- !app_assoc).
  destruct (create_and_map_run CUDA_SUCCESS (driver (o3 ++ ms))
              (DeviceMemory.device mem) a (hout r0) slots
              (Layout.init_chunk_sizes a c n) n (world h) Hwf)
    as (w' & pre & evs & Hcam & _).
  exists ((malloc (U64.mul n 8), pa) :: (malloc (U64.mul n 8), ca) :: ms),
    slots, w', (hout r0).
  eexists _, _, _.
  split; [reflexivity|].
  split; [by subst slots; rewrite length_fmap|].
  split.
  { repeat (constructor; [by eexists|]).
    eapply Forall_impl; [exact Hms|]. intros e He. eexists. exact He. }
  split; [reflexivity|]. split; [reflexivity|]. split; [reflexivity|].
  split; [cbn [outside]; by rewrite <- Ho|].
  unfold allocate_device_memory.
  rewrite Ha, host_bind_defined. cbv beta zeta.
  rewrite host_bind_call. cbv beta. fold r0. rewrite Hres.
  change (U64.mul (U64.mul Layout.CHUNK_SIZE_MB 1024) 1024) with CHUNK_BYTES.
  rewrite Hc, host_bind_defined. cbv beta.
  rewrite Hn, host_bind_defined. cbv beta.
  rewrite !host_bind_call. cbv beta. cbn [world outside].
  unfold host_bind at 1.
  match goal with
  | |- context [init_arrays ?hs ?ho ?k ?i ?p ?q ?al ?ch ?nm ?s ?z ?hh] =>
      change (init_arrays hs ho k i p q al ch nm s z hh)
        with (init_arrays handle_size host (Z.to_nat n) 0 (hout pa) (hout ca)
                a c n [] [] (MkHost (world h) o3))
  end.
  rewrite Hinit. cbn [fst snd].
  rewrite (host_bind_enter _ _ _ w') by exact Hcam.
  cbn [world outside]. rewrite Ho.
  destruct verify; [|reflexivity].
  rewrite host_bind_call. cbv beta. cbn [world outside].
  destruct (hip_failed hipSuccess _); [reflexivity|].
  rewrite host_bind_call. cbv beta. cbn [world outside].
  destruct (hip_failed hipSuccess _); [reflexivity|].
  unfold host_bind, defined.
  destruct (compare_data _ _ _) as [[|]|]; reflexivity.
Qed.

(** The run of [free_device_memory] on allocated memory. *)
Lemma free_device_memory_run mem h :
  DeviceMemory.allocated mem = true →
  well_formed (DeviceMemory.p_memHandle mem) (DeviceMemory.chunk_sizes mem)
    (DeviceMemory.num_chunks mem) →
  (∀ i, (i < length (DeviceMemory.p_memHandle mem))%nat →
        is_Some (heap (world h) !! (DeviceMemory.p_memHandle mem !!! i))) →
  ∃ w' r,
    unmap_and_release CUDA_SUCCESS (driver (outside h))
      (DeviceMemory.device mem)
      (DeviceMemory.alignedSize mem) (DeviceMemory.d_mem mem)
      (DeviceMemory.p_memHandle mem) (DeviceMemory.chunk_sizes mem)
      (DeviceMemory.num_chunks mem) (world h) = Some (tt, w')
    ∧ r = host (trace w') (outside h)
            (cuMemAddressFree (DeviceMemory.d_mem mem)
               (DeviceMemory.alignedSize mem))
    ∧ free_device_memory CUDA_SUCCESS driver host mem h
      = Some ((negb (cu_failed CUDA_SUCCESS r),
               if cu_failed CUDA_SUCCESS r then mem
               else DeviceMemory.Make (DeviceMemory.device mem)
                      (DeviceMemory.size mem) (DeviceMemory.alignedSize mem)
                      (DeviceMemory.d_mem mem) (DeviceMemory.p_memHandle mem)
                      (DeviceMemory.chunk_sizes mem)
                      (DeviceMemory.num_chunks mem) false),
              MkHost w'
                (outside h
                 ++ [(cuMemAddressFree (DeviceMemory.d_mem mem)
                        (DeviceMemory.alignedSize mem), r)])).
Proof.
  intros Hal Hwf Hslots.
  destruct (unmap_and_release_run CUDA_SUCCESS (driver (outside h))
              (DeviceMemory.device mem) (DeviceMemory.alignedSize mem)
              (DeviceMemory.d_mem mem) (DeviceMemory.p_memHandle mem)
              (DeviceMemory.chunk_sizes mem) (DeviceMemory.num_chunks mem)
              (world h) Hwf Hslots) as (w' & ctx & us & rs & Hrun & _).
  eexists w', _. split; [exact Hrun|]. split; [reflexivity|].
  unfold free_device_memory. rewrite Hal. cbn [negb].
  rewrite (host_bind_enter _ _ _ w') by exact Hrun.
  rewrite host_bind_call. cbv beta. cbn [world outside].
  by destruct (cu_failed CUDA_SUCCESS _).
Qed.

(** A run of [create_and_map] that reached the access grant has filled
    every slot. *)
Lemma granted_run_fills_slots (drv : list Event → Call → Response)
    device size d_mem P C num_chunks w w1 evs :
  well_formed P C num_chunks →
  create_and_map CUDA_SUCCESS drv device size d_mem P C num_chunks w
  = Some (tt, w1) →
  trace w1 = trace w ++ evs →
  of_kind KAccess evs ≠ [] →
  ∀ i, (i < length P)%nat → is_Some (heap w1 !! (P !!! i)).
Proof.
  intros Hwf Hrun Htr Hgrant.
  destruct (create_and_map_run CUDA_SUCCESS drv device size d_mem
              P C num_chunks w Hwf)
    as (w1' & pre & evs' & Hrun' & _ & Htr' & Hpre & Hev).
  rewrite Hrun in Hrun'. injection Hrun' as <-.
  rewrite Htr in Htr'. apply app_inv_head in Htr'. subst evs.
  rewrite of_kind_app, (of_kind_prelude _ pre) in Hgrant by done.
  cbn [app] in Hgrant.
  remember (heap w1) as h1 eqn:Hheap in Hev.
  destruct Hev as [oks cs Hph|cs oks ms Hran Hph|cs ms r Hran Hranm].
  - pose proof (phase_kind _ _ _ _ _ _ KCreate
                  (create_call_kind device P C) Hph) as Hkind.
    rewrite (of_kind_other _ KCreate cs) in Hgrant by done. done.
  - pose proof (ran_kind _ _ _ _ KCreate (create_call_kind device P C) Hran)
      as Hkc.
    pose proof (phase_kind _ _ _ _ _ _ KMap
                  (map_call_kind d_mem _ P C) Hph) as Hkm.
    rewrite of_kind_app, (of_kind_other _ KCreate cs),
      (of_kind_other _ KMap ms) in Hgrant by done. done.
  - intros i Hi. rewrite <- Hheap. eapply stored_is_Some.
    + by apply lookup_total_of_lt.
    + by rewrite (ran_length _ _ _ _ Hran).
Qed.

(** When [create_and_map] grants access, it does so for the base address
    and the size it was given, after all chunks have been mapped. *)
Lemma granted_run_shape (drv : list Event → Call → Response)
    device size d_mem P C num_chunks w w1 evs :
  well_formed P C num_chunks →
  create_and_map CUDA_SUCCESS drv device size d_mem P C num_chunks w
  = Some (tt, w1) →
  trace w1 = trace w ++ evs →
  ∀ e, e ∈ of_kind KAccess evs →
    e.1 = cuMemSetAccess d_mem (U64.wrap size) device
    ∧ length (of_kind KMap evs) = length P
    ∧ Forall (succeeded CUDA_SUCCESS) (of_kind KMap evs).
Proof.
  intros Hwf Hrun Htr e.
  destruct (create_and_map_run CUDA_SUCCESS drv device size d_mem
              P C num_chunks w Hwf)
    as (w1' & pre & evs' & Hrun' & _ & Htr' & Hpre & Hev).
  rewrite Hrun in Hrun'. injection Hrun' as <-.
  rewrite Htr in Htr'. apply app_inv_head in Htr'. subst evs.
  rewrite !of_kind_app, !(of_kind_prelude _ pre) by done. cbn [app].
  destruct Hev as [oks cs Hph|cs oks ms Hran Hph|cs ms r Hran Hranm].
  - pose proof (phase_kind _ _ _ _ _ _ KCreate
                  (create_call_kind device P C) Hph) as Hkind.
    rewrite (of_kind_other _ KCreate cs) by done.
    intros He. by apply elem_of_nil in He.
  - pose proof (ran_kind _ _ _ _ KCreate (create_call_kind device P C) Hran)
      as Hkc.
    pose proof (phase_kind _ _ _ _ _ _ KMap
                  (map_call_kind d_mem _ P C) Hph) as Hkm.
    rewrite !of_kind_app, (of_kind_other _ KCreate cs),
      (of_kind_other _ KMap ms) by done.
    intros He. by apply elem_of_nil in He.
  - pose proof (ran_kind _ _ _ _ KCreate (create_call_kind device P C) Hran)
      as Hkc.
    pose proof (ran_kind _ _ _ _ KMap (map_call_kind d_mem _ P C) Hranm)
      as Hkm.
    destruct (ran_calls _ _ _ _ Hranm) as [_ Hok].
    set (grant := (cuMemSetAccess d_mem (U64.wrap size) device, r)).
    assert (Forall (λ e : Event, kind e.1 = KAccess) [grant]) as Hka
      by by apply Forall_singleton.
    rewrite !of_kind_app, (of_kind_other _ KCreate cs),
      (of_kind_other _ KMap ms), (of_kind_same _ _ Hka),
      (of_kind_same _ _ Hkm), (of_kind_other _ KAccess [grant]),
      (of_kind_other _ KCreate cs) by done.
    cbn [app]. rewrite app_nil_r.
    intros ->%list_elem_of_singleton.
    split; [reflexivity|]. split; [apply (ran_length _ _ _ _ Hranm)|exact Hok].
Qed.

End HostFacts.

(** The plan of a request with size + granularity at most 2^57. *)
Lemma small_request_plan size g :
  0 < size → 0 < g → size + g ≤ 2 ^ 57 →
  ∃ a c n,
    a = ceil_div size g * g
    ∧ Layout.align_up size g = Some a
    ∧ Layout.align_up CHUNK_BYTES g = Some c
    ∧ Layout.count_chunks a c = Some n
    ∧ 1 ≤ n ≤ INT_MAX
    ∧ size ≤ a
    ∧ Layout.chunk_plan size g
      = Some (Layout.Plan a c n (Layout.init_chunk_sizes a c n)).
Proof.
  intros Hs Hg Hsmall.
  pose proof (ceil_div_bounds size g Hg) as Hba.
  pose proof (ceil_div_bounds CHUNK_BYTES g Hg) as Hbc.
  assert (0 < CHUNK_BYTES) as Hcb by reflexivity.
  assert (CHUNK_BYTES = 2 ^ 27) as Hcv by reflexivity.
  assert (U64.modulus = 2 ^ 64) as Hmod by reflexivity.
  assert (rounding_fits size g) as Hfit.
  { unfold rounding_fits. rewrite Hmod. repeat split; nia. }
  pose proof (chunk_plan_exact size g ltac:(lia) Hg Hfit) as Hplan.
  destruct Hfit as (Hw1 & Hw2 & Hw3).
  set (a := ceil_div size g * g) in *.
  set (c := ceil_div CHUNK_BYTES g * g) in *.
  assert (0 < c) as Hc by (subst c; nia).
  pose proof (ceil_div_bounds a c Hc) as Hbn.
  pose proof (ceil_div_pos a c Hc ltac:(subst a; lia)) as Hn.
  assert (ceil_div a c ≤ INT_MAX) as Hmax.
  { assert (INT_MAX = 2 ^ 31 - 1) as -> by reflexivity.
    assert (a < 2 ^ 57) by (subst a; lia).
    assert (2 ^ 27 ≤ c) by (subst c; lia).
    assert ((ceil_div a c - 1) * 2 ^ 27 < 2 ^ 57) by nia. lia. }
  exists a, c, (ceil_div a c).
  split; [reflexivity|].
  split; [apply align_up_exact; lia|].
  split; [apply align_up_exact; lia|].
  split; [apply count_chunks_exact; subst a; lia|].
  split; [lia|]. split; [subst a; lia|]. exact Hplan.
Qed.

(** The chunk sizes of such a request tile the aligned size. *)
Lemma small_request_chunks size g :
  0 < size → 0 < g → size + g ≤ 2 ^ 57 →
  Layout.align_up size g = Some (ceil_div size g * g)
  ∧ Layout.align_up CHUNK_BYTES g = Some (ceil_div CHUNK_BYTES g * g)
  ∧ Layout.count_chunks (ceil_div size g * g) (ceil_div CHUNK_BYTES g * g)
    = Some (ceil_div (ceil_div size g * g) (ceil_div CHUNK_BYTES g * g))
  ∧ 1 ≤ ceil_div (ceil_div size g * g) (ceil_div CHUNK_BYTES g * g) ≤ INT_MAX
  ∧ U64.in_range (ceil_div size g * g)
  ∧ Forall (λ s, 0 ≤ s)
      (Layout.init_chunk_sizes (ceil_div size g * g)
         (ceil_div CHUNK_BYTES g * g)
         (ceil_div (ceil_div size g * g) (ceil_div CHUNK_BYTES g * g)))
  ∧ sum_sizes
      (Layout.init_chunk_sizes (ceil_div size g * g)
         (ceil_div CHUNK_BYTES g * g)
         (ceil_div (ceil_div size g * g) (ceil_div CHUNK_BYTES g * g)))
    = ceil_div size g * g.
Proof.
  intros Hs Hg Hsmall.
  pose proof (ceil_div_bounds size g Hg) as Hba.
  pose proof (ceil_div_bounds CHUNK_BYTES g Hg) as Hbc.
  assert (0 < CHUNK_BYTES) as Hcb by reflexivity.
  assert (CHUNK_BYTES = 2 ^ 27) as Hcv by reflexivity.
  assert (U64.modulus = 2 ^ 64) as Hmod by reflexivity.
  set (a := ceil_div size g * g) in *.
  set (c := ceil_div CHUNK_BYTES g * g) in *.
  assert (0 < c) as Hc by (subst c; nia).
  assert (U64.in_range a) as Ha by (unfold U64.in_range; subst a; lia).
  pose proof (ceil_div_bounds a c Hc) as Hbn.
  pose proof (ceil_div_pos a c Hc ltac:(subst a; lia)) as Hn.
  assert (ceil_div a c ≤ INT_MAX) as Hmax.
  { assert (INT_MAX = 2 ^ 31 - 1) as -> by reflexivity.
    assert (a < 2 ^ 57) by (subst a; lia).
    assert (2 ^ 27 ≤ c) by (subst c; lia).
    assert ((ceil_div a c - 1) * 2 ^ 27 < 2 ^ 57) by nia. lia. }
  split; [apply align_up_exact; lia|].
  split; [apply align_up_exact; lia|].
  split; [apply count_chunks_exact; subst a; lia|].
  split; [lia|]. split; [exact Ha|].
  split; [|by apply init_chunk_sizes_sum].
  unfold Layout.init_chunk_sizes. apply Forall_fmap, Forall_seqZ.
  intros i Hi. cbn.
  destruct (Z.eq_dec i (ceil_div a c - 1)) as [->|Hne].
  - rewrite chunk_size_at_last by (auto; lia). nia.
  - rewrite chunk_size_at_inner by (try lia; unfold U64.in_range in *; nia).
    lia.
Qed.

Section HostExtras.

Variable CUDA_SUCCESS : CUresult.
Variable hipSuccess : CUresult.
Variable handle_size : Z.
Variable driver : list HostEvent → list Event → Call → Response.
Variable host : list Event → list HostEvent → HostCall → HostResponse.

(** X13: without verification, the result of [allocate_device_memory] is
    decided by the reservation alone (for a request of at most 2^57 bytes
    and a [malloc] that does not fail).  When the reservation fails, it
    returns [false] after that one call and leaves the arrays, [num_chunks]
    and [allocated] as they were.  When it succeeds, it fills the fields with
    the chunk plan and one slot per chunk, runs [create_and_map] on them
    and returns [true] with [allocated] set, whatever [create_and_map] did:
    a creation or mapping that failed inside it is not seen. *)
Theorem allocation_result_is_the_reservation_result mem size g h :
  0 < size → 0 < g → size + g ≤ 2 ^ 57 →
  (∀ tr hist b, hout (host tr hist (malloc b)) ≠ 0) →
  ∃ p r b mem' h',
    Layout.chunk_plan size g = Some p
    ∧ r = host (trace (world h)) (outside h)
            (cuMemAddressReserve (Layout.alignedSize p) g)
    ∧ allocate_device_memory CUDA_SUCCESS hipSuccess handle_size driver host
        mem size g false h = Some ((b, mem'), h')
    ∧ b = negb (cu_failed CUDA_SUCCESS r)
    ∧ DeviceMemory.allocated mem' = b || DeviceMemory.allocated mem
    ∧ DeviceMemory.device mem' = DeviceMemory.device mem
    ∧ DeviceMemory.size mem' = size
    ∧ DeviceMemory.alignedSize mem' = Layout.alignedSize p
    ∧ (b = false →
       h' = MkHost (world h)
              (outside h
               ++ [(cuMemAddressReserve (Layout.alignedSize p) g, r)])
       ∧ DeviceMemory.p_memHandle mem' = DeviceMemory.p_memHandle mem
       ∧ DeviceMemory.chunk_sizes mem' = DeviceMemory.chunk_sizes mem
       ∧ DeviceMemory.num_chunks mem' = DeviceMemory.num_chunks mem)
    ∧ (b = true →
       DeviceMemory.d_mem mem' = hout r
       ∧ DeviceMemory.num_chunks mem' = Layout.num_chunks p
       ∧ DeviceMemory.chunk_sizes mem' = Layout.chunk_sizes p
       ∧ Z.of_nat (length (DeviceMemory.p_memHandle mem'))
         = Layout.num_chunks p
       ∧ create_and_map CUDA_SUCCESS (driver (outside h'))
           (DeviceMemory.device mem) (Layout.alignedSize p) (hout r)
           (DeviceMemory.p_memHandle mem') (Layout.chunk_sizes p)
           (Layout.num_chunks p) (world h)
         = Some (tt, world h')).
Proof.
  intros Hs Hg Hsmall Hmalloc.
  destruct (small_request_plan size g Hs Hg Hsmall)
    as (a & c & n & _ & Ha & Hc & Hn & Hrange & _ & Hplan).
  eexists _, _. rewrite Hplan. cbn [Layout.alignedSize Layout.num_chunks
                                     Layout.chunk_sizes].
  set (r := host (trace (world h)) (outside h) (cuMemAddressReserve a g)).
  destruct (cu_failed CUDA_SUCCESS r) eqn:Hres.
  - exists false. eexists _, _.
    split; [reflexivity|]. split; [reflexivity|].
    split.
    { unfold allocate_device_memory.
      rewrite Ha, host_bind_defined. cbv beta zeta.
      rewrite host_bind_call. cbv beta. fold r. rewrite Hres. reflexivity. }
    split; [cbn [Layout.alignedSize]; fold r; by rewrite Hres|].
    cbn. repeat split; try done.
  - destruct (allocate_device_memory_run CUDA_SUCCESS hipSuccess handle_size
                driver host mem size g false h a c n Ha Hc Hn
                ltac:(lia) Hmalloc Hres)
      as (ms & slots & w' & d & mem2 & mem3 & h1 & -> & Hlen & _ & _ & ->
          & -> & Hcam & Hrun).
    exists true. eexists _, _.
    split; [reflexivity|]. split; [reflexivity|]. split; [exact Hrun|].
    split; [cbn [Layout.alignedSize]; fold r; by rewrite Hres|].
    cbn. repeat split; try done. lia.
Qed.

(** X14: with verification, after a successful reservation, the result of
    [allocate_device_memory] is decided by the 1 MiB round trip alone (for a
    request of at most 2^57 bytes, a [malloc] that does not fail and copies
    from the device that fill the buffer when they succeed).  The copy to
    the device sends the pattern [i & 0xFF] in [test_size] bytes to [d_mem],
    whatever the size of the request; when it fails no copy back is made;
    the result is [true] exactly when both copies succeed and the words read
    back are the pattern; [allocated] is set exactly then.  What
    [create_and_map] did before is not looked at. *)
Theorem verification_decides_the_result mem size g h :
  0 < size → 0 < g → size + g ≤ 2 ^ 57 →
  (∀ tr hist b, hout (host tr hist (malloc b)) ≠ 0) →
  (∀ tr hist src,
     hstatus (host tr hist (hipMemcpyDeviceToHost src test_size))
     = hipSuccess →
     length (hdata (host tr hist (hipMemcpyDeviceToHost src test_size)))
     = Z.to_nat test_words) →
  cu_failed CUDA_SUCCESS
    (host (trace (world h)) (outside h)
       (cuMemAddressReserve (ceil_div size g * g) g)) = false →
  ∃ b mem' h' ms r1 rest,
    allocate_device_memory CUDA_SUCCESS hipSuccess handle_size driver host
      mem size g true h = Some ((b, mem'), h')
    ∧ DeviceMemory.allocated mem' = b || DeviceMemory.allocated mem
    ∧ create_and_map CUDA_SUCCESS
        (driver
           (outside h
            ++ (cuMemAddressReserve (ceil_div size g * g) g,
                host (trace (world h)) (outside h)
                  (cuMemAddressReserve (ceil_div size g * g) g)) :: ms))
        (DeviceMemory.device mem)
        (DeviceMemory.alignedSize mem') (DeviceMemory.d_mem mem')
        (DeviceMemory.p_memHandle mem') (DeviceMemory.chunk_sizes mem')
        (DeviceMemory.num_chunks mem') (world h)
      = Some (tt, world h')
    ∧ outside h'
      = outside h
        ++ (cuMemAddressReserve (ceil_div size g * g) g,
            host (trace (world h)) (outside h)
              (cuMemAddressReserve (ceil_div size g * g) g))
           :: ms
        ++ (hipMemcpyHostToDevice (DeviceMemory.d_mem mem') h_data test_size,
            r1) :: rest
    ∧ Forall (λ e : HostEvent, ∃ bytes, e.1 = malloc bytes) ms
    ∧ (hip_failed hipSuccess r1 = true → rest = [] ∧ b = false)
    ∧ (hip_failed hipSuccess r1 = false →
       ∃ r2,
         rest = [(hipMemcpyDeviceToHost (DeviceMemory.d_mem mem') test_size,
                  r2)]
         ∧ b = negb (hip_failed hipSuccess r2)
               && bool_decide (hdata r2 = h_data)).
Proof.
  intros Hs Hg Hsmall Hmalloc Hfull Hres.
  destruct (small_request_plan size g Hs Hg Hsmall)
    as (a & c & n & -> & Ha & Hc & Hn & Hrange & _ & _).
  destruct (allocate_device_memory_run CUDA_SUCCESS hipSuccess handle_size
              driver host mem size g true h _ c n Ha Hc Hn
              ltac:(lia) Hmalloc Hres)
    as (ms & slots & w' & d & mem2 & mem3 & h1 & Hd & Hlen & Hms & -> & ->
        & -> & Hcam & Hrun).
  cbv zeta in Hrun. cbn [outside] in Hrun, Hcam.
  set (to_device := hipMemcpyHostToDevice d h_data test_size) in *.
  set (from_device := hipMemcpyDeviceToHost d test_size) in *.
  set (o1 := outside h ++ _ :: ms) in *.
  set (r1 := host (trace w') o1 to_device) in *.
  set (r2 := host (trace w') (o1 ++ [(to_device, r1)]) from_device) in *.
  destruct (hip_failed hipSuccess r1) eqn:H1.
  { eexists false, _, _, ms, r1, [].
    split; [exact Hrun|]. cbn.
    split; [done|]. split; [exact Hcam|].
    split; [unfold o1; rewrite <- ?app_assoc; reflexivity|].
    split; [exact Hms|].
    split; [done|]. rewrite H1. done. }
  destruct (hip_failed hipSuccess r2) eqn:H2.
  { eexists false, _, _, ms, r1, [(from_device, r2)].
    split; [exact Hrun|]. cbn.
    split; [done|]. split; [exact Hcam|].
    split; [unfold o1; rewrite <- ?app_assoc; reflexivity|].
    split; [exact Hms|].
    rewrite H1. split; [done|]. intros _. exists r2. by rewrite H2. }
  assert (length (hdata r2) = length h_data) as Hl.
  { rewrite length_h_data. apply Hfull.
    unfold hip_failed in H2. apply negb_false_iff, Z.eqb_eq in H2.
    exact H2. }
  rewrite <- length_h_data, (compare_data_full h_data (hdata r2) Hl) in Hrun.
  destruct (bool_decide (hdata r2 = h_data)) eqn:Hdata.
  - eexists true, _, _, ms, r1, [(from_device, r2)].
    split; [exact Hrun|]. cbn.
    split; [done|]. split; [exact Hcam|].
    split; [unfold o1; rewrite <- ?app_assoc; reflexivity|].
    split; [exact Hms|].
    rewrite H1. split; [done|]. intros _. exists r2.
    by rewrite H2, Hdata.
  - eexists false, _, _, ms, r1, [(from_device, r2)].
    split; [exact Hrun|]. cbn.
    split; [done|]. split; [exact Hcam|].
    split; [unfold o1; rewrite <- ?app_assoc; reflexivity|].
    split; [exact Hms|].
    rewrite H1. split; [done|]. intros _. exists r2.
    by rewrite H2, Hdata.
Qed.

(** X15: when [allocate_device_memory] returns [false] on memory that was
    not allocated, [allocated] stays [false], so [free_device_memory] makes
    no call at all and returns [true]: also after a failed verification,
    where the address range is reserved and [create_and_map] has run,
    nothing is unmapped, released or freed. *)
Theorem failed_allocation_is_never_freed mem size g verify h mem' h' :
  DeviceMemory.allocated mem = false →
  allocate_device_memory CUDA_SUCCESS hipSuccess handle_size driver host
    mem size g verify h = Some ((false, mem'), h') →
  DeviceMemory.allocated mem' = false
  ∧ free_device_memory CUDA_SUCCESS driver host mem' h'
    = Some ((true, mem'), h').
Proof.
  intros Hal Hrun.
  assert (DeviceMemory.allocated mem' = false) as Hal'.
  { unfold allocate_device_memory in Hrun.
    destruct (Layout.align_up size g) as [a|]; [|discriminate].
    rewrite host_bind_defined in Hrun. cbv beta zeta in Hrun.
    rewrite host_bind_call in Hrun. cbv beta in Hrun.
    destruct (cu_failed CUDA_SUCCESS _).
    { injection Hrun as <- <-. exact Hal. }
    destruct (Layout.align_up _ g) as [c|]; [|discriminate].
    rewrite host_bind_defined in Hrun. cbv beta in Hrun.
    destruct (Layout.count_chunks a c) as [n|]; [|discriminate].
    rewrite host_bind_defined in Hrun. cbv beta in Hrun.
    rewrite !host_bind_call in Hrun. cbv beta in Hrun.
    unfold host_bind at 1 in Hrun.
    destruct (init_arrays _ _ _ _ _ _ _ _ _ _ _ _)
      as [[[slots sizes] h4]|]; [|discriminate].
    cbn [fst snd] in Hrun. unfold host_bind at 1, enter at 1 in Hrun.
    destruct (create_and_map _ _ _ _ _ _ _ _ _) as [[[] w']|]; [|discriminate].
    destruct verify; [|discriminate].
    rewrite host_bind_call in Hrun. cbv beta in Hrun.
    destruct (hip_failed hipSuccess _).
    { injection Hrun as <- <-. exact Hal. }
    rewrite host_bind_call in Hrun. cbv beta in Hrun.
    destruct (hip_failed hipSuccess _).
    { injection Hrun as <- <-. exact Hal. }
    rewrite host_bind_defined_cases in Hrun.
    destruct (compare_data _ _ _) as [[|]|]; [discriminate| |discriminate].
    injection Hrun as <- <-. exact Hal. }
  split; [exact Hal'|].
  unfold free_device_memory. by rewrite Hal'.
Qed.

(** X16: on allocated memory with filled slots, [free_device_memory] runs
    [unmap_and_release] and then calls [cuMemAddressFree] on [d_mem] and
    [alignedSize], whatever [unmap_and_release] did: an unmapping or a
    release that failed inside it is not seen.  The result is that of
    [cuMemAddressFree] alone; [allocated] is cleared exactly when it
    succeeds, no other field changes, and a second [free_device_memory]
    then makes no call. *)
Theorem address_is_freed_whatever_the_teardown_did mem h :
  DeviceMemory.allocated mem = true →
  well_formed (DeviceMemory.p_memHandle mem) (DeviceMemory.chunk_sizes mem)
    (DeviceMemory.num_chunks mem) →
  (∀ i, (i < length (DeviceMemory.p_memHandle mem))%nat →
        is_Some (heap (world h) !! (DeviceMemory.p_memHandle mem !!! i))) →
  ∃ b mem' h' r,
    free_device_memory CUDA_SUCCESS driver host mem h = Some ((b, mem'), h')
    ∧ unmap_and_release CUDA_SUCCESS (driver (outside h))
        (DeviceMemory.device mem)
        (DeviceMemory.alignedSize mem) (DeviceMemory.d_mem mem)
        (DeviceMemory.p_memHandle mem) (DeviceMemory.chunk_sizes mem)
        (DeviceMemory.num_chunks mem) (world h) = Some (tt, world h')
    ∧ outside h'
      = outside h
        ++ [(cuMemAddressFree (DeviceMemory.d_mem mem)
               (DeviceMemory.alignedSize mem), r)]
    ∧ b = negb (cu_failed CUDA_SUCCESS r)
    ∧ DeviceMemory.allocated mem' = negb b
    ∧ DeviceMemory.device mem' = DeviceMemory.device mem
    ∧ DeviceMemory.size mem' = DeviceMemory.size mem
    ∧ DeviceMemory.alignedSize mem' = DeviceMemory.alignedSize mem
    ∧ DeviceMemory.d_mem mem' = DeviceMemory.d_mem mem
    ∧ DeviceMemory.p_memHandle mem' = DeviceMemory.p_memHandle mem
    ∧ DeviceMemory.chunk_sizes mem' = DeviceMemory.chunk_sizes mem
    ∧ DeviceMemory.num_chunks mem' = DeviceMemory.num_chunks mem
    ∧ (b = true →
       free_device_memory CUDA_SUCCESS driver host mem' h'
       = Some ((true, mem'), h')).
Proof.
  intros Hal Hwf Hslots.
  destruct (free_device_memory_run CUDA_SUCCESS driver host mem h
              Hal Hwf Hslots) as (w' & r & Hrun & _ & Hfree).
  eexists _, _, _, r. split; [exact Hfree|]. cbn [world outside].
  split; [exact Hrun|]. split; [reflexivity|]. split; [reflexivity|].
  destruct (cu_failed CUDA_SUCCESS r); cbn; repeat split; done.
Qed.

(** X17: round trip.  After [allocate_device_memory] (without verification,
    request of at most 2^57 bytes, [malloc] and the reservation successful)
    whose [create_and_map] reached the access grant, [free_device_memory]
    is defined: it runs [unmap_and_release] on the arguments that
    [create_and_map] was run on, and then frees the address that the
    reservation was answered with, with the aligned size that was
    reserved. *)
Theorem free_returns_what_allocate_reserved mem size g h :
  0 < size → 0 < g → size + g ≤ 2 ^ 57 →
  (∀ tr hist b, hout (host tr hist (malloc b)) ≠ 0) →
  cu_failed CUDA_SUCCESS
    (host (trace (world h)) (outside h)
       (cuMemAddressReserve (ceil_div size g * g) g)) = false →
  ∃ mem' h' evs ms r0,
    allocate_device_memory CUDA_SUCCESS hipSuccess handle_size driver host
      mem size g false h = Some ((true, mem'), h')
    ∧ create_and_map CUDA_SUCCESS (driver (outside h'))
        (DeviceMemory.device mem')
        (DeviceMemory.alignedSize mem') (DeviceMemory.d_mem mem')
        (DeviceMemory.p_memHandle mem') (DeviceMemory.chunk_sizes mem')
        (DeviceMemory.num_chunks mem') (world h) = Some (tt, world h')
    ∧ trace (world h') = trace (world h) ++ evs
    ∧ outside h'
      = outside h ++ (cuMemAddressReserve (ceil_div size g * g) g, r0) :: ms
    ∧ (of_kind KAccess evs ≠ [] →
       ∃ b mem'' h'' r,
         free_device_memory CUDA_SUCCESS driver host mem' h'
         = Some ((b, mem''), h'')
         ∧ unmap_and_release CUDA_SUCCESS (driver (outside h'))
             (DeviceMemory.device mem')
             (DeviceMemory.alignedSize mem') (DeviceMemory.d_mem mem')
             (DeviceMemory.p_memHandle mem') (DeviceMemory.chunk_sizes mem')
             (DeviceMemory.num_chunks mem') (world h')
           = Some (tt, world h'')
         ∧ outside h''
           = outside h'
             ++ [(cuMemAddressFree (hout r0) (ceil_div size g * g), r)]
         ∧ b = negb (cu_failed CUDA_SUCCESS r)).
Proof.
  intros Hs Hg Hsmall Hmalloc Hres.
  destruct (small_request_plan size g Hs Hg Hsmall)
    as (a & c & n & -> & Ha & Hc & Hn & Hrange & _ & _).
  destruct (allocate_device_memory_run CUDA_SUCCESS hipSuccess handle_size
              driver host mem size g false h _ c n Ha Hc Hn
              ltac:(lia) Hmalloc Hres)
    as (ms & slots & w' & d & mem2 & mem3 & h1 & -> & Hlen & Hms & _ & ->
        & -> & Hcam & Hrun).
  cbn [outside] in Hcam.
  assert (well_formed slots
            (Layout.init_chunk_sizes (ceil_div size g * g) c n) n) as Hwf.
  { split; [lia|]. split; [|lia].
    unfold Layout.init_chunk_sizes. rewrite length_fmap, length_seqZ. lia. }
  set (r0 := host (trace (world h)) (outside h)
               (cuMemAddressReserve (ceil_div size g * g) g)) in *.
  destruct (create_and_map_run CUDA_SUCCESS
              (driver (outside h ++ (cuMemAddressReserve (ceil_div size g * g)
                                       g, r0) :: ms))
              (DeviceMemory.device mem)
              (ceil_div size g * g) (hout r0) slots
              (Layout.init_chunk_sizes (ceil_div size g * g) c n) n
              (world h) Hwf)
    as (w1 & pre & evs & Hcam' & _ & Htr & _).
  rewrite Hcam in Hcam'. injection Hcam' as <-.
  eexists _, _, (pre ++ evs), ms, _.
  split; [exact Hrun|]. cbn [world outside DeviceMemory.device
    DeviceMemory.alignedSize DeviceMemory.d_mem DeviceMemory.p_memHandle
    DeviceMemory.chunk_sizes DeviceMemory.num_chunks].
  split; [exact Hcam|]. split; [exact Htr|]. split; [reflexivity|].
  intros Hgrant.
  pose proof (granted_run_fills_slots CUDA_SUCCESS _ _ _ _ _ _ _ _ _ _
                Hwf Hcam Htr Hgrant) as Hslots.
  match goal with
  | |- context [free_device_memory _ _ _ ?m ?hh] =>
      destruct (free_device_memory_run CUDA_SUCCESS driver host m hh
                  eq_refl Hwf Hslots) as (w2 & r & Hrel & _ & Hfree)
  end.
  eexists _, _, _, r. split; [exact Hfree|]. cbn [world outside].
  split; [exact Hrel|]. split; reflexivity.
Qed.

(** X18: [get_memory_granularity] makes one call and returns 0 when that
    call fails (otherwise the granularity it was answered with, which may
    be 0 too); with a granularity of 0 [allocate_device_memory] divides by
    zero in its first statement, before any call is made. *)
Theorem granularity_zero_has_no_allocation device mem size verify h :
  ∃ g h' r,
    get_memory_granularity CUDA_SUCCESS host device h = Some (g, h')
    ∧ r = host (trace (world h)) (outside h)
            (cuMemGetAllocationGranularity device)
    ∧ h' = MkHost (world h)
             (outside h ++ [(cuMemGetAllocationGranularity device, r)])
    ∧ g = (if cu_failed CUDA_SUCCESS r then 0 else hout r)
    ∧ (g = 0 →
       allocate_device_memory CUDA_SUCCESS hipSuccess handle_size driver host
         mem size g verify h' = None).
Proof.
  set (r := host (trace (world h)) (outside h)
              (cuMemGetAllocationGranularity device)).
  exists (if cu_failed CUDA_SUCCESS r then 0 else hout r),
    (MkHost (world h)
       (outside h ++ [(cuMemGetAllocationGranularity device, r)])), r.
  unfold get_memory_granularity. rewrite host_bind_call. cbv beta. fold r.
  split; [by destruct (cu_failed CUDA_SUCCESS r)|].
  split; [reflexivity|]. split; [reflexivity|]. split; [reflexivity|].
  intros ->. unfold allocate_device_memory, Layout.align_up, U64.div.
  reflexivity.
Qed.

(** X19: what [allocate_device_memory] maps is the range it reserved (for
    a request of at most 2^57 bytes, [malloc] and the reservation
    successful, the reserved range within the 64-bit address space).  The
    chunk sizes add up to the aligned size that was reserved; the mapping
    call of chunk [i] names the reserved address plus the sizes of the
    chunks before it, and the size of chunk [i]; and the access grant, when
    it is made, is for the reserved address and the reserved size, after
    the mapping of every chunk has succeeded. *)
Theorem allocation_maps_the_reserved_range mem size g h :
  0 < size → 0 < g → size + g ≤ 2 ^ 57 →
  (∀ tr hist b, hout (host tr hist (malloc b)) ≠ 0) →
  cu_failed CUDA_SUCCESS
    (host (trace (world h)) (outside h)
       (cuMemAddressReserve (ceil_div size g * g) g)) = false →
  0 ≤ hout (host (trace (world h)) (outside h)
              (cuMemAddressReserve (ceil_div size g * g) g)) →
  hout (host (trace (world h)) (outside h)
          (cuMemAddressReserve (ceil_div size g * g) g))
  + ceil_div size g * g < U64.modulus →
  ∃ mem' h' evs,
    allocate_device_memory CUDA_SUCCESS hipSuccess handle_size driver host
      mem size g false h = Some ((true, mem'), h')
    ∧ trace (world h') = trace (world h) ++ evs
    ∧ DeviceMemory.d_mem mem'
      = hout (host (trace (world h)) (outside h)
                (cuMemAddressReserve (ceil_div size g * g) g))
    ∧ sum_sizes (DeviceMemory.chunk_sizes mem') = ceil_div size g * g
    ∧ (∀ i m, of_kind KMap evs !! i = Some m →
         ∃ handle,
           m.1 = cuMemMap
                   (DeviceMemory.d_mem mem'
                    + sum_sizes (take i (DeviceMemory.chunk_sizes mem')))
                   (DeviceMemory.chunk_sizes mem' !!! i) handle)
    ∧ (∀ e, e ∈ of_kind KAccess evs →
         e.1 = cuMemSetAccess (DeviceMemory.d_mem mem')
                 (ceil_div size g * g) (DeviceMemory.device mem)
         ∧ Z.of_nat (length (of_kind KMap evs)) = DeviceMemory.num_chunks mem'
         ∧ Forall (succeeded CUDA_SUCCESS) (of_kind KMap evs)).
Proof.
  intros Hs Hg Hsmall Hmalloc Hres Hd0 Hd1.
  destruct (small_request_chunks size g Hs Hg Hsmall)
    as (Ha & Hc & Hn & Hrange & Hin & Hpos & Hsum).
  set (a := ceil_div size g * g) in *.
  set (c := ceil_div CHUNK_BYTES g * g) in *.
  set (n := ceil_div a c) in *.
  destruct (allocate_device_memory_run CUDA_SUCCESS hipSuccess handle_size
              driver host mem size g false h a c n Ha Hc Hn
              ltac:(lia) Hmalloc Hres)
    as (ms & slots & w' & d & mem2 & mem3 & h1 & -> & Hlen & Hms & _ & ->
        & -> & Hcam & Hrun).
  cbn [outside] in Hcam.
  set (r0 := host (trace (world h)) (outside h) (cuMemAddressReserve a g))
    in *.
  set (drv := driver (outside h ++ (cuMemAddressReserve a g, r0) :: ms)) in *.
  assert (well_formed slots (Layout.init_chunk_sizes a c n) n) as Hwf.
  { split; [lia|]. split; [|lia].
    unfold Layout.init_chunk_sizes. rewrite length_fmap, length_seqZ. lia. }
  destruct (map_calls_of_run CUDA_SUCCESS drv (DeviceMemory.device mem) a
              (hout r0) slots (Layout.init_chunk_sizes a c n) n (world h) Hwf)
    as (w1 & evs & m & Hcam' & Htr & Hm & Hcalls & _).
  rewrite Hcam in Hcam'. injection Hcam' as <-.
  eexists _, _, evs. split; [exact Hrun|].
  cbn [world DeviceMemory.d_mem DeviceMemory.chunk_sizes
       DeviceMemory.num_chunks].
  split; [exact Htr|]. split; [reflexivity|]. split; [exact Hsum|].
  split.
  - intros i e He.
    assert ((of_kind KMap evs).*1 !! i = Some e.1) as He1
      by (by rewrite list_lookup_fmap, He).
    rewrite Hcalls, list_lookup_fmap in He1.
    destruct (seq 0 m !! i) as [j|] eqn:Hj; [|done].
    apply lookup_seq in Hj as [-> _]. cbn in He1. injection He1 as He1.
    eexists. rewrite <- He1. unfold map_call.
    rewrite chunk_addr_exact by (try done; lia). reflexivity.
  - intros e He.
    destruct (granted_run_shape CUDA_SUCCESS drv _ _ _ _ _ _ _ _ _
                Hwf Hcam Htr e He) as (Hcall & Hmaps & Hok).
    rewrite Hcall, wrap_small by exact Hin.
    split; [reflexivity|]. split; [lia|exact Hok].
Qed.

End HostExtras.

Lemma allocation_result_is_the_reservation_result_witness :
  0 < 1 ∧ 0 < 2097152 ∧ 1 + 2097152 ≤ 2 ^ 57
  ∧ (∀ tr hist b, hout (host_ok tr hist (malloc b)) ≠ 0)
  ∧ ∃ p r b mem' h',
      Layout.chunk_plan 1 2097152 = Some p
      ∧ r = host_ok (trace (world host_init)) (outside host_init)
              (cuMemAddressReserve (Layout.alignedSize p) 2097152)
      ∧ allocate_device_memory 0 0 8
          (λ _, driver_failing (creates_slot 1024))
          host_ok mem_init 1 2097152 false host_init = Some ((b, mem'), h')
      ∧ b = negb (cu_failed 0 r)
      ∧ DeviceMemory.allocated mem' = b || DeviceMemory.allocated mem_init
      ∧ DeviceMemory.device mem' = DeviceMemory.device mem_init
      ∧ DeviceMemory.size mem' = 1
      ∧ DeviceMemory.alignedSize mem' = Layout.alignedSize p
      ∧ (b = false →
         h' = MkHost (world host_init)
                (outside host_init
                 ++ [(cuMemAddressReserve (Layout.alignedSize p) 2097152, r)])
         ∧ DeviceMemory.p_memHandle mem' = DeviceMemory.p_memHandle mem_init
         ∧ DeviceMemory.chunk_sizes mem' = DeviceMemory.chunk_sizes mem_init
         ∧ DeviceMemory.num_chunks mem' = DeviceMemory.num_chunks mem_init)
      ∧ (b = true →
         DeviceMemory.d_mem mem' = hout r
         ∧ DeviceMemory.num_chunks mem' = Layout.num_chunks p
         ∧ DeviceMemory.chunk_sizes mem' = Layout.chunk_sizes p
         ∧ Z.of_nat (length (DeviceMemory.p_memHandle mem'))
           = Layout.num_chunks p
         ∧ create_and_map 0 (driver_failing (creates_slot 1024))
             (DeviceMemory.device mem_init) (Layout.alignedSize p) (hout r)
             (DeviceMemory.p_memHandle mem') (Layout.chunk_sizes p)
             (Layout.num_chunks p) (world host_init)
           = Some (tt, world h')).
Proof.
  assert (∀ tr hist b, hout (host_ok tr hist (malloc b)) ≠ 0) as Hm
    by (intros; unfold host_ok, host_failing; cbn [hout]; lia).
  split; [lia|]. split; [lia|]. split; [lia|]. split; [exact Hm|].
  apply (allocation_result_is_the_reservation_result 0 0 8
           (λ _, driver_failing (creates_slot 1024)) host_ok mem_init 1 2097152
           host_init); (lia || exact Hm).
Defined.

(** The creation of the only chunk fails, no chunk is mapped, and the
    allocation is reported as successful. *)
Example allocation_reports_success_after_a_failed_creation :
  (λ r : bool * DeviceMemory.t * Host,
     (r.1.1, DeviceMemory.allocated r.1.2,
      of_kind KCreate (trace (world r.2)),
      of_kind KMap (trace (world r.2))))
    <$> allocate_device_memory 0 0 8
          (λ _, driver_failing (creates_slot 1024))
          host_ok mem_init 1 2097152 false host_init
  = Some (true, true, [(cuMemCreate 1024 2097152 0, Answer 1 0)], []).
Proof. vm_compute. reflexivity. Qed.

Lemma verification_decides_the_result_witness :
  0 < 1 ∧ 0 < 2097152 ∧ 1 + 2097152 ≤ 2 ^ 57
  ∧ (∀ tr hist b, hout (host_echo tr hist (malloc b)) ≠ 0)
  ∧ (∀ tr hist src,
       hstatus (host_echo tr hist (hipMemcpyDeviceToHost src test_size)) = 0 →
       length (hdata (host_echo tr hist
                        (hipMemcpyDeviceToHost src test_size)))
       = Z.to_nat test_words)
  ∧ cu_failed 0
      (host_echo (trace (world host_init)) (outside host_init)
         (cuMemAddressReserve (ceil_div 1 2097152 * 2097152) 2097152))
    = false
  ∧ ∃ b mem' h' ms r1 rest,
      allocate_device_memory 0 0 8 (λ _, driver_ok) host_echo mem_init 1
        2097152 true host_init = Some ((b, mem'), h')
      ∧ DeviceMemory.allocated mem' = b || DeviceMemory.allocated mem_init
      ∧ create_and_map 0 driver_ok (DeviceMemory.device mem_init)
          (DeviceMemory.alignedSize mem') (DeviceMemory.d_mem mem')
          (DeviceMemory.p_memHandle mem') (DeviceMemory.chunk_sizes mem')
          (DeviceMemory.num_chunks mem') (world host_init)
        = Some (tt, world h')
      ∧ outside h'
        = outside host_init
          ++ (cuMemAddressReserve (ceil_div 1 2097152 * 2097152) 2097152,
              host_echo (trace (world host_init)) (outside host_init)
                (cuMemAddressReserve (ceil_div 1 2097152 * 2097152) 2097152))
             :: ms
          ++ (hipMemcpyHostToDevice (DeviceMemory.d_mem mem') h_data
                test_size, r1) :: rest
      ∧ Forall (λ e : HostEvent, ∃ bytes, e.1 = malloc bytes) ms
      ∧ (hip_failed 0 r1 = true → rest = [] ∧ b = false)
      ∧ (hip_failed 0 r1 = false →
         ∃ r2,
           rest = [(hipMemcpyDeviceToHost (DeviceMemory.d_mem mem') test_size,
                    r2)]
           ∧ b = negb (hip_failed 0 r2) && bool_decide (hdata r2 = h_data)).
Proof.
  assert (∀ tr hist b, hout (host_echo tr hist (malloc b)) ≠ 0) as Hm
    by (intros; unfold host_echo, host_answering; cbn [hout]; lia).
  assert (∀ tr hist src,
            hstatus (host_echo tr hist (hipMemcpyDeviceToHost src test_size))
            = 0 →
            length (hdata (host_echo tr hist
                             (hipMemcpyDeviceToHost src test_size)))
            = Z.to_nat test_words) as Hfull.
  { intros tr hist src _. unfold host_echo, host_answering. cbn [hdata].
    exact length_h_data. }
  assert (cu_failed 0
            (host_echo (trace (world host_init)) (outside host_init)
               (cuMemAddressReserve (ceil_div 1 2097152 * 2097152) 2097152))
          = false) as Hres by reflexivity.
  split; [lia|]. split; [lia|]. split; [lia|]. split; [exact Hm|].
  split; [exact Hfull|]. split; [exact Hres|].
  apply (verification_decides_the_result 0 0 8 (λ _, driver_ok) host_echo
           mem_init 1 2097152 host_init); (lia || assumption).
Defined.

(** The verification passes when the device gives back the pattern, and
    has no defined result when a copy reports success without filling the
    buffer. *)
Example verification_of_an_echoing_device :
  (λ r : bool * DeviceMemory.t * Host, (r.1.1, DeviceMemory.allocated r.1.2))
    <$> allocate_device_memory 0 0 8 (λ _, driver_ok) host_echo mem_init 1
          2097152 true host_init
  = Some (true, true)
  ∧ allocate_device_memory 0 0 8 (λ _, driver_ok) host_ok mem_init 1 2097152
      true host_init = None.
Proof. split; vm_compute; reflexivity. Qed.

Lemma failed_allocation_is_never_freed_witness :
  DeviceMemory.allocated mem_init = false
  ∧ ∃ mem' h',
      allocate_device_memory 0 0 8 (λ _, driver_ok)
        (host_failing is_copy_to_device) mem_init 1 2097152 true host_init
      = Some ((false, mem'), h')
      ∧ DeviceMemory.allocated mem' = false
      ∧ free_device_memory 0 (λ _, driver_ok) (host_failing is_copy_to_device)
          mem' h' = Some ((true, mem'), h').
Proof.
  split; [reflexivity|].
  destruct (allocate_device_memory_run 0 0 8 (λ _, driver_ok)
              (host_failing is_copy_to_device) mem_init 1 2097152 true
              host_init 2097152 134217728 1)
    as (ms & slots & w' & d & mem2 & mem3 & h1 & _ & _ & _ & _ & _ & _ & _
        & Hrun);
    [reflexivity|reflexivity|reflexivity|unfold INT_MAX; lia| |reflexivity|].
  { intros. unfold host_failing. cbn [is_copy_to_device hout]. lia. }
  cbv beta zeta iota
    delta [hip_failed host_failing is_copy_to_device hstatus negb Z.eqb]
    in Hrun.
  eexists _, _. split; [exact Hrun|].
  exact (failed_allocation_is_never_freed 0 0 8 (λ _, driver_ok)
           (host_failing is_copy_to_device) mem_init 1 2097152 true host_init
           _ _ eq_refl Hrun).
Defined.

Lemma address_is_freed_whatever_the_teardown_did_witness :
  DeviceMemory.allocated mem_mapped = true
  ∧ well_formed (DeviceMemory.p_memHandle mem_mapped)
      (DeviceMemory.chunk_sizes mem_mapped)
      (DeviceMemory.num_chunks mem_mapped)
  ∧ (∀ i, (i < length (DeviceMemory.p_memHandle mem_mapped))%nat →
          is_Some (heap (world host_mapped)
                   !! (DeviceMemory.p_memHandle mem_mapped !!! i)))
  ∧ ∃ b mem' h' r,
      free_device_memory 0 (λ _, driver_failing (unmaps_at 2162688)) host_ok
        mem_mapped host_mapped = Some ((b, mem'), h')
      ∧ unmap_and_release 0 (driver_failing (unmaps_at 2162688))
          (DeviceMemory.device mem_mapped)
          (DeviceMemory.alignedSize mem_mapped)
          (DeviceMemory.d_mem mem_mapped)
          (DeviceMemory.p_memHandle mem_mapped)
          (DeviceMemory.chunk_sizes mem_mapped)
          (DeviceMemory.num_chunks mem_mapped) (world host_mapped)
        = Some (tt, world h')
      ∧ outside h'
        = outside host_mapped
          ++ [(cuMemAddressFree (DeviceMemory.d_mem mem_mapped)
                 (DeviceMemory.alignedSize mem_mapped), r)]
      ∧ b = negb (cu_failed 0 r)
      ∧ DeviceMemory.allocated mem' = negb b
      ∧ DeviceMemory.device mem' = DeviceMemory.device mem_mapped
      ∧ DeviceMemory.size mem' = DeviceMemory.size mem_mapped
      ∧ DeviceMemory.alignedSize mem' = DeviceMemory.alignedSize mem_mapped
      ∧ DeviceMemory.d_mem mem' = DeviceMemory.d_mem mem_mapped
      ∧ DeviceMemory.p_memHandle mem' = DeviceMemory.p_memHandle mem_mapped
      ∧ DeviceMemory.chunk_sizes mem' = DeviceMemory.chunk_sizes mem_mapped
      ∧ DeviceMemory.num_chunks mem' = DeviceMemory.num_chunks mem_mapped
      ∧ (b = true →
         free_device_memory 0 (λ _, driver_failing (unmaps_at 2162688)) host_ok
           mem' h' = Some ((true, mem'), h')).
Proof.
  assert (well_formed (DeviceMemory.p_memHandle mem_mapped)
            (DeviceMemory.chunk_sizes mem_mapped)
            (DeviceMemory.num_chunks mem_mapped)) as Hwf
    by (repeat split; done).
  assert (∀ i, (i < length (DeviceMemory.p_memHandle mem_mapped))%nat →
               is_Some (heap (world host_mapped)
                        !! (DeviceMemory.p_memHandle mem_mapped !!! i)))
    as Hslots.
  { intros [|[|i]] Hi; [by eexists|by eexists|cbn in Hi; lia]. }
  split; [reflexivity|]. split; [exact Hwf|]. split; [exact Hslots|].
  exact (address_is_freed_whatever_the_teardown_did 0
           (λ _, driver_failing (unmaps_at 2162688)) host_ok mem_mapped
           host_mapped eq_refl Hwf Hslots).
Defined.

(** The second unmapping fails, no handle is released, and the address
    range is freed all the same, with a result of [true]. *)
Example address_freed_after_a_failed_unmapping :
  (λ r : bool * DeviceMemory.t * Host,
     (r.1.1, DeviceMemory.allocated r.1.2,
      of_kind KRelease (trace (world r.2)), (outside r.2).*1))
    <$> free_device_memory 0 (λ _, driver_failing (unmaps_at 2162688)) host_ok
          mem_mapped host_mapped
  = Some (true, false, [], [cuMemAddressFree 65536 4194304]).
Proof. vm_compute. reflexivity. Qed.

Lemma free_returns_what_allocate_reserved_witness :
  0 < 314572800 ∧ 0 < 2097152 ∧ 314572800 + 2097152 ≤ 2 ^ 57
  ∧ (∀ tr hist b, hout (host_ok tr hist (malloc b)) ≠ 0)
  ∧ cu_failed 0
      (host_ok (trace (world host_init)) (outside host_init)
         (cuMemAddressReserve (ceil_div 314572800 2097152 * 2097152)
            2097152)) = false
  ∧ ∃ mem' h' evs ms r0,
      allocate_device_memory 0 0 8 (λ _, driver_ok) host_ok mem_init 314572800
        2097152 false host_init = Some ((true, mem'), h')
      ∧ create_and_map 0 driver_ok (DeviceMemory.device mem')
          (DeviceMemory.alignedSize mem') (DeviceMemory.d_mem mem')
          (DeviceMemory.p_memHandle mem') (DeviceMemory.chunk_sizes mem')
          (DeviceMemory.num_chunks mem') (world host_init)
        = Some (tt, world h')
      ∧ trace (world h') = trace (world host_init) ++ evs
      ∧ outside h'
        = outside host_init
          ++ (cuMemAddressReserve (ceil_div 314572800 2097152 * 2097152)
                2097152, r0) :: ms
      ∧ of_kind KAccess evs ≠ []
      ∧ ∃ b mem'' h'' r,
          free_device_memory 0 (λ _, driver_ok) host_ok mem' h'
          = Some ((b, mem''), h'')
          ∧ unmap_and_release 0 driver_ok (DeviceMemory.device mem')
              (DeviceMemory.alignedSize mem') (DeviceMemory.d_mem mem')
              (DeviceMemory.p_memHandle mem') (DeviceMemory.chunk_sizes mem')
              (DeviceMemory.num_chunks mem') (world h')
            = Some (tt, world h'')
          ∧ outside h''
            = outside h'
              ++ [(cuMemAddressFree (hout r0)
                     (ceil_div 314572800 2097152 * 2097152), r)]
          ∧ b = negb (cu_failed 0 r).
Proof.
  assert (∀ tr hist b, hout (host_ok tr hist (malloc b)) ≠ 0) as Hm
    by (intros; unfold host_ok, host_failing; cbn [hout]; lia).
  assert (cu_failed 0
            (host_ok (trace (world host_init)) (outside host_init)
               (cuMemAddressReserve (ceil_div 314572800 2097152 * 2097152)
                  2097152)) = false) as Hres by reflexivity.
  split; [lia|]. split; [lia|]. split; [lia|]. split; [exact Hm|].
  split; [exact Hres|].
  destruct (free_returns_what_allocate_reserved 0 0 8 (λ _, driver_ok) host_ok
              mem_init 314572800 2097152 host_init
              ltac:(lia) ltac:(lia) ltac:(lia) Hm Hres)
    as (mem' & h' & evs & ms & r0 & Hrun & Hcam & Htr & Hout & H).
  exists mem', h', evs, ms, r0.
  split; [exact Hrun|]. split; [exact Hcam|]. split; [exact Htr|].
  split; [exact Hout|].
  assert (of_kind KAccess evs ≠ []) as Hgrant.
  { clear Hcam Hout H. vm_compute in Hrun. injection Hrun as <- <-.
    cbn in Htr. rewrite <- Htr. vm_compute. discriminate. }
  split; [exact Hgrant|]. exact (H Hgrant).
Defined.

(** The calls that [cumem_test.cpp] itself makes for 300 MiB on a device
    with a granularity of 2 MiB, allocation and release together. *)
Example calls_of_allocate_and_free :
  (r ← allocate_device_memory 0 0 8 (λ _, driver_ok) host_ok mem_init 314572800
         2097152 false host_init;
   (λ r' : bool * DeviceMemory.t * Host, (r.1.1, r'.1.1, (outside r'.2).*1))
     <$> free_device_memory 0 (λ _, driver_ok) host_ok r.1.2 r.2)
  = Some (true, true,
          [cuMemAddressReserve 314572800 2097152;
           malloc 24; malloc 24; malloc 8; malloc 8; malloc 8;
           cuMemAddressFree 1000 314572800]).
Proof. vm_compute. reflexivity. Qed.

Lemma granularity_zero_has_no_allocation_witness :
  ∃ h',
    get_memory_granularity 0 (host_failing is_granularity_query) 0 host_init
    = Some (0, h')
    ∧ allocate_device_memory 0 0 8 (λ _, driver_ok)
        (host_failing is_granularity_query) mem_init 1 0 true h' = None.
Proof.
  destruct (granularity_zero_has_no_allocation 0 0 8 (λ _, driver_ok)
              (host_failing is_granularity_query) 0 mem_init 1 true host_init)
    as (g & h' & r & Hq & -> & Hh & Hg & Hz).
  cbn in Hg. subst g. exists h'. split; [exact Hq|]. exact (Hz eq_refl).
Defined.

Lemma allocation_maps_the_reserved_range_witness :
  0 < 314572800 ∧ 0 < 2097152 ∧ 314572800 + 2097152 ≤ 2 ^ 57
  ∧ (∀ tr hist b, hout (host_ok tr hist (malloc b)) ≠ 0)
  ∧ cu_failed 0
      (host_ok (trace (world host_init)) (outside host_init)
         (cuMemAddressReserve (ceil_div 314572800 2097152 * 2097152)
            2097152)) = false
  ∧ 0 ≤ hout (host_ok (trace (world host_init)) (outside host_init)
                (cuMemAddressReserve (ceil_div 314572800 2097152 * 2097152)
                   2097152))
  ∧ hout (host_ok (trace (world host_init)) (outside host_init)
            (cuMemAddressReserve (ceil_div 314572800 2097152 * 2097152)
               2097152))
    + ceil_div 314572800 2097152 * 2097152 < U64.modulus
  ∧ ∃ mem' h' evs,
      allocate_device_memory 0 0 8 (λ _, driver_ok) host_ok mem_init 314572800
        2097152 false host_init = Some ((true, mem'), h')
      ∧ trace (world h') = trace (world host_init) ++ evs
      ∧ DeviceMemory.d_mem mem'
        = hout (host_ok (trace (world host_init)) (outside host_init)
                  (cuMemAddressReserve
                     (ceil_div 314572800 2097152 * 2097152) 2097152))
      ∧ sum_sizes (DeviceMemory.chunk_sizes mem')
        = ceil_div 314572800 2097152 * 2097152
      ∧ (∀ i m, of_kind KMap evs !! i = Some m →
           ∃ handle,
             m.1 = cuMemMap
                     (DeviceMemory.d_mem mem'
                      + sum_sizes (take i (DeviceMemory.chunk_sizes mem')))
                     (DeviceMemory.chunk_sizes mem' !!! i) handle)
      ∧ (∀ e, e ∈ of_kind KAccess evs →
           e.1 = cuMemSetAccess (DeviceMemory.d_mem mem')
                   (ceil_div 314572800 2097152 * 2097152)
                   (DeviceMemory.device mem_init)
           ∧ Z.of_nat (length (of_kind KMap evs))
             = DeviceMemory.num_chunks mem'
           ∧ Forall (succeeded 0) (of_kind KMap evs)).
Proof.
  assert (∀ tr hist b, hout (host_ok tr hist (malloc b)) ≠ 0) as Hm
    by (intros; unfold host_ok, host_failing; cbn [hout]; lia).
  assert (cu_failed 0
            (host_ok (trace (world host_init)) (outside host_init)
               (cuMemAddressReserve (ceil_div 314572800 2097152 * 2097152)
                  2097152)) = false) as Hres by reflexivity.
  split; [lia|]. split; [lia|]. split; [lia|]. split; [exact Hm|].
  split; [exact Hres|]. split; [by vm_compute|]. split; [by vm_compute|].
  apply (allocation_maps_the_reserved_range 0 0 8 (λ _, driver_ok) host_ok
           mem_init 314572800 2097152 host_init);
    (lia || assumption || by vm_compute).
Defined.

(** The three chunks of 300 MiB are mapped back to back from the reserved
    address 1000, and access is granted for the 300 MiB from there. *)
Example ranges_mapped_for_300_MiB :
  (λ r : bool * DeviceMemory.t * Host,
     ((of_kind KMap (trace (world r.2))).*1,
      (of_kind KAccess (trace (world r.2))).*1))
    <$> allocate_device_memory 0 0 8 (λ _, driver_ok) host_ok mem_init
          314572800 2097152 false host_init
  = Some ([cuMemMap 1000 134217728 3;
           cuMemMap 134218728 134217728 4;
           cuMemMap 268436456 46137344 5],
          [cuMemSetAccess 1000 314572800 0]).
Proof. vm_compute. reflexivity. Qed.
